(** * html-component-engine: the component compiler, embedded and verified

    Shallow embedding of [src/engine/compiler.js] and [src/engine/utils.js].
    JavaScript strings are lists of code units (restricted to the range
    0..255 of [ascii]); the regular expressions of the source are values of
    a small regex type run by a backtracking matcher written, like the
    ECMAScript specification's, with continuations; the Node services the
    engine calls ([path], [fs], dynamic [import]) are the fields of a
    [host] record. The inliners of the build, and the page routing, the
    client injection and the directory walks of the plugin
    ([src/index.js]), are embedded after the compiler. *)

From Stdlib Require Import String Ascii Bool Arith NArith Lia List.
Import ListNotations.
Local Open Scope list_scope.

(** ** Strings *)

Definition str := list ascii.

Definition js (s : string) : str := list_ascii_of_string s.

(** The double quote character, U+0022. *)
Definition dq : ascii := "034"%char.

Definition quoted (s : str) : str := dq :: s ++ [dq].

Fixpoint str_eqb (a b : str) : bool :=
  match a, b with
  | [], [] => true
  | x :: a', y :: b' => Ascii.eqb x y && str_eqb a' b'
  | _, _ => false
  end.

(** A JavaScript string is truthy when it is not empty. *)
Definition truthy (s : str) : bool :=
  match s with [] => false | _ :: _ => true end.

Fixpoint strip_prefix (p s : str) : option str :=
  match p with
  | [] => Some s
  | x :: p' =>
      match s with
      | y :: s' => if Ascii.eqb x y then strip_prefix p' s' else None
      | [] => None
      end
  end.

Definition starts_with (c : ascii) (s : str) : bool :=
  match s with a :: _ => Ascii.eqb a c | [] => false end.

(** [String.prototype.includes]. *)
Fixpoint includes (p s : str) : bool :=
  match strip_prefix p s with
  | Some _ => true
  | None => match s with [] => false | _ :: s' => includes p s' end
  end.

(** ** Character classes *)

Definition code (a : ascii) : nat := nat_of_ascii a.

Definition between (lo hi : nat) (a : ascii) : bool :=
  (lo <=? code a) && (code a <=? hi).

(** [\s]: white space and line terminators below U+0100. *)
Definition is_space (a : ascii) : bool :=
  between 9 13 a || (code a =? 32) || (code a =? 160).

(** [\w] *)
Definition is_word (a : ascii) : bool :=
  between 48 57 a || between 65 90 a || between 97 122 a || (code a =? 95).

(** [[\w-]] *)
Definition is_word_or_hyphen (a : ascii) : bool :=
  is_word a || Ascii.eqb a "-"%char.

(** [[^x]] *)
Definition is_not (x : ascii) (a : ascii) : bool := negb (Ascii.eqb a x).

(** [[\s\S]] *)
Definition is_any (_ : ascii) : bool := true.

(** [.] without the [s] flag: anything but a line terminator. *)
Definition is_dot (a : ascii) : bool :=
  negb ((code a =? 10) || (code a =? 13)).

(** ** String.prototype.trim, split, join *)

Fixpoint trimStart (s : str) : str :=
  match s with
  | a :: s' => if is_space a then trimStart s' else s
  | [] => []
  end.

Definition trimEnd (s : str) : str := rev (trimStart (rev s)).

Definition trim (s : str) : str := trimEnd (trimStart s).

(** [s.split(sep)] for a one-character separator: never an empty array. *)
Fixpoint split_on (sep : ascii) (s : str) : list str :=
  match s with
  | [] => [[]]
  | a :: s' =>
      if Ascii.eqb a sep then [] :: split_on sep s'
      else match split_on sep s' with
           | h :: t => (a :: h) :: t
           | [] => [[a]]
           end
  end.

Fixpoint join (sep : str) (parts : list str) : str :=
  match parts with
  | [] => []
  | [p] => p
  | p :: ps => p ++ sep ++ join sep ps
  end.

(** ** Regular expressions

    Every regular expression of the engine is a sequence of literal
    characters and of one character class under [*], [+], [*?] or [+?],
    the quantified class being a capture group or not. *)

Inductive node :=
| Lit (l : str)
| Rep (capture greedy : bool) (min : nat) (cls : ascii -> bool).

Definition regex := list node.

(** A match: [m0] is the matched text ([match[0]]), [caps] the capture
    groups in order, [rest] the subject after the match. *)
Record match_result := MkMatch { m0 : str; caps : list str; rest : str }.

Definition cap (i : nat) (m : match_result) : str := nth (i - 1) (caps m) [].

(** Greedy quantifier: take one more character first, fall back on the
    continuation. *)
Fixpoint rep_greedy {R} (cls : ascii -> bool) (min : nat) (taken s : str)
    (k : str -> str -> option R) : option R :=
  let stop := match min with 0 => k taken s | S _ => None end in
  match s with
  | a :: s' =>
      if cls a then
        match rep_greedy cls (pred min) (taken ++ [a]) s' k with
        | Some r => Some r
        | None => stop
        end
      else stop
  | [] => stop
  end.

(** Lazy quantifier: the continuation first, one more character on failure. *)
Fixpoint rep_lazy {R} (cls : ascii -> bool) (min : nat) (taken s : str)
    (k : str -> str -> option R) : option R :=
  match (match min with 0 => k taken s | S _ => None end) with
  | Some r => Some r
  | None =>
      match s with
      | a :: s' =>
          if cls a then rep_lazy cls (pred min) (taken ++ [a]) s' k else None
      | [] => None
      end
  end.

Definition rep {R} (greedy : bool) :=
  if greedy then @rep_greedy R else @rep_lazy R.

(** [run r taken caps s]: match [r] at the head of [s]. *)
Fixpoint run (r : regex) (taken : str) (cs : list str) (s : str)
    : option match_result :=
  match r with
  | [] => Some (MkMatch taken cs s)
  | Lit l :: r' =>
      match strip_prefix l s with
      | Some s' => run r' (taken ++ l) cs s'
      | None => None
      end
  | Rep capture greedy min cls :: r' =>
      rep greedy cls min [] s
        (fun t s' => run r' (taken ++ t) (if capture then cs ++ [t] else cs) s')
  end.

Definition exec_at (r : regex) (s : str) : option match_result := run r [] [] s.

(** [s.match(r)] without the [g] flag: the leftmost match. *)
Fixpoint search (r : regex) (s : str) : option match_result :=
  match exec_at r s with
  | Some m => Some m
  | None => match s with [] => None | _ :: s' => search r s' end
  end.

(** [[...s.matchAll(r)]] and the [exec] loop of a [g] regex: [skip] counts
    the characters of the last match still to step over; after an empty
    match the scan advances by one character. *)
Fixpoint scan (r : regex) (skip : nat) (s : str) : list match_result :=
  match skip with
  | S n => match s with [] => [] | _ :: s' => scan r n s' end
  | 0 =>
      match exec_at r s with
      | Some m =>
          m :: match s with
               | [] => []
               | _ :: s' => scan r (pred (length (m0 m))) s'
               end
      | None => match s with [] => [] | _ :: s' => scan r 0 s' end
      end
  end.

Definition matchAll (r : regex) (s : str) : list match_result := scan r 0 s.

(** GetSubstitution for a pattern without capture groups (a string, or a
    regex none of whose classes is captured): [$$] is a dollar, [$&] the
    match, [$`] the text before it, [$'] the text after it; any other
    dollar stands for itself. *)
Fixpoint getSubstitution (matched before after template : str) : str :=
  match template with
  | [] => []
  | a :: t =>
      if Ascii.eqb a "$"%char then
        match t with
        | b :: t' =>
            if Ascii.eqb b "$"%char then
              "$"%char :: getSubstitution matched before after t'
            else if Ascii.eqb b "&"%char then
              matched ++ getSubstitution matched before after t'
            else if Ascii.eqb b "`"%char then
              before ++ getSubstitution matched before after t'
            else if Ascii.eqb b "'"%char then
              after ++ getSubstitution matched before after t'
            else a :: getSubstitution matched before after t
        | [] => [a]
        end
      else a :: getSubstitution matched before after t
  end.

(** [s.replace(pattern, replacement)] for a string pattern: the first
    occurrence only. *)
Fixpoint replace_first_from (pattern replacement before s : str) : str :=
  match strip_prefix pattern s with
  | Some after =>
      before ++ getSubstitution pattern before after replacement ++ after
  | None =>
      match s with
      | [] => before
      | a :: s' => replace_first_from pattern replacement (before ++ [a]) s'
      end
  end.

Definition replace_first (pattern replacement s : str) : str :=
  replace_first_from pattern replacement [] s.

(** [s.replace(r, replacement)] for a [g] regex without captured groups. *)
Fixpoint replace_scan (r : regex) (replacement : str) (skip : nat)
    (before s : str) : str :=
  match skip with
  | S n =>
      match s with
      | [] => []
      | a :: s' => replace_scan r replacement n (before ++ [a]) s'
      end
  | 0 =>
      match exec_at r s with
      | Some m =>
          getSubstitution (m0 m) before (rest m) replacement ++
          match s with
          | [] => []
          | a :: s' =>
              match m0 m with
              | [] => a :: replace_scan r replacement 0 (before ++ [a]) s'
              | _ :: w => replace_scan r replacement (length w) (before ++ [a]) s'
              end
          end
      | None =>
          match s with
          | [] => []
          | a :: s' => a :: replace_scan r replacement 0 (before ++ [a]) s'
          end
      end
  end.

Definition replaceAll (r : regex) (replacement s : str) : str :=
  replace_scan r replacement 0 [] s.

(** ** Objects

    A plain object, written [{}] in the source, used as a map from strings
    to strings: its own properties in insertion order; assigning to a key
    it has keeps the key's place. The object inherits from
    [Object.prototype]: reading a key that is not its own finds the member
    of [Object.prototype] of that name, and assigning a string to
    [__proto__], when that is not an own key, runs the inherited setter,
    which ignores it. *)

Definition obj := list (str * str).

Fixpoint lookup {A} (k : str) (table : list (str * A)) : option A :=
  match table with
  | [] => None
  | (k', v) :: t => if str_eqb k k' then Some v else lookup k t
  end.

(** The own property [k]. *)
Fixpoint obj_get (k : str) (o : obj) : option str :=
  match o with
  | [] => None
  | (k', v) :: o' => if str_eqb k k' then Some v else obj_get k o'
  end.

(** The own property [k] created or changed. *)
Fixpoint obj_define (k v : str) (o : obj) : obj :=
  match o with
  | [] => [(k, v)]
  | (k', v') :: o' =>
      if str_eqb k k' then (k', v) :: o' else (k', v') :: obj_define k v o'
  end.

(** [o[k] = v] for a string [v]. *)
Definition obj_set (k v : str) (o : obj) : obj :=
  match obj_get k o with
  | Some _ => obj_define k v o
  | None => if str_eqb k (js "__proto__") then o else obj_define k v o
  end.

(** The members of [Object.prototype]. *)
Inductive member :=
| Constructor
| DefineGetter
| DefineSetter
| HasOwnProperty
| LookupGetter
| LookupSetter
| IsPrototypeOf
| PropertyIsEnumerable
| ToString
| ValueOf
| Proto
| ToLocaleString.

Definition members : list (str * member) :=
  [ (js "constructor", Constructor);
    (js "__defineGetter__", DefineGetter);
    (js "__defineSetter__", DefineSetter);
    (js "hasOwnProperty", HasOwnProperty);
    (js "__lookupGetter__", LookupGetter);
    (js "__lookupSetter__", LookupSetter);
    (js "isPrototypeOf", IsPrototypeOf);
    (js "propertyIsEnumerable", PropertyIsEnumerable);
    (js "toString", ToString);
    (js "valueOf", ValueOf);
    (js "__proto__", Proto);
    (js "toLocaleString", ToLocaleString) ].

(** What reading [o[k]] gives: a string of the object's own, a member of
    [Object.prototype], or [undefined]. *)
Inductive value :=
| Undefined
| Own (s : str)
| Inherited (m : member).

Definition obj_read (k : str) (o : obj) : value :=
  match obj_get k o with
  | Some s => Own s
  | None =>
      match lookup k members with
      | Some m => Inherited m
      | None => Undefined
      end
  end.

(** A function and an object are truthy. *)
Definition truthy_value (v : value) : bool :=
  match v with
  | Undefined => false
  | Own s => truthy s
  | Inherited _ => true
  end.

(** What a computation that may throw ends in: a string, or a
    [TypeError]. *)
Inductive result :=
| Ok (s : str)
| TypeError.

(** A function member called as [String.prototype.replace] calls a
    replacer, with [undefined] as [this] and the matched text as first
    argument: the string made of what it returns, or [None] when it
    throws. [Object.prototype.toString] names the type of [this],
    [Object] wraps the matched text, [isPrototypeOf] answers [false] for
    an argument that is no object; the others turn [this] into an object
    first, and throw. [__proto__] is not a function. *)
Definition call_member (m : member) (matched : str) : option str :=
  match m with
  | ToString => Some (js "[object Undefined]")
  | Constructor => Some matched
  | IsPrototypeOf => Some (js "false")
  | _ => None
  end.

(** [s.replace(r, f)] for a [g] regex and a function [f]: what [f]
    returns stands for each match, as it is. *)
Fixpoint replace_call (r : regex) (f : str -> option str) (skip : nat)
    (s : str) : result :=
  match skip with
  | S n =>
      match s with
      | [] => Ok []
      | _ :: s' => replace_call r f n s'
      end
  | 0 =>
      match exec_at r s with
      | Some m =>
          match f (m0 m) with
          | None => TypeError
          | Some t =>
              match (match s with
                     | [] => Ok []
                     | a :: s' =>
                         match m0 m with
                         | [] =>
                             match replace_call r f 0 s' with
                             | Ok u => Ok (a :: u)
                             | TypeError => TypeError
                             end
                         | _ :: w => replace_call r f (length w) s'
                         end
                     end) with
              | Ok u => Ok (t ++ u)
              | TypeError => TypeError
              end
          end
      | None =>
          match s with
          | [] => Ok []
          | a :: s' =>
              match replace_call r f 0 s' with
              | Ok u => Ok (a :: u)
              | TypeError => TypeError
              end
          end
      end
  end.

(** [s.replace(r, v)] for a [g] regex without captured groups and the
    value [v] of a property: a function is called for each match, anything
    else is turned into a string first, [Object.prototype] into
    [[object Object]]. *)
Definition replaceAllBy (r : regex) (v : value) (s : str) : result :=
  match v with
  | Undefined => Ok (replaceAll r (js "undefined") s)
  | Own t => Ok (replaceAll r t s)
  | Inherited Proto => Ok (replaceAll r (js "[object Object]") s)
  | Inherited m => replace_call r (call_member m) 0 s
  end.

Definition obj_delete (k : str) (o : obj) : obj :=
  filter (fun e => negb (str_eqb k (fst e))) o.

Definition is_digit (a : ascii) : bool := between 48 57 a.

Fixpoint digits_value (acc : N) (s : str) : N :=
  match s with
  | [] => acc
  | a :: s' => digits_value (acc * 10 + N.of_nat (code a - 48)) s'
  end.

(** An array index is the canonical decimal form of an integer below
    2^32 - 1. *)
Definition array_index (k : str) : option N :=
  match k with
  | [] => None
  | a :: k' =>
      if forallb is_digit k
         && (negb (Ascii.eqb a "0"%char) || negb (truthy k'))
         && (digits_value 0 k <=? 4294967294)%N
      then Some (digits_value 0 k)
      else None
  end.

Fixpoint insert_index (i : N) (e : str * str) (l : list (N * (str * str)))
    : list (N * (str * str)) :=
  match l with
  | [] => [(i, e)]
  | (j, e') :: l' =>
      if (i <=? j)%N then (i, e) :: l else (j, e') :: insert_index i e l'
  end.

Fixpoint index_entries (o : obj) : list (N * (str * str)) :=
  match o with
  | [] => []
  | e :: o' =>
      match array_index (fst e) with
      | Some i => insert_index i e (index_entries o')
      | None => index_entries o'
      end
  end.

(** [Object.entries]: array-index keys in ascending order, then the other
    keys in insertion order. *)
Definition entries (o : obj) : list (str * str) :=
  map snd (index_entries o) ++
  filter (fun e => match array_index (fst e) with Some _ => false | None => true end) o.

(** ** The host: path, fs and dynamic import *)

(** What calling a component module's function does: it throws, or
    returns a string or [null]. *)
Inductive completion :=
| Throw
| Return (v : option str).

(** [componentModule.default || componentModule]: a function of the props,
    or any other value, given by its [String(...)]. *)
Inductive export :=
| ExportFunction (f : obj -> completion)
| ExportValue (asString : str).

Record host := MkHost {
  path_join : list str -> str;
  path_dirname : str -> str;
  fs_access : str -> bool;
  fs_readFile : str -> option str;
  import_module : str -> option export
}.

(** ** utils.js *)

Definition tagRegex : regex :=
  [ Lit (js "<Component"); Rep false true 1 is_space;
    Rep true true 1 (is_not ">"%char); Rep false true 0 is_space;
    Lit (js "/>") ].

Definition attrRegex (name_class : ascii -> bool) : regex :=
  [ Rep true true 1 name_class; Lit (js "=" ++ [dq]);
    Rep true true 0 (is_not dq); Lit [dq] ].

Definition collectAttrs (name_class : ascii -> bool) (s : str) : obj :=
  fold_left (fun attrs m => obj_set (cap 1 m) (cap 2 m) attrs)
            (matchAll (attrRegex name_class) s) [].

Definition parseSelfClosingComponentTag (tag : str) : option obj :=
  match search tagRegex tag with
  | None => None
  | Some m => Some (collectAttrs is_word_or_hyphen (cap 1 m))
  end.

Definition parseComponentTag (tag : str) : option obj :=
  parseSelfClosingComponentTag tag.

Definition variantsRegex : regex :=
  [ Lit (js "<!--"); Rep false true 0 is_space; Lit (js "variants:");
    Rep false true 0 is_space; Rep true false 1 is_dot;
    Rep false true 0 is_space; Lit (js "-->") ].

Definition addVariant (variants : obj) (pair : str) : obj :=
  match split_on "="%char pair with
  | name :: classParts =>
      let classes := join (js "=") classParts in
      if truthy name && truthy classes
      then obj_set (trim name) (trim classes) variants
      else variants
  | [] => variants
  end.

Definition parseVariants (html : str) : obj :=
  match search variantsRegex html with
  | Some m => fold_left addVariant (split_on ","%char (cap 1 m)) []
  | None => []
  end.

Definition anyPlaceholderRegex : regex :=
  [ Lit (js "{{"); Rep false true 0 is_space; Rep false true 1 is_word;
    Rep false true 0 is_space; Lit (js "}}") ].

Definition cleanUnusedPlaceholders (html : str) : str :=
  replaceAll anyPlaceholderRegex [] html.

Definition backslashRegex : regex := [ Lit (js "\") ].

Definition normalizePath (p : str) : str :=
  replaceAll backslashRegex (js "/") p.

(** ** compiler.js *)

(** The regex built for a key: [\{\{\s*key\s*\}\}]. *)
Definition placeholderRegex (key : str) : regex :=
  [ Lit (js "{{"); Rep false true 0 is_space; Lit key;
    Rep false true 0 is_space; Lit (js "}}") ].

Definition childrenRegex : regex :=
  [ Lit (js "<Component"); Rep false true 1 is_space;
    Lit (js "name=" ++ [dq]); Rep true true 1 (is_not dq); Lit [dq];
    Rep true true 0 (is_not ">"%char); Lit (js ">");
    Rep true false 0 is_any; Lit (js "</Component>") ].

Definition selfClosingRegex : regex :=
  [ Lit (js "<Component"); Rep false true 1 (is_not ">"%char); Lit (js "/>") ].

Definition parseAttributes (attrsStr : str) : obj :=
  collectAttrs is_word attrsStr.

Definition notFound (name : str) : str :=
  js "<!-- Component " ++ quoted name ++ js " not found -->".

(** The three candidate paths of a component, in search order. *)
Definition possiblePaths (h : host) (normalizedName root projectRoot : str)
    : list str :=
  [ path_join h [root; js "components"; normalizedName ++ js ".html"];
    path_join h [projectRoot; js "src"; js "components";
                 normalizedName ++ js ".html"];
    path_join h [projectRoot; js "components"; normalizedName ++ js ".html"] ].

(** The [for] loop of [loadComponent] over the candidate paths. *)
Fixpoint tryPaths (h : host) (paths : list str) (attrs : obj) : option str :=
  match paths with
  | [] => None
  | componentPath :: others =>
      match (if fs_access h componentPath
             then fs_readFile h componentPath else None) with
      | Some content => Some content
      | None =>
          let jsPath := replace_first (js ".html") (js ".js") componentPath in
          match import_module h jsPath with
          | Some (ExportFunction f) =>
              match f (obj_delete (js "name") (obj_delete (js "src") attrs)) with
              | Return v => v
              | Throw => tryPaths h others attrs
              end
          | Some (ExportValue v) => Some v
          | None => tryPaths h others attrs
          end
      end
  end.

Definition loadComponent (h : host) (name root projectRoot : str) (attrs : obj)
    : option str :=
  let normalizedName := replaceAll backslashRegex (js "/") name in
  tryPaths h (possiblePaths h normalizedName root projectRoot) attrs.

(** [compileHtml] calls itself through the two passes; the passes take the
    recursive call as [compile]. [None] is a compilation that does not
    return, [Some TypeError] one that throws. *)
Definition compiler := str -> str -> option str -> option result.

Definition bindProp (content : str) (e : str * str) : str :=
  replaceAll (placeholderRegex (fst e)) (snd e) content.

(** Lines 55-61: the children, then the props. *)
Definition bindChildren (componentContent children : str) (attrs : obj) : str :=
  let componentContent :=
    replaceAll (placeholderRegex (js "children")) children componentContent in
  fold_left bindProp (entries attrs) componentContent.

(** The body of the loop of [processComponentsWithChildren]. *)
Definition childrenStep (h : host) (compile : compiler) (root projectRoot : str)
    (acc : option result) (m : match_result) : option result :=
  match acc with
  | None => None
  | Some TypeError => Some TypeError
  | Some (Ok result) =>
      let fullTag := m0 m in
      let componentName := cap 1 m in
      let attrsStr := cap 2 m in
      let children := trim (cap 3 m) in
      let attrs := parseAttributes attrsStr in
      match loadComponent h componentName root projectRoot attrs with
      | None => Some (Ok (replace_first fullTag (notFound componentName) result))
      | Some componentContent =>
          let componentContent := bindChildren componentContent children attrs in
          match compile componentContent root (Some projectRoot) with
          | None => None
          | Some TypeError => Some TypeError
          | Some (Ok compiledComponent) =>
              Some (Ok (replace_first fullTag compiledComponent result))
          end
      end
  end.

Definition processComponentsWithChildren (h : host) (compile : compiler)
    (html root projectRoot : str) : option result :=
  fold_left (childrenStep h compile root projectRoot)
            (matchAll childrenRegex html) (Some (Ok html)).

(** Lines 99-105: the body of the loop over the attributes; a
    [TypeError] thrown for an attribute ends the loop. *)
Definition bindSelfClosingProp (variants : obj) (acc : result)
    (e : str * str) : result :=
  match acc with
  | TypeError => TypeError
  | Ok content =>
      let (key, value) := e in
      if str_eqb key (js "variant") && truthy_value (obj_read value variants)
      then replaceAllBy (placeholderRegex (js "variantClasses"))
                        (obj_read value variants) content
      else if negb (str_eqb key (js "src")) && negb (str_eqb key (js "variant"))
      then Ok (replaceAll (placeholderRegex key) value content)
      else Ok content
  end.

(** Lines 95-108: the variants of the content, the props, and the
    [{{ variantClasses }}] left. *)
Definition bindSelfClosing (componentContent : str) (attrs : obj) : result :=
  let variants := parseVariants componentContent in
  match fold_left (bindSelfClosingProp variants) (entries attrs)
                  (Ok componentContent) with
  | Ok componentContent =>
      Ok (replaceAll (placeholderRegex (js "variantClasses")) [] componentContent)
  | TypeError => TypeError
  end.

(** The body of the loop of [processSelfClosingComponents]. *)
Definition selfClosingStep (h : host) (compile : compiler)
    (root projectRoot : str) (acc : option result) (m : match_result)
    : option result :=
  match acc with
  | None => None
  | Some TypeError => Some TypeError
  | Some (Ok result) =>
      let tag := m0 m in
      match parseSelfClosingComponentTag tag with
      | None => Some (Ok result)
      | Some attrs =>
          match obj_get (js "src") attrs with
          | None => Some (Ok result)
          | Some name =>
              if negb (truthy name) then Some (Ok result) else
              match loadComponent h name root projectRoot attrs with
              | None => Some (Ok (replace_first tag (notFound name) result))
              | Some componentContent =>
                  match bindSelfClosing componentContent attrs with
                  | TypeError => Some TypeError
                  | Ok componentContent =>
                      match compile componentContent root (Some projectRoot) with
                      | None => None
                      | Some TypeError => Some TypeError
                      | Some (Ok compiledComponent) =>
                          Some (Ok (replace_first tag compiledComponent result))
                      end
                  end
              end
          end
      end
  end.

Definition processSelfClosingComponents (h : host) (compile : compiler)
    (html root projectRoot : str) : option result :=
  fold_left (selfClosingStep h compile root projectRoot)
            (matchAll selfClosingRegex html) (Some (Ok html)).

(** [projectRoot || path.dirname(root)]: [None] is an absent or [null]
    argument; the empty string is falsy too. *)
Definition effectiveProjectRoot (h : host) (root : str)
    (projectRoot : option str) : str :=
  match projectRoot with
  | Some p => if truthy p then p else path_dirname h root
  | None => path_dirname h root
  end.

(** [compileHtml], with the depth of recursion it may use. *)
Fixpoint compileHtml (h : host) (depth : nat) (html root : str)
    (projectRoot : option str) : option result :=
  match depth with
  | 0 => None
  | S d =>
      let effective := effectiveProjectRoot h root projectRoot in
      match processComponentsWithChildren h (compileHtml h d)
              html root effective with
      | None => None
      | Some TypeError => Some TypeError
      | Some (Ok result) =>
          processSelfClosingComponents h (compileHtml h d)
            result root effective
      end
  end.

(** ** A host in memory

    Files and modules are given by finite tables; the paths are those of
    Node's [path.posix]. *)

(** [normalizeString] of Node's [path], on the segments it has kept so
    far, the last one first: an empty segment and [.] are dropped, [..]
    drops the segment before it, and is kept when there is none to drop
    and the path is relative. *)
Definition normalizeSegment (allowAboveRoot : bool) (kept : list str)
    (segment : str) : list str :=
  if str_eqb segment [] || str_eqb segment (js ".") then kept
  else if str_eqb segment (js "..") then
    match kept with
    | last :: before =>
        if str_eqb last (js "..")
        then if allowAboveRoot then segment :: kept else kept
        else before
    | [] => if allowAboveRoot then [segment] else []
    end
  else segment :: kept.

(** [path.posix.normalize] *)
Definition posix_normalize (p : str) : str :=
  match p with
  | [] => js "."
  | _ :: _ =>
      let isAbsolute := starts_with "/"%char p in
      let trailingSeparator := starts_with "/"%char (rev p) in
      let kept := fold_left (normalizeSegment (negb isAbsolute))
                            (split_on "/"%char p) [] in
      match join (js "/") (rev kept) with
      | [] => if isAbsolute then js "/"
              else if trailingSeparator then js "./" else js "."
      | normalized =>
          (if isAbsolute then js "/" else []) ++ normalized
            ++ (if trailingSeparator then js "/" else [])
      end
  end.

(** [path.posix.join] *)
Definition posix_join (parts : list str) : str :=
  posix_normalize (join (js "/") (filter truthy parts)).

(** The path without its trailing slashes and without its last segment,
    read backwards; [None] when no slash is left. *)
Fixpoint drop_last_segment (reversed : str) : option str :=
  match reversed with
  | [] => None
  | a :: r => if Ascii.eqb a "/"%char then Some r else drop_last_segment r
  end.

Fixpoint drop_slashes (reversed : str) : str :=
  match reversed with
  | a :: r => if Ascii.eqb a "/"%char then drop_slashes r else reversed
  | [] => []
  end.

(** [path.posix.dirname]: the first character is never looked at as a
    separator. *)
Definition posix_dirname (p : str) : str :=
  match p with
  | [] => js "."
  | first :: others =>
      let hasRoot := Ascii.eqb first "/"%char in
      match drop_last_segment (drop_slashes (rev others)) with
      | None => if hasRoot then js "/" else js "."
      | Some [] => if hasRoot then js "//" else [first]
      | Some r => first :: rev r
      end
  end.

Definition mem_host (files : list (str * str)) (modules : list (str * export))
    : host :=
  {| path_join := posix_join;
     path_dirname := posix_dirname;
     fs_access := fun p => match lookup p files with Some _ => true | None => false end;
     fs_readFile := fun p => lookup p files;
     import_module := fun p => lookup p modules |}.

(** The fixtures of [tests/plugin.test.js], under [/fx]. *)
Definition fixtures : host :=
  mem_host
    [ (js "/fx/components/Header.html",
       js "<header><h1>{{ title }}</h1><nav>{{ nav }}</nav></header>");
      (js "/fx/components/Footer.html",
       js "<footer><p>{{ copyright }}</p></footer>");
      (js "/fx/components/Card.html",
       js "<div class=" ++ quoted (js "card") ++ js "><h3>{{ title }}</h3><div class="
          ++ quoted (js "card-body") ++ js ">{{ children }}</div></div>");
      (js "/fx/components/main/Button.html",
       js "<!-- variants: primary=btn-primary, secondary=btn-secondary -->"
          ++ ["010"%char] ++ js "<button class=" ++ quoted (js "{{ variantClasses }}")
          ++ js ">{{ text }}</button>") ]
    [].

(** An attribute [key="value"]. *)
Definition attr (key value : string) : str :=
  js key ++ js "=" ++ quoted (js value).

(** ** Predicates used in the statements *)

(** A character of [s] may be any but those of [banned]. *)
Definition avoids (banned : list ascii) (s : str) : bool :=
  forallb (fun a => negb (existsb (Ascii.eqb a) banned)) s.

(** The self-closing tag [<Component src="name" />]. *)
Definition srcTag (name : str) : str :=
  js "<Component src=" ++ quoted name ++ js " />".

(** A scanned self-closing match the pass does not resolve: its attribute
    parse fails, or gives no [src], or an empty one. *)
Definition malformed (tag : str) : bool :=
  match parseSelfClosingComponentTag tag with
  | None => true
  | Some attrs =>
      match obj_get (js "src") attrs with
      | None => true
      | Some name => negb (truthy name)
      end
  end.

(** The next character, if any, ends a run of the class. *)
Definition stops (cls : ascii -> bool) (s : str) : bool :=
  match s with [] => true | a :: _ => negb (cls a) end.

(** A match found before [s] was appended to the subject. *)
Definition extend (s : str) (m : option match_result) : option match_result :=
  option_map (fun m => MkMatch (m0 m) (caps m) (rest m ++ s)) m.

(** The placeholder [{{ name }}] with its inner white space. *)
Definition placeholder (w1 name w2 : str) : str :=
  js "{{" ++ w1 ++ name ++ w2 ++ js "}}".

(** [c2] returns what [c1] returns, wherever [c1] returns. *)
Definition extends_compiler (c1 c2 : compiler) : Prop :=
  forall (html root : str) (projectRoot : option str) (out : result),
    c1 html root projectRoot = Some out -> c2 html root projectRoot = Some out.

(** ** Concrete documents and hosts *)

Definition fx : str := js "/fx".

(** [<Component title="x" />]: a self-closing tag without [src]. *)
Definition tag_without_src : str :=
  js "<Component " ++ attr "title" "x" ++ js " />".

(** A host without any file or module. *)
Definition bare : host := mem_host [] [].



(** A project kept in a directory named [demo.html], with one dynamic
    component [Widget.js]; and the same project in [demo]. *)
Definition widget : export :=
  ExportFunction (fun _ => Return (Some (js "<b>widget</b>"))).

Definition demo_html : host :=
  mem_host [] [ (js "/work/demo.html/src/components/Widget.js", widget) ].

Definition demo : host :=
  mem_host [] [ (js "/work/demo/src/components/Widget.js", widget) ].

(** The card of the specification's example. *)
Definition card : host :=
  mem_host [ (js "/fx/components/Card.html",
              js "<div>{{ title }}{{ children }}</div>") ] [].

Definition card_page (children : string) : str :=
  js "<Component " ++ attr "name" "Card" ++ js " " ++ attr "title" "T" ++ js ">"
     ++ js children ++ js "</Component>".

(** The link of the specification's example. *)
Definition link : host :=
  mem_host [ (js "/fx/components/Link.html",
              js "<!-- variants: primary=btn-primary --><a class="
                 ++ quoted (js "{{ variantClasses }}") ++ js ">{{ text }}</a>") ] [].

Definition link_markup (classes text : string) : str :=
  js "<!-- variants: primary=btn-primary --><a class=" ++ quoted (js classes)
     ++ js ">" ++ js text ++ js "</a>".

(** ** The regular expressions of the inliners

    [inlineCss] and [inlineJs] use the [i] flag and classes of one
    character. Under [i] two characters match when their canonical forms
    (the upper case, when it is one code unit and does not turn a
    character from U+0080 on into an ASCII one) are equal. *)

Definition canonicalize (a : ascii) : nat :=
  if between 97 122 a then code a - 32
  else if code a =? 181 then 924
  else if between 224 254 a && negb (code a =? 247) then code a - 32
  else if code a =? 255 then 376
  else code a.

Definition same_char (ignoreCase : bool) (x y : ascii) : bool :=
  if ignoreCase then canonicalize x =? canonicalize y else Ascii.eqb x y.

(** The literal [p] at the head of [s]: the text it matches, and the rest. *)
Fixpoint strip_literal (ignoreCase : bool) (p s : str) : option (str * str) :=
  match p with
  | [] => Some ([], s)
  | x :: p' =>
      match s with
      | y :: s' =>
          if same_char ignoreCase x y then
            match strip_literal ignoreCase p' s' with
            | Some (t, r) => Some (y :: t, r)
            | None => None
            end
          else None
      | [] => None
      end
  end.

Inductive xnode :=
| XLit (l : str)
| XOne (cls : ascii -> bool)
| XRep (capture greedy : bool) (min : nat) (cls : ascii -> bool).

Record xregex := MkRegex { ignoreCase : bool; nodes : list xnode }.

Fixpoint xrun (i : bool) (r : list xnode) (taken : str) (cs : list str) (s : str)
    : option match_result :=
  match r with
  | [] => Some (MkMatch taken cs s)
  | XLit l :: r' =>
      match strip_literal i l s with
      | Some (t, s') => xrun i r' (taken ++ t) cs s'
      | None => None
      end
  | XOne cls :: r' =>
      match s with
      | a :: s' => if cls a then xrun i r' (taken ++ [a]) cs s' else None
      | [] => None
      end
  | XRep capture greedy min cls :: r' =>
      rep greedy cls min [] s
        (fun t s' => xrun i r' (taken ++ t) (if capture then cs ++ [t] else cs) s')
  end.

Definition xexec_at (r : xregex) (s : str) : option match_result :=
  xrun (ignoreCase r) (nodes r) [] [] s.

Fixpoint xsearch (r : xregex) (s : str) : option match_result :=
  match xexec_at r s with
  | Some m => Some m
  | None => match s with [] => None | _ :: s' => xsearch r s' end
  end.

Fixpoint xscan (r : xregex) (skip : nat) (s : str) : list match_result :=
  match skip with
  | S n => match s with [] => [] | _ :: s' => xscan r n s' end
  | 0 =>
      match xexec_at r s with
      | Some m =>
          m :: match s with
               | [] => []
               | _ :: s' => xscan r (pred (length (m0 m))) s'
               end
      | None => match s with [] => [] | _ :: s' => xscan r 0 s' end
      end
  end.

Definition xmatchAll (r : xregex) (s : str) : list match_result := xscan r 0 s.

(** ** compiler.js: inlineCss and inlineJs *)

(** [["']] and [[^"']] *)
Definition is_quote (a : ascii) : bool := Ascii.eqb a dq || Ascii.eqb a "'"%char.

Definition is_not_quote (a : ascii) : bool := negb (is_quote a).

Definition linkRegex : xregex :=
  MkRegex true
    [ XLit (js "<link"); XRep false true 1 (is_not ">"%char); XLit (js "rel=");
      XOne is_quote; XLit (js "stylesheet"); XOne is_quote;
      XRep false true 0 (is_not ">"%char); XLit (js ">") ].

Definition hrefRegex : xregex :=
  MkRegex false
    [ XLit (js "href="); XOne is_quote; XRep true true 1 is_not_quote;
      XOne is_quote ].

Definition scriptRegex : xregex :=
  MkRegex true
    [ XLit (js "<script"); XRep false true 1 (is_not ">"%char); XLit (js "src=");
      XOne is_quote; XRep true true 1 is_not_quote; XOne is_quote;
      XRep false true 0 (is_not ">"%char); XLit (js "></script>") ].

(** [s.startsWith(p)] *)
Definition startsWith (p s : str) : bool :=
  match strip_prefix p s with Some _ => true | None => false end.

Definition external (url : str) : bool :=
  startsWith (js "http://") url || startsWith (js "https://") url.

Definition fileExists (h : host) (filePath : str) : bool := fs_access h filePath.

Definition newline : str := ["010"%char].

Definition styleTag (cssContent : str) : str :=
  js "<style>" ++ newline ++ cssContent ++ newline ++ js "</style>".

Definition inlineScriptTag (jsContent : str) : str :=
  js "<script>" ++ newline ++ jsContent ++ newline ++ js "</script>".

(** Lines 214-227: the places where a stylesheet is looked for. *)
Definition pathsToTry (h : host) (root projectRoot href : str) : list str :=
  if startsWith (js "/") href then
    let cleanHref := tl href in
    [ path_join h [root; js "assets"; cleanHref];
      path_join h [root; cleanHref];
      path_join h [projectRoot; js "src"; js "assets"; cleanHref] ]
  else [ path_join h [root; href] ].

(** The body of the loop of [inlineCss]. *)
Definition inlineCssStep (h : host) (root projectRoot : str) (result : str)
    (m : match_result) : str :=
  let linkTag := m0 m in
  match xsearch hrefRegex linkTag with
  | None => result
  | Some hrefMatch =>
      let href := cap 1 hrefMatch in
      if external href then result else
      match find (fileExists h) (pathsToTry h root projectRoot href) with
      | Some cssPath =>
          if truthy cssPath then
            match fs_readFile h cssPath with
            | Some cssContent => replace_first linkTag (styleTag cssContent) result
            | None => result
            end
          else result
      | None => result
      end
  end.

Definition inlineCss (h : host) (html root projectRoot : str) : str :=
  fold_left (inlineCssStep h root projectRoot) (xmatchAll linkRegex html) html.

(** Lines 275-286: the file a script is read from. *)
Definition scriptPath (h : host) (root projectRoot src : str) : str :=
  if startsWith (js "/") src then
    let jsPath := path_join h [projectRoot; js "src"; js "assets"; tl src] in
    let jsPath :=
      if fileExists h jsPath then jsPath
      else path_join h [root; js "assets"; tl src] in
    if fileExists h jsPath then jsPath else path_join h [root; tl src]
  else path_join h [root; src].

(** The body of the loop of [inlineJs]. *)
Definition inlineJsStep (h : host) (root projectRoot : str) (result : str)
    (m : match_result) : str :=
  let scriptTag := m0 m in
  let src := cap 1 m in
  if external src || includes (js "@vite") src then result else
  match fs_readFile h (scriptPath h root projectRoot src) with
  | Some jsContent => replace_first scriptTag (inlineScriptTag jsContent) result
  | None => result
  end.

Definition inlineJs (h : host) (html root projectRoot : str) : str :=
  fold_left (inlineJsStep h root projectRoot) (xmatchAll scriptRegex html) html.

(** ** index.js: the files of a build

    A directory is read with [fs.readdir(dir, { withFileTypes: true })]:
    an entry is a directory, given with what reading it yields ([None]
    when [readdir] throws), or anything else, given by its name. *)

#[warnings="-register-all"]
Inductive dirent :=
| File (name : str)
| Dir (name : str) (listing : option (list dirent)).

(** [s.endsWith(p)] *)
Definition endsWith (p s : str) : bool := startsWith (rev p) (rev s).

(** The loop of [getAllFiles] over the entries of [dir]. *)
Fixpoint allFilesOf (h : host) (dir : str) (entry : dirent) : list str :=
  let fullPath := path_join h [dir; match entry with File n | Dir n _ => n end] in
  match entry with
  | Dir _ (Some entries) => flat_map (allFilesOf h fullPath) entries
  | Dir _ None => []
  | File _ => [fullPath]
  end.

Definition getAllFiles (h : host) (dir : str) (listing : option (list dirent))
    : list str :=
  match listing with
  | Some entries => flat_map (allFilesOf h dir) entries
  | None => []
  end.

(** The loop of [getAllFilesExcludingDir]. *)
Fixpoint allFilesExcludingOf (h : host) (excludedDirName dir : str)
    (entry : dirent) : list str :=
  let fullPath := path_join h [dir; match entry with File n | Dir n _ => n end] in
  match entry with
  | Dir name listing =>
      if str_eqb name excludedDirName then [] else
      match listing with
      | Some entries =>
          flat_map (allFilesExcludingOf h excludedDirName fullPath) entries
      | None => []
      end
  | File _ => [fullPath]
  end.

Definition getAllFilesExcludingDir (h : host) (dir excludedDirName : str)
    (listing : option (list dirent)) : list str :=
  match listing with
  | Some entries => flat_map (allFilesExcludingOf h excludedDirName dir) entries
  | None => []
  end.

(** The loop of [getHtmlFiles]. *)
Fixpoint htmlFilesOf (h : host) (componentsDir dir base : str) (entry : dirent)
    : list str :=
  let name := match entry with File n | Dir n _ => n end in
  let relativePath := if truthy base then path_join h [base; name] else name in
  match entry with
  | Dir _ listing =>
      if negb (str_eqb name componentsDir) then
        match listing with
        | Some entries =>
            flat_map (htmlFilesOf h componentsDir (path_join h [dir; name])
                                  relativePath) entries
        | None => []
        end
      else []
  | File _ => if endsWith (js ".html") name then [relativePath] else []
  end.

Definition getHtmlFiles (h : host) (dir base componentsDir : str)
    (listing : option (list dirent)) : list str :=
  match listing with
  | Some entries => flat_map (htmlFilesOf h componentsDir dir base) entries
  | None => []
  end.

(** ** index.js: the development server *)

(** The extensions of [/\.(css|js|...)$/i]. *)
Definition assetExtensions : list str :=
  map js [ "css"; "js"; "png"; "jpg"; "jpeg"; "gif"; "svg"; "ico"; "woff";
           "woff2"; "ttf"; "eot"; "json" ]%string.

Definition endsWithLiteral (ignoreCase : bool) (p s : str) : bool :=
  match strip_literal ignoreCase (rev p) (rev s) with
  | Some _ => true
  | None => false
  end.

Definition isAssetRequest (url : str) : bool :=
  existsb (fun ext => endsWithLiteral true (js "." ++ ext) url) assetExtensions.

(** Lines 50-75: the page a request is answered from; [None] is [next()]. *)
Definition requestedPage (h : host) (srcRoot url : str) : option str :=
  if startsWith (js "/@") url || startsWith (js "/__") url then None
  else if isAssetRequest url then None
  else if str_eqb url (js "/") || str_eqb url (js "/index")
          || str_eqb url (js "/index.html")
  then Some (js "index.html")
  else if endsWith (js ".html") url then Some (tl url)
  else
    let potential := tl url ++ js ".html" in
    if fs_access h (path_join h [srcRoot; potential]) then Some potential
    else None.

Definition viteClient : str :=
  js "<script type=" ++ quoted (js "module") ++ js " src="
     ++ quoted (js "/@vite/client") ++ js "></script>".

(** Lines 88-93: the client script, before [</body>] or at the end. *)
Definition injectClient (html : str) : str :=
  if includes (js "</body>") html
  then replace_first (js "</body>") (viteClient ++ js "</body>") html
  else html ++ viteClient.

Inductive response :=
| Next
| Sent (html : str).

(** The middleware; [None] is a request whose compilation does not return.
    What the compilation throws is caught, and the request passed on. *)
Definition middleware (h : host) (depth : nat) (srcRoot projectRoot url : str)
    : option response :=
  match requestedPage h srcRoot url with
  | None => Some Next
  | Some page =>
      match fs_readFile h (path_join h [srcRoot; page]) with
      | None => Some Next
      | Some html =>
          match compileHtml h depth html srcRoot (Some projectRoot) with
          | None => None
          | Some TypeError => Some Next
          | Some (Ok html) =>
              Some (Sent (injectClient (cleanUnusedPlaceholders html)))
          end
      end
  end.

(** ** Predicates of the further properties *)

(** What [normalizePath] makes of one character. *)
Definition to_slash (c : ascii) : ascii :=
  if Ascii.eqb c "\"%char then "/"%char else c.

(** [s] is [t] with some characters left out. *)
Inductive subseq : str -> str -> Prop :=
| subseq_nil : subseq [] []
| subseq_keep (a : ascii) (s t : str) : subseq s t -> subseq (a :: s) (a :: t)
| subseq_drop (a : ascii) (s t : str) : subseq s t -> subseq s (a :: t).


(** The text [key="value"] of an attribute. *)
Definition renderAttr (e : str * str) : str :=
  fst e ++ js "=" ++ quoted (snd e).

(** The self-closing tag with some attributes, one space after each. *)
Definition renderTag (attrs : list (str * str)) : str :=
  js "<Component " ++ concat (map (fun e => renderAttr e ++ js " ") attrs)
     ++ js "/>".

(** An attribute whose name is made of the characters of [[\w-]+] and
    whose value can stand between quotes inside a tag. *)
Definition wellFormedAttr (e : str * str) : bool :=
  truthy (fst e) && forallb is_word_or_hyphen (fst e)
  && avoids [dq; ">"%char] (snd e).

(** The object built by assigning the attributes in order. *)
Definition assignAll (attrs : list (str * str)) : obj :=
  fold_left (fun o e => obj_set (fst e) (snd e) o) attrs [].

(** An attribute that an assignment makes a property: any but [__proto__]. *)
Definition assignable (e : str * str) : bool :=
  negb (str_eqb (fst e) (js "__proto__")).

(** The texts that remain after a non-empty part of [v] has been read. *)
Fixpoint proper_suffixes (v : str) : list str :=
  match v with
  | [] => []
  | _ :: v' => v' :: proper_suffixes v'
  end.

(** The rest of a regex matches nowhere at the head of [s]. *)
Definition xfails (i : bool) (r : list xnode) (s : str) : Prop :=
  forall (taken : str) (cs : list str), xrun i r taken cs s = None.

(** The tag [<link rel="stylesheet" href="...">]. *)
Definition stylesheetLink (href : str) : str :=
  js "<link rel=" ++ quoted (js "stylesheet") ++ js " href=" ++ quoted href
     ++ js ">".

(** The tag [<script src="..."></script>]. *)
Definition scriptElement (src : str) : str :=
  js "<script src=" ++ quoted src ++ js "></script>".

(** None of the texts [ps] occurs in [s]. *)
Definition lacks (ps : list str) (s : str) : bool :=
  forallb (fun p => negb (includes p s)) ps.

(** A listing without the directories named [excluded], at every depth. *)
Fixpoint prune (excluded : str) (entry : dirent) : list dirent :=
  match entry with
  | File name => [File name]
  | Dir name listing =>
      if str_eqb name excluded then []
      else [Dir name (option_map (flat_map (prune excluded)) listing)]
  end.

(** The text [name=classes] of a variant. *)
Definition renderPair (e : str * str) : str := fst e ++ "="%char :: snd e.

(** The directive [<!-- variants: n1=c1, n2=c2 -->]. *)
Definition renderVariants (variants : list (str * str)) : str :=
  js "<!-- variants: " ++ join (js ", ") (map renderPair variants) ++ js " -->".

(** A text that starts and ends with something else than white space, on
    one line, without comma and without [>]. *)
Definition tidy (s : str) : bool :=
  match s with [] => false | a :: _ => negb (is_space a) end
  && match rev s with [] => false | z :: _ => negb (is_space z) end
  && forallb is_dot s && avoids [","%char; ">"%char] s.

Definition wellFormedVariant (e : str * str) : bool :=
  tidy (fst e) && forallb (is_not "="%char) (fst e) && tidy (snd e).

(** The attributes of a child-bearing tag, one space before each. *)
Definition renderProps (props : list (str * str)) : str :=
  concat (map (fun e => js " " ++ renderAttr e) props).

(** The child-bearing form [<Component name="..." ...>children</Component>]. *)
Definition childTag (name : str) (props : list (str * str)) (children : str) : str :=
  js "<Component name=" ++ quoted name ++ renderProps props ++ js ">"
     ++ children ++ js "</Component>".

(** A prop the child-bearing form reads back: its name is made of the
    characters of [\w+]. *)
Definition wellFormedProp (e : str * str) : bool :=
  truthy (fst e) && forallb is_word (fst e) && avoids [dq; ">"%char] (snd e).

(** The text between [{{] and [}}] is a name of word characters, with or
    without white space around it: it matches [\s*\w+\s*]. *)
Definition named (inner : str) : bool :=
  truthy (trim inner) && forallb is_word (trim inner).

(** ** Pages made of text and component references

    A page as a sequence of pieces: text, self-closing tags without [src],
    self-closing references and child-bearing references. *)

Inductive piece :=
| Text (t : str)
| Skipped (attrs : list (str * str))
| Reference (name : str) (props : list (str * str))
| Element (name : str) (props : list (str * str)) (children : str).

(** How a piece is written in a page. *)
Definition source (p : piece) : str :=
  match p with
  | Text t => t
  | Skipped attrs => renderTag attrs
  | Reference name props => renderTag ((js "src", name) :: props)
  | Element name props children => childTag name props children
  end.

Definition page (pieces : list piece) : str := concat (map source pieces).

(** A text in which [<C] does not occur and that does not end with [<]:
    no component tag starts in it, whatever follows it. *)
Definition plain (t : str) : bool := negb (includes (js "<C") (t ++ js "C")).

(** An attribute named [k] is among [attrs]. *)
Definition mentions (k : str) (attrs : list (str * str)) : bool :=
  existsb (fun e => str_eqb k (fst e)) attrs.

(** The values of the attributes have no [<]. *)
Definition closed (attrs : list (str * str)) : bool :=
  forallb (fun e => forallb (is_not "<"%char) (snd e)) attrs.

Definition wellFormedPiece (p : piece) : bool :=
  match p with
  | Text t => plain t
  | Skipped attrs =>
      forallb wellFormedAttr attrs && closed attrs
      && negb (mentions (js "src") attrs) && negb (mentions (js "name") attrs)
  | Reference name props =>
      truthy name && forallb wellFormedAttr ((js "src", name) :: props)
      && closed ((js "src", name) :: props) && negb (mentions (js "src") props)
  | Element name props children =>
      truthy name && forallb (is_not dq) name && forallb wellFormedProp props
      && negb (includes (js "</C") children)
  end.

(** What the specification puts in the place of a piece: a reference gives
    way to the marker, or to the markup of its component, bound and
    compiled in turn; text and a tag without [src] stay. *)
Definition expansion (h : host) (compile : compiler) (root projectRoot : str)
    (p : piece) : option result :=
  match p with
  | Text t => Some (Ok t)
  | Skipped attrs => Some (Ok (renderTag attrs))
  | Reference name props =>
      let attrs := assignAll ((js "src", name) :: props) in
      match loadComponent h name root projectRoot attrs with
      | None => Some (Ok (notFound name))
      | Some markup =>
          match bindSelfClosing markup attrs with
          | Ok bound => compile bound root (Some projectRoot)
          | TypeError => Some TypeError
          end
      end
  | Element name props children =>
      let attrs := assignAll props in
      match loadComponent h name root projectRoot attrs with
      | None => Some (Ok (notFound name))
      | Some markup =>
          compile (bindChildren markup (trim children) attrs) root
                  (Some projectRoot)
      end
  end.

(** A text that can be spliced as it is: plain, and without dollar. *)
Definition spliceable (out : str) : bool := plain out && avoids ["$"%char] out.

(** [out] is the expansion of [p], and can be spliced when [p] is a
    reference. *)
Definition expanded (h : host) (compile : compiler) (root projectRoot : str)
    (p : piece) (out : str) : Prop :=
  expansion h compile root projectRoot p = Some (Ok out)
  /\ match p with
     | Text _ | Skipped _ => True
     | Reference _ _ | Element _ _ _ => spliceable out = true
     end.


(** How a pass sees a part of its subject: a text its regex matches
    nowhere in; a match it leaves as it is; a match it replaces. *)
Inductive kind :=
| Quiet
| Kept (cs : list str)
| Replaced (cs : list str) (replacement : str).

Definition item := (str * kind)%type.

Definition out_of (it : item) : str :=
  match snd it with
  | Replaced _ replacement => replacement
  | _ => fst it
  end.

(** The matches of a pass over the items. *)
Fixpoint matches_of (items : list item) : list match_result :=
  match items with
  | [] => []
  | (x, Quiet) :: others => matches_of others
  | (x, Kept cs) :: others | (x, Replaced cs _) :: others =>
      MkMatch x cs (concat (map fst others)) :: matches_of others
  end.

(** The regex matches nowhere in [x], whatever follows it. *)
Definition quiet (r : regex) (x : str) : Prop :=
  forall y : str, scan r 0 (x ++ y) = scan r 0 y.

(** The regex matches [x], whatever follows it. *)
Definition hit (r : regex) (x : str) (cs : list str) : Prop :=
  x <> [] /\ forall y : str, exec_at r (x ++ y) = Some (MkMatch x cs y).

(** [u] does not occur at a place of [z], whatever follows it. *)
Definition apart (u z : str) : Prop :=
  forall t before y : str,
    replace_first_from u t before (z ++ y) =
    replace_first_from u t (before ++ z) y.

Definition item_ok (r : regex)
    (step : option result -> match_result -> option result)
    (outs : list str) (it : item) : Prop :=
  match snd it with
  | Quiet => quiet r (fst it)
  | Kept cs =>
      hit r (fst it) cs
      /\ forall res y, step (Some (Ok res)) (MkMatch (fst it) cs y) = Some (Ok res)
  | Replaced cs replacement =>
      hit r (fst it) cs
      /\ (forall res y, step (Some (Ok res)) (MkMatch (fst it) cs y)
                        = Some (Ok (replace_first (fst it) replacement res)))
      /\ avoids ["$"%char] replacement = true
      /\ Forall (apart (fst it)) outs
  end.

(** The first pass on a piece and its expansion; the second pass on what
    the first one made of it. *)
Definition firstPass (x : piece * str) : item :=
  match fst x with
  | Element name props children =>
      (source (fst x), Replaced [name; renderProps props; children] (snd x))
  | p => (source p, Quiet)
  end.

Definition secondPass (x : piece * str) : item :=
  match fst x with
  | Text t => (t, Quiet)
  | Skipped attrs => (renderTag attrs, Kept [])
  | Reference name props => (source (fst x), Replaced [] (snd x))
  | Element _ _ _ => (snd x, Quiet)
  end.

(** The first attribute is named [k]. *)
Definition leads (k : str) (attrs : list (str * str)) : bool :=
  match attrs with
  | e :: _ => str_eqb k (fst e)
  | [] => false
  end.

(** A piece with its expansion, both as they should be. *)
Definition part_ok (h : host) (compile : compiler) (root projectRoot : str)
    (x : piece * str) : Prop :=
  wellFormedPiece (fst x) = true
  /\ expanded h compile root projectRoot (fst x) (snd x).









(** A project whose components are beside its source directory, not in
    it: [/work/site/components], with the pages in [/work/site/src]. *)
Definition site : host :=
  mem_host [ (js "/work/site/components/Card.html", js "<b>card</b>") ] [].

(** * Properties *)

#[local] Arguments Ascii.eqb : simpl never.

(** ** Characters and prefixes *)

Ltac ascii_cases a :=
  destruct a as [[|] [|] [|] [|] [|] [|] [|] [|]]; vm_compute;
  intros; repeat split; congruence.

Lemma str_eqb_refl (a : str) : str_eqb a a = true.
Proof.
  induction a as [|x a IH]; simpl; [reflexivity|].
  now rewrite Ascii.eqb_refl, IH.
Qed.

Lemma str_eqb_eq (a b : str) : str_eqb a b = true <-> a = b.
Proof.
  split; [|intros ->; apply str_eqb_refl].
  revert b; induction a as [|x a IH]; intros [|y b]; simpl; try discriminate; auto.
  intros H. apply andb_true_iff in H as [Hx Hab].
  apply Ascii.eqb_eq in Hx. f_equal; auto.
Qed.


Lemma strip_prefix_app (p s : str) : strip_prefix p (p ++ s) = Some s.
Proof.
  induction p as [|x p IH]; simpl; [reflexivity|].
  now rewrite Ascii.eqb_refl.
Qed.

Lemma strip_prefix_Some (p s r : str) : strip_prefix p s = Some r -> s = p ++ r.
Proof.
  revert s; induction p as [|x p IH]; intros s; simpl.
  - congruence.
  - destruct s as [|y s]; [discriminate|].
    destruct (Ascii.eqb_spec x y) as [->|]; [|discriminate].
    intros H. f_equal. now apply IH.
Qed.

Lemma strip_prefix_head (x a : ascii) (p s : str) :
  Ascii.eqb a x = false -> strip_prefix (x :: p) (a :: s) = None.
Proof.
  intros H. simpl. rewrite eqb_sym. now rewrite H.
Qed.

Lemma avoids_app (banned : list ascii) (a b : str) :
  avoids banned (a ++ b) = avoids banned a && avoids banned b.
Proof. apply forallb_app. Qed.

Lemma avoids_cons (banned : list ascii) (a : ascii) (s : str) :
  avoids banned (a :: s) = negb (existsb (Ascii.eqb a) banned) && avoids banned s.
Proof. reflexivity. Qed.

Lemma avoids_weaken (big small : list ascii) (s : str) :
  (forall a, existsb (Ascii.eqb a) small = true -> existsb (Ascii.eqb a) big = true) ->
  avoids big s = true -> avoids small s = true.
Proof.
  intros Hsub. unfold avoids. rewrite !forallb_forall.
  intros H a Ha. specialize (H a Ha).
  destruct (existsb (Ascii.eqb a) small) eqn:E; [|reflexivity].
  now rewrite (Hsub a E) in H.
Qed.

Lemma avoids_incl (big small : list ascii) (s : str) :
  incl small big -> avoids big s = true -> avoids small s = true.
Proof.
  intros Hsub. apply avoids_weaken. intros a Ha.
  apply existsb_exists in Ha as [c [Hc E]].
  apply existsb_exists. exists c. auto.
Qed.

(** ** GetSubstitution and replace *)

Lemma getSubstitution_plain (matched before after t : str) :
  avoids ["$"%char] t = true -> getSubstitution matched before after t = t.
Proof.
  induction t as [|a t IH]; [reflexivity|].
  rewrite avoids_cons. simpl existsb. rewrite orb_false_r.
  intros H. apply andb_true_iff in H as [Ha Ht].
  simpl. apply negb_true_iff in Ha. rewrite Ha. now rewrite IH.
Qed.

Lemma replace_first_from_skip (c : ascii) (p replacement before pre s : str) :
  forallb (is_not c) pre = true ->
  replace_first_from (c :: p) replacement before (pre ++ s) =
  replace_first_from (c :: p) replacement (before ++ pre) s.
Proof.
  revert before. induction pre as [|a pre IH]; intros before H.
  - now rewrite app_nil_r.
  - simpl in H. apply andb_true_iff in H as [Ha Hpre].
    unfold is_not in Ha. apply negb_true_iff in Ha.
    change ((a :: pre) ++ s) with (a :: (pre ++ s)).
    unfold replace_first_from at 1; fold replace_first_from.
    rewrite (strip_prefix_head c a p (pre ++ s) Ha).
    rewrite IH by assumption. now rewrite <- app_assoc.
Qed.

Lemma replace_first_from_hit (p replacement before after : str) :
  replace_first_from p replacement before (p ++ after) =
  before ++ getSubstitution p before after replacement ++ after.
Proof.
  destruct p as [|x p].
  - destruct after; reflexivity.
  - change ((x :: p) ++ after) with (x :: (p ++ after)).
    unfold replace_first_from; fold replace_first_from.
    change (x :: p ++ after) with ((x :: p) ++ after).
    now rewrite strip_prefix_app.
Qed.

(** ** Scanning *)

Lemma exec_at_head (c a : ascii) (l : str) (r : regex) (s : str) :
  Ascii.eqb a c = false -> exec_at (Lit (c :: l) :: r) (a :: s) = None.
Proof.
  intros H. unfold exec_at. simpl. rewrite eqb_sym. now rewrite H.
Qed.

Lemma scan_miss (r : regex) (a : ascii) (s : str) :
  exec_at r (a :: s) = None -> scan r 0 (a :: s) = scan r 0 s.
Proof. intros H. simpl. now rewrite H. Qed.

Lemma scan_skip (r : regex) (u s : str) :
  scan r (length u) (u ++ s) = scan r 0 s.
Proof. induction u as [|a u IH]; [now destruct s|exact IH]. Qed.

Lemma scan_hit (r : regex) (a : ascii) (s : str) (m : match_result) (w : str) :
  exec_at r (a :: s) = Some m -> m0 m = a :: w ->
  scan r 0 (a :: s) = m :: scan r (length w) s.
Proof. intros H Hw. simpl. rewrite H, Hw. reflexivity. Qed.

Lemma scan_past (c : ascii) (l : str) (r : regex) (pre s : str) :
  forallb (is_not c) pre = true ->
  scan (Lit (c :: l) :: r) 0 (pre ++ s) = scan (Lit (c :: l) :: r) 0 s.
Proof.
  induction pre as [|a pre IH]; intros H; [reflexivity|].
  simpl in H. apply andb_true_iff in H as [Ha Hpre].
  unfold is_not in Ha. apply negb_true_iff in Ha.
  change ((a :: pre) ++ s) with (a :: (pre ++ s)).
  rewrite scan_miss by (now apply exec_at_head). auto.
Qed.

Lemma replace_scan_miss (r : regex) (t before : str) (a : ascii) (s : str) :
  exec_at r (a :: s) = None ->
  replace_scan r t 0 before (a :: s) = a :: replace_scan r t 0 (before ++ [a]) s.
Proof. intros H. simpl. now rewrite H. Qed.

Lemma replace_scan_skip (r : regex) (t before u s : str) :
  replace_scan r t (length u) before (u ++ s) = replace_scan r t 0 (before ++ u) s.
Proof.
  revert before. induction u as [|a u IH]; intros before.
  - now rewrite app_nil_r.
  - simpl length. change ((a :: u) ++ s) with (a :: (u ++ s)).
    unfold replace_scan at 1; fold replace_scan.
    rewrite IH. now rewrite <- app_assoc.
Qed.

Lemma replace_scan_hit (r : regex) (t before : str) (a : ascii) (s u : str)
    (m : match_result) :
  exec_at r (a :: u ++ s) = Some m -> m0 m = a :: u -> rest m = s ->
  replace_scan r t 0 before (a :: u ++ s) =
  getSubstitution (a :: u) before s t ++ replace_scan r t 0 (before ++ a :: u) s.
Proof.
  intros H Hm Hr. unfold replace_scan at 1; fold replace_scan.
  rewrite H, Hm, Hr. f_equal.
  rewrite replace_scan_skip. f_equal. now rewrite <- app_assoc.
Qed.

Lemma replace_scan_past (c : ascii) (l : str) (r : regex) (t before pre s : str) :
  forallb (is_not c) pre = true ->
  replace_scan (Lit (c :: l) :: r) t 0 before (pre ++ s) =
  pre ++ replace_scan (Lit (c :: l) :: r) t 0 (before ++ pre) s.
Proof.
  revert before. induction pre as [|a pre IH]; intros before H.
  - now rewrite app_nil_r.
  - simpl in H. apply andb_true_iff in H as [Ha Hpre].
    unfold is_not in Ha. apply negb_true_iff in Ha.
    change ((a :: pre) ++ s) with (a :: (pre ++ s)).
    rewrite replace_scan_miss by (now apply exec_at_head).
    rewrite IH by assumption. now rewrite <- app_assoc.
Qed.

(** ** Quantifiers *)

Section Rep.
Context {R : Type}.
Variable cls : ascii -> bool.
Variable k : str -> str -> option R.

Lemma rep_greedy_stops (min : nat) (taken s : str) :
  stops cls s = true ->
  rep_greedy cls min taken s k =
  match min with 0 => k taken s | S _ => None end.
Proof.
  destruct s as [|a s]; simpl; [reflexivity|].
  intros H. apply negb_true_iff in H. now rewrite H.
Qed.

(** The greedy run takes every character of the class when the
    continuation accepts what follows. *)
Lemma rep_greedy_all (u : str) : forall (min : nat) (taken s : str) (r : R),
  forallb cls u = true -> stops cls s = true -> min <= length u ->
  k (taken ++ u) s = Some r ->
  rep_greedy cls min taken (u ++ s) k = Some r.
Proof.
  induction u as [|a u IH]; intros min taken s r Hu Hs Hmin Hk.
  - simpl in Hmin. assert (min = 0) by lia. subst min.
    rewrite app_nil_r in Hk. simpl app. now rewrite rep_greedy_stops.
  - simpl in Hu. apply andb_true_iff in Hu as [Ha Hu].
    change ((a :: u) ++ s) with (a :: (u ++ s)).
    unfold rep_greedy; fold (@rep_greedy R). rewrite Ha.
    rewrite (IH (pred min) (taken ++ [a]) s r); auto.
    + simpl in Hmin. lia.
    + now rewrite <- app_assoc.
Qed.

(** It gives back its last character when the continuation needs it. *)
Lemma rep_greedy_back (u : str) : forall (min : nat) (taken : str)
    (c : ascii) (s : str) (r : R),
  forallb cls u = true -> cls c = true -> stops cls s = true ->
  min <= length u ->
  k (taken ++ u ++ [c]) s = None ->
  k (taken ++ u) (c :: s) = Some r ->
  rep_greedy cls min taken (u ++ c :: s) k = Some r.
Proof.
  induction u as [|a u IH]; intros min taken c s r Hu Hc Hs Hmin Hnone Hk.
  - simpl in Hmin. assert (min = 0) by lia. subst min.
    rewrite app_nil_r in Hk. simpl app in *.
    unfold rep_greedy; fold (@rep_greedy R). rewrite Hc.
    rewrite rep_greedy_stops by assumption. simpl. now rewrite Hnone.
  - simpl in Hu. apply andb_true_iff in Hu as [Ha Hu].
    change ((a :: u) ++ c :: s) with (a :: (u ++ c :: s)).
    unfold rep_greedy; fold (@rep_greedy R). rewrite Ha.
    rewrite (IH (pred min) (taken ++ [a]) c s r); auto.
    + simpl in Hmin. lia.
    + now rewrite <- app_assoc.
    + now rewrite <- app_assoc.
Qed.

(** It fails when the continuation fails after every run it can take. *)
Lemma rep_greedy_none (s : str) : forall (min : nat) (taken : str),
  (forall u s', s = u ++ s' -> forallb cls u = true -> min <= length u ->
                k (taken ++ u) s' = None) ->
  rep_greedy cls min taken s k = None.
Proof.
  induction s as [|a s IH]; intros min taken H.
  - simpl. destruct min; [|reflexivity].
    rewrite <- (app_nil_r taken). apply (H [] []); simpl; auto.
  - assert (Hstop : match min with 0 => k taken (a :: s) | S _ => None end = None).
    { destruct min; [|reflexivity].
      rewrite <- (app_nil_r taken). apply (H [] (a :: s)); simpl; auto. }
    unfold rep_greedy; fold (@rep_greedy R).
    destruct (cls a) eqn:Ha; [|exact Hstop].
    rewrite IH; [exact Hstop|].
    intros u s' E Hu Hmin. rewrite <- app_assoc.
    apply (H (a :: u) s').
    + simpl. now rewrite E.
    + simpl. now rewrite Ha.
    + simpl. lia.
Qed.
End Rep.

Lemma run_lit (l : str) (r : regex) (taken : str) (cs : list str) (s : str) :
  run (Lit l :: r) taken cs (l ++ s) = run r (taken ++ l) cs s.
Proof. simpl. now rewrite strip_prefix_app. Qed.

Lemma run_rep_all (capture : bool) (min : nat) (cls : ascii -> bool)
    (r : regex) (taken : str) (cs : list str) (u s : str) (m : match_result) :
  forallb cls u = true -> stops cls s = true -> min <= length u ->
  run r (taken ++ u) (if capture then cs ++ [u] else cs) s = Some m ->
  run (Rep capture true min cls :: r) taken cs (u ++ s) = Some m.
Proof.
  intros Hu Hs Hmin Hk. simpl.
  apply rep_greedy_all; auto.
Qed.

Lemma run_rep_back (capture : bool) (min : nat) (cls : ascii -> bool)
    (r : regex) (taken : str) (cs : list str) (u : str) (c : ascii) (s : str)
    (m : match_result) :
  forallb cls u = true -> cls c = true -> stops cls s = true ->
  min <= length u ->
  run r (taken ++ u ++ [c]) (if capture then cs ++ [u ++ [c]] else cs) s = None ->
  run r (taken ++ u) (if capture then cs ++ [u] else cs) (c :: s) = Some m ->
  run (Rep capture true min cls :: r) taken cs (u ++ c :: s) = Some m.
Proof.
  intros Hu Hc Hs Hmin Hnone Hk. simpl.
  apply rep_greedy_back; auto.
Qed.

Lemma run_rep_none (capture : bool) (min : nat) (cls : ascii -> bool)
    (r : regex) (taken : str) (cs : list str) (s : str) :
  (forall u s', s = u ++ s' -> forallb cls u = true -> min <= length u ->
     run r (taken ++ u) (if capture then cs ++ [u] else cs) s' = None) ->
  run (Rep capture true min cls :: r) taken cs s = None.
Proof.
  intros H. simpl. apply rep_greedy_none.
  intros u s' E Hu Hmin. simpl. now apply H.
Qed.

(** A run of a class inside [p ++ c :: t] ends within [p] when [c] is not
    of the class. *)
Lemma run_within (P : ascii -> bool) (x : str) : forall (y p : str) (c : ascii) (t : str),
  x ++ y = p ++ c :: t -> forallb P x = true -> P c = false ->
  exists p', p = x ++ p' /\ y = p' ++ c :: t.
Proof.
  induction x as [|a x IH]; intros y p c t E Hx Hc.
  - exists p. split; [reflexivity|exact E].
  - simpl in Hx. apply andb_true_iff in Hx as [Ha Hx].
    destruct p as [|b p]; simpl in E.
    + injection E as -> _. congruence.
    + injection E as -> E. destruct (IH y p c t E Hx Hc) as [p' [-> ->]].
      exists p'. split; reflexivity.
Qed.

(** ** Character classes *)

Lemma space_not_word (a : ascii) : is_space a = true -> is_word a = false.
Proof. ascii_cases a. Qed.

Lemma word_not_space (a : ascii) : is_word a = true -> is_space a = false.
Proof. ascii_cases a. Qed.

Lemma space_not_brace (a : ascii) :
  is_space a = true -> is_not "{"%char a = true /\ is_not "}"%char a = true.
Proof. ascii_cases a. Qed.

Lemma name_char_not_brace (a : ascii) :
  is_word_or_hyphen a = true ->
  is_not "{"%char a = true /\ is_not "}"%char a = true.
Proof. ascii_cases a. Qed.

Lemma name_char_hyphen (a : ascii) :
  is_word_or_hyphen a = true -> is_word a = false -> a = "-"%char.
Proof. ascii_cases a. Qed.

Lemma forallb_impl (P Q : ascii -> bool) (s : str) :
  (forall a, P a = true -> Q a = true) ->
  forallb P s = true -> forallb Q s = true.
Proof.
  intros H. rewrite !forallb_forall. auto.
Qed.

(** A name of word characters and hyphens that is not a word has a first
    hyphen. *)
Lemma first_hyphen (name : str) :
  forallb is_word_or_hyphen name = true -> forallb is_word name = false ->
  exists n1 n2, name = n1 ++ "-"%char :: n2 /\ forallb is_word n1 = true.
Proof.
  induction name as [|a name IH]; simpl; [discriminate|].
  intros H Hw. apply andb_true_iff in H as [Ha Hn].
  destruct (is_word a) eqn:Ea.
  - simpl in Hw. destruct (IH Hn Hw) as [n1 [n2 [-> H1]]].
    exists (a :: n1), n2. simpl. now rewrite Ea, H1.
  - exists [], name. rewrite (name_char_hyphen a Ha Ea). now split.
Qed.

(** ** The placeholder regex *)

Lemma replace_scan_before (r : regex) (t : str) :
  avoids ["$"%char] t = true ->
  forall (s : str) (n : nat) (b1 b2 : str),
    replace_scan r t n b1 s = replace_scan r t n b2 s.
Proof.
  intros Ht. induction s as [|a s IH]; intros n b1 b2.
  - destruct n; simpl; [|reflexivity].
    destruct (exec_at r []); [|reflexivity].
    now rewrite !getSubstitution_plain.
  - destruct n; simpl.
    + destruct (exec_at r (a :: s)) as [m|].
      * rewrite !getSubstitution_plain by assumption. f_equal.
        destruct (m0 m); [f_equal|]; apply IH.
      * f_equal. apply IH.
    + apply IH.
Qed.

(** [{{ name }}] with a name of word characters is matched whole. *)
Lemma exec_placeholder_word (w1 name w2 post : str) :
  forallb is_space w1 = true -> forallb is_space w2 = true ->
  name <> [] -> forallb is_word name = true ->
  exec_at anyPlaceholderRegex (placeholder w1 name w2 ++ post) =
  Some (MkMatch (placeholder w1 name w2) [] post).
Proof.
  intros H1 H2 Hne Hn. unfold placeholder, exec_at, anyPlaceholderRegex.
  rewrite <- !app_assoc. rewrite run_lit.
  apply run_rep_all; auto; [|lia|].
  { destruct name as [|a name]; [congruence|]. simpl in *.
    apply andb_true_iff in Hn as [Ha _]. now rewrite (word_not_space a Ha). }
  apply run_rep_all; auto.
  { destruct w2 as [|a w2]; [reflexivity|]. simpl in *.
    apply andb_true_iff in H2 as [Ha _]. now rewrite (space_not_word a Ha). }
  { destruct name; [congruence|simpl; lia]. }
  apply run_rep_all; auto; [lia|].
  rewrite run_lit. simpl. now rewrite <- !app_assoc.
Qed.

(** No match starts at [{{] when, before any [}], a character follows that
    is neither white space nor a word character. *)
Lemma exec_placeholder_other (p : str) (c : ascii) (t : str) :
  forallb (is_not "}"%char) p = true ->
  is_space c = false -> is_word c = false -> is_not "}"%char c = true ->
  exec_at anyPlaceholderRegex (js "{{" ++ p ++ c :: t) = None.
Proof.
  intros Hp Hs Hw Hc. unfold exec_at, anyPlaceholderRegex.
  rewrite run_lit.
  apply run_rep_none. intros u1 s1 E1 Hu1 _.
  apply run_rep_none. intros u2 s2 E2 Hu2 _.
  apply run_rep_none. intros u3 s3 E3 Hu3 _.
  subst s1 s2. rewrite !app_assoc in E1. symmetry in E1.
  destruct (run_within (fun a => is_space a || is_word a)
              ((u1 ++ u2) ++ u3) s3 p c t E1) as [p' [-> ->]].
  - rewrite !forallb_app.
    rewrite (forallb_impl is_space _ u1), (forallb_impl is_word _ u2),
            (forallb_impl is_space _ u3); auto;
      intros a Ha; rewrite Ha; auto using orb_true_r.
  - now rewrite Hs, Hw.
  - rewrite forallb_app in Hp. apply andb_true_iff in Hp as [_ Hp'].
    destruct p' as [|b p']; simpl.
    + unfold is_not in Hc. apply negb_true_iff in Hc.
      rewrite eqb_sym. now rewrite Hc.
    + simpl in Hp'. apply andb_true_iff in Hp' as [Hb _].
      unfold is_not in Hb. apply negb_true_iff in Hb.
      rewrite eqb_sym. now rewrite Hb.
Qed.

Lemma exec_second_brace (r : regex) (y post : str) :
  forallb (is_not "{"%char) y = true -> y <> [] ->
  exec_at (Lit (js "{{") :: r) ("{"%char :: y ++ post) = None.
Proof.
  intros Hy Hne. destruct y as [|a y]; [congruence|].
  simpl in Hy. apply andb_true_iff in Hy as [Ha _].
  unfold is_not in Ha. apply negb_true_iff in Ha.
  unfold exec_at. simpl. rewrite eqb_sym. now rewrite Ha.
Qed.

(** After text without brace, the cleanup removes the placeholder whose
    name is a word and keeps the one whose name has a hyphen. *)
Lemma cleanup_after_plain_text :
  forall pre w1 name w2 post : str,
    forallb (is_not "{"%char) pre = true ->
    forallb is_space w1 = true -> forallb is_space w2 = true ->
    name <> [] -> forallb is_word_or_hyphen name = true ->
    cleanUnusedPlaceholders (pre ++ placeholder w1 name w2 ++ post) =
    if forallb is_word name
    then pre ++ cleanUnusedPlaceholders post
    else pre ++ placeholder w1 name w2 ++ cleanUnusedPlaceholders post.
Proof.
  intros pre w1 name w2 post Hpre H1 H2 Hne Hname.
  unfold cleanUnusedPlaceholders, replaceAll.
  unfold anyPlaceholderRegex at 1. change (js "{{") with ["{"%char; "{"%char].
  rewrite replace_scan_past by assumption.
  change (Lit ["{"%char; "{"%char] :: _) with anyPlaceholderRegex.
  destruct (forallb is_word name) eqn:Hw; f_equal.
  - pose proof (exec_placeholder_word w1 name w2 post H1 H2 Hne Hw) as E.
    remember (placeholder w1 name w2) as ph eqn:Eph.
    assert (Hph : exists u, ph = "{"%char :: u).
    { subst ph. unfold placeholder. simpl. eauto. }
    destruct Hph as [u ->].
    change (("{"%char :: u) ++ post) with ("{"%char :: u ++ post) in *.
    rewrite (replace_scan_hit _ _ _ _ _ _ _ E eq_refl eq_refl).
    simpl. apply replace_scan_before. reflexivity.
  - destruct (first_hyphen name Hname Hw) as [n1 [n2 [-> Hn1]]].
    assert (Hbody : forallb (is_not "{"%char) (w1 ++ (n1 ++ "-"%char :: n2) ++ w2 ++ js "}}") = true).
    { rewrite !forallb_app. rewrite forallb_app in Hname.
      rewrite (forallb_impl is_space _ w1), (forallb_impl is_space _ w2); auto;
        try (intros a Ha; now apply space_not_brace).
      apply andb_true_iff in Hname as [Hn1' Hn2'].
      rewrite (forallb_impl is_word_or_hyphen (is_not "{"%char) n1); auto;
        try (intros a Ha; now apply name_char_not_brace).
      rewrite (forallb_impl is_word_or_hyphen (is_not "{"%char) ("-"%char :: n2)); auto.
      intros a Ha; now apply name_char_not_brace. }
    unfold placeholder.
    change (js "{{" ++ ?x) with ("{"%char :: "{"%char :: x).
    change (("{"%char :: "{"%char :: ?x) ++ post) with ("{"%char :: "{"%char :: x ++ post).
    rewrite replace_scan_miss.
    2:{ change ("{"%char :: "{"%char :: ?x) with (js "{{" ++ x).
        rewrite <- !app_assoc. rewrite (app_assoc w1 n1).
        change (("-"%char :: n2) ++ ?x) with ("-"%char :: n2 ++ x).
        apply exec_placeholder_other; try reflexivity.
        rewrite forallb_app.
        rewrite (forallb_impl is_space _ w1), (forallb_impl is_word (is_not "}"%char) n1); auto.
        - intros a Ha. apply name_char_not_brace. unfold is_word_or_hyphen. now rewrite Ha.
        - intros a Ha. now apply space_not_brace. }
    rewrite replace_scan_miss.
    2:{ apply exec_second_brace; [assumption|].
        intros E. apply (f_equal (@length ascii)) in E.
        rewrite !length_app in E. simpl in E. lia. }
    cbn [app]. do 2 f_equal.
    change anyPlaceholderRegex with (Lit ("{"%char :: ["{"%char]) :: tl anyPlaceholderRegex).
    rewrite replace_scan_past by assumption. f_equal.
    apply replace_scan_before. reflexivity.
Qed.

(** ** Matches that end before a terminator *)

Lemma strip_prefix_local (l : str) : forall (y s : str),
  forallb (fun x => negb (starts_with x s)) l = true ->
  strip_prefix l (y ++ s) = option_map (fun r => r ++ s) (strip_prefix l y).
Proof.
  induction l as [|x l IH]; intros y s H; [reflexivity|].
  simpl in H. apply andb_true_iff in H as [Hx Hl].
  destruct y as [|a y]; cbn [app strip_prefix].
  - destruct s as [|c s]; [reflexivity|]. cbn [starts_with] in Hx.
    apply negb_true_iff in Hx. rewrite eqb_sym. now rewrite Hx.
  - destruct (Ascii.eqb x a); [now apply IH|reflexivity].
Qed.

Lemma rep_greedy_local (cls : ascii -> bool) (k k' : str -> str -> option match_result)
    (s : str) :
  stops cls s = true ->
  (forall t y, k t (y ++ s) = extend s (k' t y)) ->
  forall (x : str) (min : nat) (taken : str),
    rep_greedy cls min taken (x ++ s) k = extend s (rep_greedy cls min taken x k').
Proof.
  intros Hs Hk. induction x as [|a x IH]; intros min taken.
  - cbn [app]. rewrite rep_greedy_stops by assumption.
    cbn [rep_greedy]. destruct min; [apply (Hk taken [])|reflexivity].
  - change ((a :: x) ++ s) with (a :: (x ++ s)).
    unfold rep_greedy; fold (@rep_greedy match_result).
    assert (Hstop : match min with 0 => k taken (a :: x ++ s) | S _ => None end =
                    extend s (match min with 0 => k' taken (a :: x) | S _ => None end)).
    { destruct min; [apply (Hk taken (a :: x))|reflexivity]. }
    destruct (cls a); [|exact Hstop].
    rewrite IH.
    destruct (rep_greedy cls (pred min) (taken ++ [a]) x k'); [reflexivity|exact Hstop].
Qed.

Lemma run_local (r : regex) : forall (s : str),
  Forall (fun n => match n with
                   | Lit l => forallb (fun x => negb (starts_with x s)) l = true
                   | Rep _ greedy _ cls => greedy = true /\ stops cls s = true
                   end) r ->
  forall (y taken : str) (cs : list str),
    run r taken cs (y ++ s) = extend s (run r taken cs y).
Proof.
  induction r as [|n r IH]; intros s H y taken cs; [reflexivity|].
  inversion H as [|n' r' Hn Hr]; subst.
  destruct n as [l|capture greedy min cls]; cbn [run].
  - rewrite strip_prefix_local by assumption.
    destruct (strip_prefix l y); [now apply IH|reflexivity].
  - destruct Hn as [-> Hs]. unfold rep.
    apply rep_greedy_local; [assumption|].
    intros t y'. now apply IH.
Qed.

(** ** What a match consumes *)

Lemma rep_greedy_sound {R} (cls : ascii -> bool) (k : str -> str -> option R)
    (s : str) : forall (min : nat) (taken : str) (r : R),
  rep_greedy cls min taken s k = Some r ->
  exists u s', s = u ++ s' /\ k (taken ++ u) s' = Some r.
Proof.
  induction s as [|a s IH]; intros min taken r H.
  - cbn [rep_greedy] in H. destruct min; [|discriminate].
    exists [], []. split; [reflexivity|]. now rewrite app_nil_r.
  - unfold rep_greedy in H; fold (@rep_greedy R) in H.
    assert (Hstop : match min with 0 => k taken (a :: s) | S _ => None end = Some r ->
                    exists u s', a :: s = u ++ s' /\ k (taken ++ u) s' = Some r).
    { destruct min; [|discriminate]. intros Hk.
      exists [], (a :: s). split; [reflexivity|]. now rewrite app_nil_r. }
    destruct (cls a); [|now apply Hstop].
    destruct (rep_greedy cls (pred min) (taken ++ [a]) s k) as [r'|] eqn:E;
      [|now apply Hstop].
    injection H as ->. destruct (IH _ _ _ E) as [u [s' [-> Hk]]].
    exists (a :: u), s'. split; [reflexivity|]. now rewrite <- app_assoc in Hk.
Qed.

Lemma rep_lazy_sound {R} (cls : ascii -> bool) (k : str -> str -> option R)
    (s : str) : forall (min : nat) (taken : str) (r : R),
  rep_lazy cls min taken s k = Some r ->
  exists u s', s = u ++ s' /\ k (taken ++ u) s' = Some r.
Proof.
  induction s as [|a s IH]; intros min taken r H.
  - cbn [rep_lazy] in H. destruct min.
    + destruct (k taken []) eqn:E; [|discriminate]. injection H as ->.
      exists [], []. split; [reflexivity|]. now rewrite app_nil_r.
    + discriminate.
  - unfold rep_lazy in H; fold (@rep_lazy R) in H.
    destruct (match min with 0 => k taken (a :: s) | S _ => None end) as [r'|] eqn:E.
    + injection H as ->. destruct min; [|discriminate].
      exists [], (a :: s). split; [reflexivity|]. now rewrite app_nil_r.
    + destruct (cls a); [|discriminate].
      destruct (IH _ _ _ H) as [u [s' [-> Hk]]].
      exists (a :: u), s'. split; [reflexivity|]. now rewrite <- app_assoc in Hk.
Qed.

(** A match is a prefix of the subject, and [rest] what is left of it. *)
Lemma run_sound (r : regex) : forall (taken : str) (cs : list str) (s : str)
    (m : match_result),
  run r taken cs s = Some m -> exists u, m0 m = taken ++ u /\ s = u ++ rest m.
Proof.
  induction r as [|n r IH]; intros taken cs s m H.
  - injection H as <-. exists []. split; [now rewrite app_nil_r|reflexivity].
  - destruct n as [l|capture greedy min cls]; cbn [run] in H.
    + destruct (strip_prefix l s) as [s'|] eqn:E; [|discriminate].
      apply strip_prefix_Some in E. subst s.
      destruct (IH _ _ _ _ H) as [u [Hm Hs]].
      exists (l ++ u). rewrite <- !app_assoc in *. now rewrite Hm, <- Hs.
    + assert (Hrep : exists u s', s = u ++ s' /\
                run r (taken ++ ([] ++ u)) (if capture then cs ++ [[] ++ u] else cs) s'
                = Some m).
      { destruct greedy; unfold rep in H.
        - now apply rep_greedy_sound in H.
        - now apply rep_lazy_sound in H. }
      destruct Hrep as [u [s' [-> Hk]]].
      destruct (IH _ _ _ _ Hk) as [u' [Hm Hs]].
      exists (u ++ u'). cbn [app] in Hm. rewrite <- !app_assoc in *.
      now rewrite Hm, <- Hs.
Qed.

Lemma exec_sound (r : regex) (s : str) (m : match_result) :
  exec_at r s = Some m -> s = m0 m ++ rest m.
Proof.
  intros H. destruct (run_sound r [] [] s m H) as [u [Hm Hs]].
  cbn [app] in Hm. now rewrite Hm.
Qed.

(** ** Cleanup before a placeholder *)

(** Up to an opening [{{] the cleanup regex matches as if the text ended
    there. *)
Lemma exec_placeholder_local (y s2 : str) :
  y <> [] ->
  exec_at anyPlaceholderRegex (y ++ js "{{" ++ s2) =
  extend (js "{{" ++ s2) (exec_at anyPlaceholderRegex y).
Proof.
  intros Hy. destruct y as [|a [|b y]]; [congruence| |].
  - unfold exec_at, anyPlaceholderRegex, extend. cbn [app run strip_prefix js list_ascii_of_string].
    destruct (Ascii.eqb "{" a); reflexivity.
  - unfold exec_at, anyPlaceholderRegex.
    change (run (Lit (js "{{") :: ?r) [] [] ((a :: b :: y) ++ ?s))
      with (match strip_prefix (js "{{") (a :: b :: y ++ s) with
            | Some s' => run r ([] ++ js "{{") [] s'
            | None => None
            end).
    change (run (Lit (js "{{") :: ?r) [] [] (a :: b :: y))
      with (match strip_prefix (js "{{") (a :: b :: y) with
            | Some s' => run r ([] ++ js "{{") [] s'
            | None => None
            end).
    cbn [strip_prefix js list_ascii_of_string].
    destruct (Ascii.eqb "{" a); [|reflexivity].
    destruct (Ascii.eqb "{" b); [|reflexivity].
    apply run_local. repeat constructor.
Qed.

Lemma cleanup_before_placeholder (s2 : str) : forall (x : str) (skip : nat)
    (before before' : str),
  skip <= length x ->
  replace_scan anyPlaceholderRegex [] skip before (x ++ js "{{" ++ s2) =
  replace_scan anyPlaceholderRegex [] skip before' x ++
  replace_scan anyPlaceholderRegex [] 0 [] (js "{{" ++ s2).
Proof.
  induction x as [|a x IH]; intros skip before before' Hskip.
  - simpl in Hskip. assert (skip = 0) by lia. subst skip.
    cbn [app]. change (replace_scan anyPlaceholderRegex [] 0 before' []) with (@nil ascii).
    cbn [app]. now apply replace_scan_before.
  - change ((a :: x) ++ js "{{" ++ s2) with (a :: (x ++ js "{{" ++ s2)).
    destruct skip as [|n].
    + unfold replace_scan; fold replace_scan.
      change (a :: x ++ js "{{" ++ s2) with ((a :: x) ++ js "{{" ++ s2).
      rewrite exec_placeholder_local by discriminate.
      destruct (exec_at anyPlaceholderRegex (a :: x)) as [m|] eqn:E; cbn [extend option_map].
      * cbn [m0 rest getSubstitution app].
        destruct (m0 m) as [|c w] eqn:Em.
        -- cbn [app]. f_equal. apply IH. lia.
        -- apply IH. apply exec_sound in E. rewrite Em in E.
           injection E as _ E. rewrite E, length_app. lia.
      * cbn [app]. f_equal. apply IH. lia.
    + unfold replace_scan; fold replace_scan. apply IH. simpl in Hskip. lia.
Qed.

(** ** The text between the braces *)

Lemma trimStart_parts (s : str) :
  exists w, s = w ++ trimStart s /\ forallb is_space w = true.
Proof.
  induction s as [|a s (w & E & Hw)]; [now exists []|].
  cbn [trimStart]. destruct (is_space a) eqn:Ha.
  - exists (a :: w). cbn [app forallb]. rewrite Ha, Hw. now rewrite <- E.
  - now exists [].
Qed.

Lemma forallb_rev (f : ascii -> bool) (s : str) :
  forallb f (rev s) = forallb f s.
Proof.
  induction s as [|a s IH]; [reflexivity|].
  cbn [rev forallb]. rewrite forallb_app, IH. cbn [forallb].
  rewrite andb_true_r. apply andb_comm.
Qed.

Lemma trim_parts (s : str) :
  exists w1 w2,
    s = w1 ++ trim s ++ w2
    /\ forallb is_space w1 = true /\ forallb is_space w2 = true.
Proof.
  destruct (trimStart_parts s) as (w1 & E1 & H1).
  destruct (trimStart_parts (rev (trimStart s))) as (w2 & E2 & H2).
  exists w1, (rev w2). unfold trim, trimEnd. repeat split; [|assumption|].
  - rewrite <- rev_app_distr, <- E2, rev_involutive. exact E1.
  - now rewrite forallb_rev.
Qed.

Lemma trimStart_spaces (w s : str) :
  forallb is_space w = true -> trimStart (w ++ s) = trimStart s.
Proof.
  induction w as [|a w IH]; intros H; [reflexivity|].
  cbn [forallb] in H. apply andb_true_iff in H as [Ha H].
  cbn [app trimStart]. rewrite Ha. now apply IH.
Qed.

Lemma trimStart_word (n s : str) :
  n <> [] -> forallb is_word n = true -> trimStart (n ++ s) = n ++ s.
Proof.
  destruct n as [|a n]; [congruence|]. intros _ H.
  cbn [forallb] in H. apply andb_true_iff in H as [Ha _].
  cbn [app trimStart]. now rewrite (word_not_space a Ha).
Qed.

Lemma trim_spaced (w1 n w2 : str) :
  forallb is_space w1 = true -> forallb is_space w2 = true ->
  n <> [] -> forallb is_word n = true ->
  trim (w1 ++ n ++ w2) = n.
Proof.
  intros H1 H2 Hne Hn. unfold trim, trimEnd.
  rewrite trimStart_spaces by assumption.
  rewrite trimStart_word by assumption.
  rewrite rev_app_distr.
  rewrite trimStart_spaces by (now rewrite forallb_rev).
  rewrite <- (app_nil_r (rev n)).
  rewrite trimStart_word.
  - now rewrite app_nil_r, rev_involutive.
  - intros E. apply (f_equal (@rev ascii)) in E.
    rewrite rev_involutive in E. exact (Hne E).
  - now rewrite forallb_rev.
Qed.

(** Two texts without [c] that are followed by [c] in the same text are
    the same. *)
Lemma same_up_to (c : ascii) (x : str) : forall (y a b : str),
  forallb (is_not c) x = true -> forallb (is_not c) y = true ->
  x ++ c :: a = y ++ c :: b -> x = y.
Proof.
  induction x as [|p x IH]; intros [|q y] a b Hx Hy E; cbn [app forallb] in *.
  - reflexivity.
  - injection E as -> _. apply andb_true_iff in Hy as [Hq _].
    unfold is_not in Hq. now rewrite Ascii.eqb_refl in Hq.
  - injection E as -> _. apply andb_true_iff in Hx as [Hp _].
    unfold is_not in Hp. now rewrite Ascii.eqb_refl in Hp.
  - injection E as -> E. apply andb_true_iff in Hx as [_ Hx].
    apply andb_true_iff in Hy as [_ Hy]. f_equal. now apply (IH y a b).
Qed.

Lemma word_not_closing (a : ascii) : is_word a = true -> is_not "}"%char a = true.
Proof. ascii_cases a. Qed.

Lemma space_not_closing (a : ascii) : is_space a = true -> is_not "}"%char a = true.
Proof. ascii_cases a. Qed.

(** No match starts at the [{{] of a text between braces that is not a
    name. *)
Lemma exec_placeholder_unnamed (inner post : str) :
  forallb (is_not "}"%char) inner = true -> named inner = false ->
  exec_at anyPlaceholderRegex (js "{{" ++ inner ++ js "}}" ++ post) = None.
Proof.
  intros Hin Hnamed. unfold exec_at, anyPlaceholderRegex.
  rewrite run_lit.
  apply run_rep_none. intros u1 s1 E1 Hu1 _.
  apply run_rep_none. intros u2 s2 E2 Hu2 Hmin.
  apply run_rep_none. intros u3 s3 E3 Hu3 _.
  cbn [run]. destruct (strip_prefix (js "}}") s3) as [rest|] eqn:Es;
    [exfalso|reflexivity].
  apply strip_prefix_Some in Es. subst s1 s2 s3.
  rewrite (app_assoc u2 u3), (app_assoc u1) in E1.
  change (js "}}" ++ ?x) with ("}"%char :: "}"%char :: x) in E1.
  apply same_up_to in E1; [|assumption|].
  2:{ rewrite !forallb_app.
      rewrite (forallb_impl _ _ _ space_not_closing Hu1).
      rewrite (forallb_impl _ _ _ word_not_closing Hu2).
      now rewrite (forallb_impl _ _ _ space_not_closing Hu3). }
  assert (Hne : u2 <> []) by (destruct u2; [cbn in Hmin; lia|discriminate]).
  unfold named in Hnamed. rewrite E1 in Hnamed.
  rewrite trim_spaced in Hnamed by assumption.
  rewrite Hu2 in Hnamed. destruct u2; [congruence|discriminate].
Qed.

(** After text without brace: the placeholder goes when the text between
    its braces is a name, and stays otherwise. *)
Lemma cleanup_after_text (pre inner post : str) :
  forallb (is_not "{"%char) pre = true ->
  forallb (is_not "{"%char) inner = true ->
  forallb (is_not "}"%char) inner = true ->
  cleanUnusedPlaceholders (pre ++ js "{{" ++ inner ++ js "}}" ++ post) =
  pre ++ (if named inner then [] else js "{{" ++ inner ++ js "}}")
      ++ cleanUnusedPlaceholders post.
Proof.
  intros Hpre Hopen Hclose. destruct (named inner) eqn:Hnamed.
  - destruct (trim_parts inner) as (w1 & w2 & E & H1 & H2).
    unfold named in Hnamed. apply andb_true_iff in Hnamed as [Hne Hw].
    assert (Hne' : trim inner <> []) by (destruct (trim inner); [discriminate|congruence]).
    pose proof (cleanup_after_plain_text pre w1 (trim inner) w2 post Hpre H1 H2 Hne') as H.
    rewrite Hw in H. unfold placeholder in H. rewrite <- !app_assoc in H.
    rewrite E at 1. rewrite <- !app_assoc. apply H.
    revert Hw. apply forallb_impl. intros a Ha. unfold is_word_or_hyphen.
    now rewrite Ha.
  - unfold cleanUnusedPlaceholders, replaceAll.
    unfold anyPlaceholderRegex at 1. change (js "{{") with ["{"%char; "{"%char].
    rewrite replace_scan_past by assumption.
    change (Lit ["{"%char; "{"%char] :: _) with anyPlaceholderRegex.
    f_equal.
    pose proof (exec_placeholder_unnamed inner post Hclose Hnamed) as E.
    change (["{"%char; "{"%char] ++ ?x) with ("{"%char :: "{"%char :: x) in *.
    change (js "{{" ++ ?x) with ("{"%char :: "{"%char :: x) in E.
    rewrite replace_scan_miss by exact E.
    assert (Hbody : forallb (is_not "{"%char) (inner ++ js "}}") = true)
      by (now rewrite forallb_app, Hopen).
    rewrite app_assoc.
    rewrite replace_scan_miss.
    2:{ apply exec_second_brace; [assumption|]. now destruct inner. }
    cbn [app]. do 2 f_equal.
    change anyPlaceholderRegex
      with (Lit ("{"%char :: ["{"%char]) :: tl anyPlaceholderRegex).
    rewrite replace_scan_past by assumption. f_equal.
    apply replace_scan_before. reflexivity.
Qed.

(** C10. The cleanup pass removes exactly the placeholders whose name is
    made of word characters: [{{], a text without brace, [}}] is removed
    when the text is a non-empty run of word characters with or without
    white space around it, and is left as it is otherwise, whatever the
    text: [{{ data-test }}], [{{ a.b }}], [{{ a b }}] and [{{ }}] stay.
    What comes before it and what comes after it are cleaned as they would
    be alone. *)
Theorem C10_cleanup_removes_word_named_placeholders_only :
  forall pre inner post : str,
    forallb (is_not "{"%char) inner = true ->
    forallb (is_not "}"%char) inner = true ->
    cleanUnusedPlaceholders (pre ++ js "{{" ++ inner ++ js "}}" ++ post) =
    cleanUnusedPlaceholders pre
      ++ (if named inner then [] else js "{{" ++ inner ++ js "}}")
      ++ cleanUnusedPlaceholders post.
Proof.
  intros pre inner post Hopen Hclose.
  pose proof (cleanup_after_text [] inner post eq_refl Hopen Hclose) as Hfirst.
  cbn [app] in Hfirst.
  unfold cleanUnusedPlaceholders, replaceAll in *.
  rewrite (cleanup_before_placeholder _ pre 0 [] []) by lia.
  f_equal. exact Hfirst.
Qed.

Lemma C10_cleanup_removes_word_named_placeholders_only_witness :
  cleanUnusedPlaceholders (js "<p>{{ a }}{" ++ js "{{" ++ js " data-test " ++ js "}}"
                              ++ js "{{title}}</p>")
  = js "<p>{{{ data-test }}</p>"
  /\ cleanUnusedPlaceholders (js "<i>" ++ js "{{" ++ js "a.b" ++ js "}}" ++ js "</i>")
     = js "<i>{{a.b}}</i>"
  /\ cleanUnusedPlaceholders (js "<i>" ++ js "{{" ++ js " a b " ++ js "}}" ++ js "</i>")
     = js "<i>{{ a b }}</i>"
  /\ cleanUnusedPlaceholders (js "<i>" ++ js "{{" ++ js "  " ++ js "}}" ++ js "</i>")
     = js "<i>{{  }}</i>"
  /\ cleanUnusedPlaceholders (js "<i>" ++ js "{{" ++ js "  a_b1 " ++ js "}}" ++ js "</i>")
     = js "<i></i>".
Proof.
  repeat apply conj.
  - exact (C10_cleanup_removes_word_named_placeholders_only
             (js "<p>{{ a }}{") (js " data-test ") (js "{{title}}</p>")
             eq_refl eq_refl).
  - exact (C10_cleanup_removes_word_named_placeholders_only
             (js "<i>") (js "a.b") (js "</i>") eq_refl eq_refl).
  - exact (C10_cleanup_removes_word_named_placeholders_only
             (js "<i>") (js " a b ") (js "</i>") eq_refl eq_refl).
  - exact (C10_cleanup_removes_word_named_placeholders_only
             (js "<i>") (js "  ") (js "</i>") eq_refl eq_refl).
  - exact (C10_cleanup_removes_word_named_placeholders_only
             (js "<i>") (js "  a_b1 ") (js "</i>") eq_refl eq_refl).
Defined.

(** ** Documents without component tags *)

Lemma includes_cons (p : str) (a : ascii) (s : str) :
  includes p (a :: s) = false ->
  strip_prefix p (a :: s) = None /\ includes p s = false.
Proof.
  intros H.
  change (match strip_prefix p (a :: s) with
          | Some _ => true
          | None => includes p s
          end = false) in H.
  destruct (strip_prefix p (a :: s)); [discriminate|auto].
Qed.

Lemma scan_absent (l : str) (r : regex) (s : str) :
  includes l s = false -> scan (Lit l :: r) 0 s = [].
Proof.
  induction s as [|a s IH]; intros H.
  - simpl in *. unfold exec_at. simpl.
    destruct (strip_prefix l []); [discriminate|reflexivity].
  - apply includes_cons in H as [Hp Hs].
    rewrite scan_miss; [auto|].
    unfold exec_at. simpl run. now rewrite Hp.
Qed.

(** A document in which [<Component] does not occur is compiled to itself. *)
Lemma compileHtml_resolved (h : host) (d : nat) (html root : str)
    (projectRoot : option str) :
  includes (js "<Component") html = false ->
  compileHtml h (S d) html root projectRoot = Some (Ok html).
Proof.
  intros H. simpl.
  unfold processComponentsWithChildren, matchAll, childrenRegex.
  rewrite scan_absent by assumption. simpl.
  unfold processSelfClosingComponents, matchAll, selfClosingRegex.
  now rewrite scan_absent by assumption.
Qed.

(** ** Malformed self-closing tags *)

Lemma selfClosingStep_malformed (h : host) (compile : compiler)
    (root projectRoot result : str) (m : match_result) :
  malformed (m0 m) = true ->
  selfClosingStep h compile root projectRoot (Some (Ok result)) m
  = Some (Ok result).
Proof.
  intros H. unfold malformed in H. unfold selfClosingStep.
  destruct (parseSelfClosingComponentTag (m0 m)) as [attrs|]; [|reflexivity].
  destruct (obj_get (js "src") attrs) as [name|]; [|reflexivity].
  now rewrite H.
Qed.

(** A pass over a document all of whose self-closing matches are malformed
    returns the document. *)
Lemma processSelfClosingComponents_all_malformed (h : host) (compile : compiler)
    (html root projectRoot : str) :
  forallb (fun m => malformed (m0 m)) (matchAll selfClosingRegex html) = true ->
  processSelfClosingComponents h compile html root projectRoot
  = Some (Ok html).
Proof.
  unfold processSelfClosingComponents.
  generalize (matchAll selfClosingRegex html) as ms.
  induction ms as [|m ms IH]; intros H; [reflexivity|].
  simpl in H. apply andb_true_iff in H as [Hm Hms].
  cbn [fold_left]. rewrite selfClosingStep_malformed by assumption.
  now apply IH.
Qed.

(** The pass is the pass over the other matches: the malformed ones count
    for nothing in its result. *)
Lemma processSelfClosingComponents_skips_malformed (h : host) (compile : compiler)
    (html root projectRoot : str) :
  processSelfClosingComponents h compile html root projectRoot =
  fold_left (selfClosingStep h compile root projectRoot)
    (filter (fun m => negb (malformed (m0 m))) (matchAll selfClosingRegex html))
    (Some (Ok html)).
Proof.
  unfold processSelfClosingComponents. generalize (Some (Ok html)) as acc.
  induction (matchAll selfClosingRegex html) as [|m ms IH]; intros acc;
    [reflexivity|].
  cbn [fold_left filter].
  destruct (malformed (m0 m)) eqn:Hm; cbn [negb fold_left]; [|apply IH].
  destruct acc as [[result|]|]; [|apply IH..].
  rewrite selfClosingStep_malformed by assumption. apply IH.
Qed.

(** ** The fixed point *)


(** ** Tags that survive *)


(** C2, as stated, fails: beside the marker of a missing component a tag
    without [src] is still in the output; and the identifier [a>b]
    resolves to no file, but the tag naming it is not even scanned, so
    that the output is the raw tag, without the marker. *)
Lemma C2_raw_tags_beside_or_instead_of_the_marker :
  loadComponent bare (js "Missing") fx fx [(js "src", js "Missing")] = None
  /\ compileHtml bare 3 (srcTag (js "Missing") ++ tag_without_src) fx (Some fx)
     = Some (Ok (notFound (js "Missing") ++ tag_without_src))
  /\ includes (js "<Component") (notFound (js "Missing") ++ tag_without_src) = true
  /\ loadComponent bare (js "a>b") fx fx [(js "src", js "a>b")] = None
  /\ compileHtml bare 3 (srcTag (js "a>b")) fx (Some fx)
     = Some (Ok (srcTag (js "a>b")))
  /\ includes (notFound (js "a>b")) (srcTag (js "a>b")) = false
  /\ includes (js "<Component") (srcTag (js "a>b")) = true.
Proof. repeat split; vm_compute; reflexivity. Qed.

(** ** An unresolved self-closing tag *)

Lemma avoids_in (banned : list ascii) (c : ascii) (s : str) :
  In c banned -> avoids banned s = true -> forallb (is_not c) s = true.
Proof.
  intros Hin. unfold avoids. apply forallb_impl. intros a Ha.
  unfold is_not. destruct (Ascii.eqb_spec a c) as [->|]; [|reflexivity].
  apply negb_true_iff in Ha.
  assert (existsb (Ascii.eqb c) banned = true); [|congruence].
  apply existsb_exists. exists c. split; [assumption|apply Ascii.eqb_refl].
Qed.

Lemma includes_past (c : ascii) (p pre s : str) :
  forallb (is_not c) pre = true ->
  includes (c :: p) (pre ++ s) = includes (c :: p) s.
Proof.
  induction pre as [|a pre IH]; intros H; [reflexivity|].
  simpl in H. apply andb_true_iff in H as [Ha Hpre].
  unfold is_not in Ha. apply negb_true_iff in Ha.
  change ((a :: pre) ++ s) with (a :: (pre ++ s)).
  unfold includes at 1; fold includes.
  rewrite strip_prefix_head by assumption. auto.
Qed.

Lemma srcTag_shape (name post : str) :
  srcTag name ++ post =
  js "<Component" ++ (js " src=" ++ dq :: name ++ [dq; " "%char])
     ++ "/"%char :: ">"%char :: post.
Proof.
  unfold srcTag, quoted. cbn [js list_ascii_of_string app].
  rewrite <- !app_assoc. reflexivity.
Qed.

Lemma srcTag_attrs_no_gt (name : str) :
  forallb (is_not ">"%char) name = true ->
  forallb (is_not ">"%char) (js " src=" ++ dq :: name ++ [dq; " "%char]) = true.
Proof.
  intros H. cbn [js list_ascii_of_string app].
  cbn [forallb]. rewrite forallb_app, H. reflexivity.
Qed.

(** The scanner takes the tag whole. *)
Lemma exec_selfClosing_srcTag (name post : str) :
  forallb (is_not ">"%char) name = true ->
  exec_at selfClosingRegex (srcTag name ++ post) =
  Some (MkMatch (srcTag name) [] post).
Proof.
  intros H. rewrite srcTag_shape. unfold exec_at, selfClosingRegex.
  rewrite run_lit.
  apply run_rep_back;
    [now apply srcTag_attrs_no_gt | reflexivity | reflexivity | cbn; lia
    | reflexivity | ].
  - change ("/"%char :: ">"%char :: post) with (js "/>" ++ post).
    rewrite run_lit. cbn [run]. do 2 f_equal.
    rewrite <- (app_nil_r (srcTag name)), srcTag_shape.
    rewrite <- !app_assoc. reflexivity.
Qed.

Lemma search_hit (r : regex) (s : str) (m : match_result) :
  exec_at r s = Some m -> search r s = Some m.
Proof. intros H. destruct s; simpl; now rewrite H. Qed.

Lemma srcTag_attr_text_no_gt (name : str) :
  forallb (is_not ">"%char) name = true ->
  forallb (is_not ">"%char) (js "src=" ++ dq :: name ++ [dq; " "%char]) = true.
Proof.
  intros H. cbn [js list_ascii_of_string app].
  cbn [forallb]. rewrite forallb_app, H. reflexivity.
Qed.

(** The attribute parser captures the text [src="name" ] of the tag. *)
Lemma exec_tagRegex_srcTag (name : str) :
  forallb (is_not ">"%char) name = true ->
  exec_at tagRegex (srcTag name) =
  Some (MkMatch (srcTag name) [js "src=" ++ dq :: name ++ [dq; " "%char]] []).
Proof.
  intros H. rewrite <- (app_nil_r (srcTag name)) at 1. rewrite srcTag_shape.
  change (js " src=" ++ ?x) with ([" "%char] ++ js "src=" ++ x).
  rewrite <- (app_assoc [" "%char]).
  unfold exec_at, tagRegex. rewrite run_lit.
  apply run_rep_all; [reflexivity | reflexivity | cbn; lia | ].
  apply run_rep_back;
    [now apply srcTag_attr_text_no_gt | reflexivity | reflexivity | cbn; lia
    | reflexivity | ].
  change ("/"%char :: [">"%char]) with ([] ++ js "/>" ++ []).
  apply run_rep_all; [reflexivity | reflexivity | cbn; lia | ].
  rewrite run_lit. cbn [run]. do 2 f_equal.
  rewrite <- (app_nil_r (srcTag name)), srcTag_shape.
  rewrite <- !app_assoc. reflexivity.
Qed.

Lemma exec_attrRegex_src (name tail : str) :
  forallb (is_not dq) name = true ->
  exec_at (attrRegex is_word_or_hyphen) (js "src=" ++ dq :: name ++ dq :: tail) =
  Some (MkMatch (js "src=" ++ dq :: name ++ [dq]) [js "src"; name] tail).
Proof.
  intros H. unfold exec_at, attrRegex.
  change (js "src=" ++ dq :: name ++ dq :: tail)
    with (js "src" ++ (js "=" ++ [dq]) ++ name ++ [dq] ++ tail).
  apply run_rep_all; [reflexivity | reflexivity | cbn; lia | ].
  rewrite run_lit.
  apply run_rep_all; [assumption | reflexivity | lia | ].
  rewrite run_lit. reflexivity.
Qed.

Lemma collectAttrs_src (name : str) :
  forallb (is_not dq) name = true ->
  collectAttrs is_word_or_hyphen (js "src=" ++ dq :: name ++ [dq; " "%char]) =
  [(js "src", name)].
Proof.
  intros H. unfold collectAttrs, matchAll.
  pose proof (exec_attrRegex_src name [" "%char] H) as E.
  assert (Es : js "src=" ++ dq :: name ++ [dq; " "%char] =
               "s"%char :: (js "rc=" ++ dq :: name ++ [dq]) ++ [" "%char]).
  { cbn [js list_ascii_of_string app]. now rewrite <- app_assoc. }
  rewrite Es in *.
  rewrite (scan_hit _ _ _ _ (js "rc=" ++ dq :: name ++ [dq]) E eq_refl).
  rewrite scan_skip. reflexivity.
Qed.

Lemma parseSelfClosingComponentTag_srcTag (name : str) :
  avoids [dq; ">"%char] name = true ->
  parseSelfClosingComponentTag (srcTag name) = Some [(js "src", name)].
Proof.
  intros H. unfold parseSelfClosingComponentTag.
  assert (Hgt : forallb (is_not ">"%char) name = true)
    by (apply (avoids_in [dq; ">"%char]); simpl; auto).
  assert (Hdq : forallb (is_not dq) name = true)
    by (apply (avoids_in [dq; ">"%char]); simpl; auto).
  rewrite (search_hit _ _ _ (exec_tagRegex_srcTag name Hgt)).
  unfold cap. cbn [caps nth Nat.sub].
  now rewrite collectAttrs_src.
Qed.

(** Text in which [<C] does not occur starts no component tag, whatever
    follows it, unless what follows starts with [C]. *)
Section TwoCharacters.
Variables c1 c2 : ascii.
Variable l : str.

Lemma strip_prefix_two (a : ascii) (pre s : str) :
  includes [c1; c2] (a :: pre) = false -> starts_with c2 s = false ->
  strip_prefix (c1 :: c2 :: l) (a :: pre ++ s) = None.
Proof.
  intros H Hs. apply includes_cons in H as [H _].
  cbn [strip_prefix] in *.
  destruct (Ascii.eqb c1 a); [|reflexivity].
  destruct pre as [|b pre]; cbn [app].
  - destruct s as [|b s]; [reflexivity|]. cbn [starts_with] in Hs.
    rewrite eqb_sym. now rewrite Hs.
  - destruct (Ascii.eqb c2 b); [discriminate|reflexivity].
Qed.

Lemma scan_past_two (r : regex) (pre s : str) :
  includes [c1; c2] pre = false -> starts_with c2 s = false ->
  scan (Lit (c1 :: c2 :: l) :: r) 0 (pre ++ s) =
  scan (Lit (c1 :: c2 :: l) :: r) 0 s.
Proof.
  induction pre as [|a pre IH]; intros H Hs; [reflexivity|].
  change ((a :: pre) ++ s) with (a :: (pre ++ s)).
  rewrite scan_miss.
  - apply IH; [|assumption]. now apply includes_cons in H.
  - unfold exec_at. cbn [run]. now rewrite strip_prefix_two.
Qed.

Lemma scan_without_two (r : regex) (s : str) :
  includes [c1; c2] s = false -> scan (Lit (c1 :: c2 :: l) :: r) 0 s = [].
Proof.
  intros H. rewrite <- (app_nil_r s). now rewrite scan_past_two.
Qed.

Lemma includes_past_two (pre s : str) :
  includes [c1; c2] pre = false -> starts_with c2 s = false ->
  includes (c1 :: c2 :: l) (pre ++ s) = includes (c1 :: c2 :: l) s.
Proof.
  induction pre as [|a pre IH]; intros H Hs; [reflexivity|].
  change ((a :: pre) ++ s) with (a :: (pre ++ s)).
  unfold includes at 1; fold includes.
  rewrite strip_prefix_two by assumption.
  apply IH; [|assumption]. now apply includes_cons in H.
Qed.

Lemma includes_without_two (s : str) :
  includes [c1; c2] s = false -> includes (c1 :: c2 :: l) s = false.
Proof.
  intros H. rewrite <- (app_nil_r s). now rewrite includes_past_two.
Qed.

Lemma replace_first_from_skip_two (replacement before pre s : str) :
  includes [c1; c2] pre = false -> starts_with c2 s = false ->
  replace_first_from (c1 :: c2 :: l) replacement before (pre ++ s) =
  replace_first_from (c1 :: c2 :: l) replacement (before ++ pre) s.
Proof.
  revert before. induction pre as [|a pre IH]; intros before H Hs.
  - now rewrite app_nil_r.
  - change ((a :: pre) ++ s) with (a :: (pre ++ s)).
    unfold replace_first_from at 1; fold replace_first_from.
    rewrite strip_prefix_two by assumption.
    rewrite IH; [now rewrite <- app_assoc| |assumption].
    now apply includes_cons in H.
Qed.
End TwoCharacters.

Lemma srcTag_tail_no_lt (name : str) :
  forallb (is_not "<"%char) name = true ->
  forallb (is_not "<"%char) (js "Component src=" ++ quoted name ++ js " />") = true.
Proof.
  intros Hn. unfold quoted.
  rewrite !forallb_app. cbn [forallb]. rewrite forallb_app, Hn.
  reflexivity.
Qed.

(** The first pass finds no child-bearing component around the tag. *)
Lemma matchAll_children_srcTag (name pre post : str) :
  forallb (is_not "<"%char) name = true ->
  includes (js "<C") pre = false ->
  includes (js "<C") post = false ->
  matchAll childrenRegex (pre ++ srcTag name ++ post) = [].
Proof.
  intros Hn Hpre Hpost. unfold matchAll, childrenRegex.
  change (js "<Component") with ("<"%char :: "C"%char :: js "omponent").
  rewrite scan_past_two by (assumption || reflexivity).
  change (srcTag name ++ post)
    with ("<"%char :: (js "Component src=" ++ quoted name ++ js " />") ++ post).
  rewrite scan_miss by reflexivity.
  rewrite scan_past by (now apply srcTag_tail_no_lt).
  now apply scan_without_two.
Qed.

(** The second pass finds the tag and nothing else. *)
Lemma matchAll_selfClosing_srcTag (name pre post : str) :
  avoids ["<"%char; ">"%char] name = true ->
  includes (js "<C") pre = false ->
  includes (js "<C") post = false ->
  matchAll selfClosingRegex (pre ++ srcTag name ++ post) =
  [MkMatch (srcTag name) [] post].
Proof.
  intros Hn Hpre Hpost. unfold matchAll.
  assert (Hgt : forallb (is_not ">"%char) name = true)
    by (apply (avoids_in ["<"%char; ">"%char]); simpl; auto).
  pose proof (exec_selfClosing_srcTag name post Hgt) as E.
  unfold selfClosingRegex in *.
  change (js "<Component") with ("<"%char :: "C"%char :: js "omponent") in *.
  rewrite scan_past_two by (assumption || reflexivity).
  change (srcTag name ++ post)
    with ("<"%char :: (js "Component src=" ++ quoted name ++ js " />") ++ post)
    in *.
  rewrite (scan_hit _ _ _ _ (js "Component src=" ++ quoted name ++ js " />")
             E eq_refl).
  rewrite scan_skip. now rewrite scan_without_two.
Qed.

Lemma notFound_plain (name : str) :
  avoids ["$"%char] name = true -> avoids ["$"%char] (notFound name) = true.
Proof.
  intros H. unfold notFound, quoted.
  rewrite !avoids_app, avoids_cons, avoids_app, H. reflexivity.
Qed.

Lemma notFound_has_no_tag (name pre post : str) :
  forallb (is_not "<"%char) name = true ->
  includes (js "<C") pre = false ->
  includes (js "<C") post = false ->
  includes (js "<Component") (pre ++ notFound name ++ post) = false.
Proof.
  intros Hn Hpre Hpost.
  change (js "<Component") with ("<"%char :: "C"%char :: js "omponent").
  rewrite includes_past_two by (assumption || reflexivity).
  change (notFound name ++ post)
    with ("<"%char :: (js "!-- Component " ++ quoted name ++ js " not found -->") ++ post).
  unfold includes; fold includes.
  change (strip_prefix ("<"%char :: "C"%char :: js "omponent") ("<"%char :: ?s))
    with (@None str).
  rewrite includes_past.
  - now apply includes_without_two.
  - unfold quoted. rewrite !forallb_app. cbn [forallb].
    rewrite forallb_app, Hn. reflexivity.
Qed.

(** Splicing a replacement without dollars in place of a tag whose first
    two characters do not occur, in that order, in its left context. *)
Lemma replace_first_splice_two (c1 c2 : ascii) (p replacement pre post : str) :
  includes [c1; c2] pre = false -> Ascii.eqb c1 c2 = false ->
  avoids ["$"%char] replacement = true ->
  replace_first (c1 :: c2 :: p) replacement (pre ++ (c1 :: c2 :: p) ++ post) =
  pre ++ replacement ++ post.
Proof.
  intros Hpre Hc Hrep. unfold replace_first.
  rewrite replace_first_from_skip_two; [|assumption|exact Hc].
  rewrite replace_first_from_hit. cbn [app].
  now rewrite getSubstitution_plain.
Qed.

(** C2, amended. For a non-empty identifier [I] without double quote,
    angle bracket or dollar that resolves to no component, a document made
    of [<Component src="I" />] inside text in which [<C] does not occur is
    compiled, at any depth of at least one, to the same text around the
    marker [<!-- Component "I" not found -->]; [<Component] does not
    occur in it. *)
Theorem C2_missing_component_marker :
  forall (h : host) (d : nat) (root : str) (projectRoot : option str)
         (I pre post : str),
    I <> [] ->
    avoids [dq; "<"%char; ">"%char; "$"%char] I = true ->
    includes (js "<C") pre = false ->
    includes (js "<C") post = false ->
    loadComponent h I root (effectiveProjectRoot h root projectRoot)
      [(js "src", I)] = None ->
    compileHtml h (S d) (pre ++ srcTag I ++ post) root projectRoot
      = Some (Ok (pre ++ notFound I ++ post))
    /\ includes (js "<Component") (pre ++ notFound I ++ post) = false.
Proof.
  intros h d root projectRoot I pre post Hne HI Hpre Hpost Hload.
  assert (Hlt : forallb (is_not "<"%char) I = true)
    by (apply (avoids_in [dq; "<"%char; ">"%char; "$"%char]); simpl; auto).
  split; [|now apply notFound_has_no_tag].
  cbn [compileHtml]. unfold processComponentsWithChildren.
  rewrite matchAll_children_srcTag by assumption. cbn [fold_left].
  unfold processSelfClosingComponents.
  rewrite matchAll_selfClosing_srcTag; try assumption.
  2:{ revert HI. apply avoids_incl. intros c Hc. simpl in *. intuition. }
  cbn [fold_left]. unfold selfClosingStep. cbn [m0].
  rewrite parseSelfClosingComponentTag_srcTag.
  2:{ revert HI. apply avoids_incl. intros c Hc. simpl in *. intuition. }
  change (obj_get (js "src") [(js "src", I)]) with (Some I).
  destruct I as [|i I]; [congruence|]. cbn [truthy negb].
  rewrite Hload. do 2 f_equal.
  change (srcTag (i :: I))
    with ("<"%char :: "C"%char :: js "omponent src=" ++ quoted (i :: I) ++ js " />").
  apply replace_first_splice_two; [assumption|reflexivity|].
  apply notFound_plain. revert HI. apply avoids_incl.
  intros c Hc. simpl in *. intuition.
Qed.

Lemma C2_missing_component_marker_witness :
  js "NonExistent" <> []
  /\ avoids [dq; "<"%char; ">"%char; "$"%char] (js "NonExistent") = true
  /\ includes (js "<C") (js "<main><p>") = false
  /\ includes (js "<C") (js "</p></main>") = false
  /\ loadComponent fixtures (js "NonExistent") fx
       (effectiveProjectRoot fixtures fx (Some fx))
       [(js "src", js "NonExistent")] = None
  /\ compileHtml fixtures 1
       (js "<main><p>" ++ srcTag (js "NonExistent") ++ js "</p></main>") fx (Some fx)
     = Some (Ok (js "<main><p>" ++ notFound (js "NonExistent") ++ js "</p></main>"))
  /\ includes (js "<Component")
       (js "<main><p>" ++ notFound (js "NonExistent") ++ js "</p></main>") = false.
Proof.
  assert (H1 : js "NonExistent" <> []) by discriminate.
  assert (H2 : avoids [dq; "<"%char; ">"%char; "$"%char] (js "NonExistent") = true)
    by (vm_compute; reflexivity).
  assert (H3 : includes (js "<C") (js "<main><p>") = false)
    by (vm_compute; reflexivity).
  assert (H4 : includes (js "<C") (js "</p></main>") = false)
    by (vm_compute; reflexivity).
  assert (H5 : loadComponent fixtures (js "NonExistent") fx
                 (effectiveProjectRoot fixtures fx (Some fx))
                 [(js "src", js "NonExistent")] = None)
    by (vm_compute; reflexivity).
  repeat (split; [assumption|]).
  exact (C2_missing_component_marker fixtures 0 fx (Some fx) (js "NonExistent")
           (js "<main><p>") (js "</p></main>") H1 H2 H3 H4 H5).
Defined.

(** Why the identifier of the marker theorem is not empty and has no
    double quote, angle bracket or dollar: an empty [src] is skipped; a
    quote ends the value; [<Component] in the identifier is in the marker
    too; [$&] in the marker brings the tag back. *)
Lemma missing_component_marker_limits :
  compileHtml bare 1 (srcTag []) fx None = Some (Ok (srcTag []))
  /\ compileHtml bare 1 (srcTag (js "a" ++ dq :: js "b")) fx None
     = Some (Ok (notFound (js "a")))
  /\ compileHtml bare 1 (srcTag (js "<Component")) fx None
     = Some (Ok (notFound (js "<Component")))
  /\ compileHtml bare 1 (srcTag (js "$&")) fx None
     = Some (Ok (js "<!-- Component " ++ quoted (srcTag (js "$&"))
                    ++ js " not found -->")).
Proof. repeat split; vm_compute; reflexivity. Qed.

(** ** The occurrence that replace rewrites *)

(** [replace]: nothing changes without an occurrence; else the occurrence
    before which there is no other gives way to the substitution. *)
Lemma replace_first_from_cases (p t : str) (s : str) : forall before : str,
  (includes p s = false /\ replace_first_from p t before s = before ++ s)
  \/ (exists pre post,
        s = pre ++ p ++ post
        /\ (forall pre' s', pre = pre' ++ s' -> s' <> [] ->
              strip_prefix p (s' ++ p ++ post) = None)
        /\ replace_first_from p t before s =
           before ++ pre ++ getSubstitution p (before ++ pre) post t ++ post).
Proof.
  induction s as [|a s IH]; intros before.
  - unfold replace_first_from, includes.
    destruct (strip_prefix p []) as [after|] eqn:E.
    + right. exists [], after. apply strip_prefix_Some in E.
      rewrite app_nil_r. cbn [app]. repeat split; [exact E|].
      intros pre' s' Hp Hs. destruct pre', s'; try discriminate. congruence.
    + left. now rewrite app_nil_r.
  - unfold replace_first_from, includes; fold replace_first_from; fold includes.
    destruct (strip_prefix p (a :: s)) as [after|] eqn:E.
    + right. exists [], after. pose proof (strip_prefix_Some _ _ _ E) as Es.
      rewrite app_nil_r. cbn [app]. repeat split; [exact Es|].
      intros pre' s' Hp Hs. destruct pre', s'; try discriminate. congruence.
    + destruct (IH (before ++ [a])) as [[Hi Hr]|[pre [post [Es [Hfirst Hr]]]]].
      * left. split; [exact Hi|]. rewrite Hr. now rewrite <- app_assoc.
      * right. exists (a :: pre), post. split; [now rewrite Es|]. split.
        -- intros pre' s' Hp Hs. destruct pre' as [|b pre'].
           ++ cbn [app] in Hp. subst s'. cbn [app]. now rewrite <- Es.
           ++ injection Hp as _ Hp. now apply (Hfirst pre' s').
        -- rewrite Hr. now rewrite <- !app_assoc.
Qed.

Lemma replace_first_cases (p t s : str) :
  (includes p s = false /\ replace_first p t s = s)
  \/ (exists pre post,
        s = pre ++ p ++ post
        /\ (forall pre' s', pre = pre' ++ s' -> s' <> [] ->
              strip_prefix p (s' ++ p ++ post) = None)
        /\ replace_first p t s = pre ++ getSubstitution p pre post t ++ post).
Proof. exact (replace_first_from_cases p t s []). Qed.

Lemma childrenStep_diverged (h : host) (compile : compiler)
    (root projectRoot : str) (ms : list match_result) :
  fold_left (childrenStep h compile root projectRoot) ms None = None.
Proof. induction ms; [reflexivity|exact IHms]. Qed.

Lemma selfClosingStep_diverged (h : host) (compile : compiler)
    (root projectRoot : str) (ms : list match_result) :
  fold_left (selfClosingStep h compile root projectRoot) ms None = None.
Proof. induction ms; [reflexivity|exact IHms]. Qed.

(** ** Depth

    A compilation that returns within a depth returns the same within any
    greater depth. *)

Lemma childrenStep_extends (h : host) (c1 c2 : compiler) (root projectRoot : str)
    (acc : option result) (m : match_result) (out : result) :
  extends_compiler c1 c2 ->
  childrenStep h c1 root projectRoot acc m = Some out ->
  childrenStep h c2 root projectRoot acc m = Some out.
Proof.
  intros Hc. unfold childrenStep.
  destruct acc as [[result|]|]; [|auto|discriminate].
  destruct (loadComponent h (cap 1 m) root projectRoot (parseAttributes (cap 2 m)))
    as [content|]; [|auto].
  destruct (c1 _ root (Some projectRoot)) as [compiled|] eqn:E; [|discriminate].
  now rewrite (Hc _ _ _ _ E).
Qed.

Lemma selfClosingStep_extends (h : host) (c1 c2 : compiler)
    (root projectRoot : str) (acc : option result) (m : match_result)
    (out : result) :
  extends_compiler c1 c2 ->
  selfClosingStep h c1 root projectRoot acc m = Some out ->
  selfClosingStep h c2 root projectRoot acc m = Some out.
Proof.
  intros Hc. unfold selfClosingStep.
  destruct acc as [[result|]|]; [|auto|discriminate].
  destruct (parseSelfClosingComponentTag (m0 m)) as [attrs|]; [|auto].
  destruct (obj_get (js "src") attrs) as [name|]; [|auto].
  destruct (negb (truthy name)); [auto|].
  destruct (loadComponent h name root projectRoot attrs) as [content|]; [|auto].
  destruct (bindSelfClosing content attrs) as [bound|]; [|auto].
  destruct (c1 _ root (Some projectRoot)) as [compiled|] eqn:E; [|discriminate].
  now rewrite (Hc _ _ _ _ E).
Qed.

Lemma processComponentsWithChildren_extends (h : host) (c1 c2 : compiler)
    (html root projectRoot : str) (out : result) :
  extends_compiler c1 c2 ->
  processComponentsWithChildren h c1 html root projectRoot = Some out ->
  processComponentsWithChildren h c2 html root projectRoot = Some out.
Proof.
  intros Hc. unfold processComponentsWithChildren.
  generalize (Some (Ok html)) as acc.
  induction (matchAll childrenRegex html) as [|m ms IH]; intros acc H; [exact H|].
  cbn [fold_left] in *.
  destruct (childrenStep h c1 root projectRoot acc m) as [next|] eqn:E.
  - rewrite (childrenStep_extends h c1 c2 _ _ _ _ _ Hc E). now apply IH.
  - now rewrite childrenStep_diverged in H.
Qed.

Lemma processSelfClosingComponents_extends (h : host) (c1 c2 : compiler)
    (html root projectRoot : str) (out : result) :
  extends_compiler c1 c2 ->
  processSelfClosingComponents h c1 html root projectRoot = Some out ->
  processSelfClosingComponents h c2 html root projectRoot = Some out.
Proof.
  intros Hc. unfold processSelfClosingComponents.
  generalize (Some (Ok html)) as acc.
  induction (matchAll selfClosingRegex html) as [|m ms IH]; intros acc H; [exact H|].
  cbn [fold_left] in *.
  destruct (selfClosingStep h c1 root projectRoot acc m) as [next|] eqn:E.
  - rewrite (selfClosingStep_extends h c1 c2 _ _ _ _ _ Hc E). now apply IH.
  - now rewrite selfClosingStep_diverged in H.
Qed.

Lemma compileHtml_deeper (h : host) (d : nat) :
  extends_compiler (compileHtml h d) (compileHtml h (S d)).
Proof.
  induction d as [|d IH]; intros html root projectRoot out H; [discriminate|].
  cbn [compileHtml] in *.
  destruct (processComponentsWithChildren h (compileHtml h d) html root
              (effectiveProjectRoot h root projectRoot)) as [mid|] eqn:E;
    [|discriminate].
  rewrite (processComponentsWithChildren_extends h _ _ _ _ _ _ IH E).
  destruct mid as [mid|]; [|exact H].
  now apply (processSelfClosingComponents_extends h (compileHtml h d)).
Qed.

Lemma compileHtml_depth (h : host) (d d' : nat) (html root : str)
    (projectRoot : option str) (out : result) :
  d <= d' ->
  compileHtml h d html root projectRoot = Some out ->
  compileHtml h d' html root projectRoot = Some out.
Proof.
  induction 1 as [|d' _ IH]; [auto|].
  intros H. now apply compileHtml_deeper, IH.
Qed.

(** ** Resolution *)

Section Resolution.
Variable h : host.
Variable attrs : obj.

(** A readable markup file at the first candidate path is the content. *)
Lemma tryPaths_markup (p : str) (others : list str) (content : str) :
  fs_access h p = true -> fs_readFile h p = Some content ->
  tryPaths h (p :: others) attrs = Some content.
Proof. intros Ha Hr. cbn [tryPaths]. now rewrite Ha, Hr. Qed.

(** Without it, a module at the path the code derives is asked: its
    function is called with the props less [src] and [name]. *)
Lemma tryPaths_function (p : str) (others : list str)
    (f : obj -> completion) (v : option str) :
  fs_access h p = false ->
  import_module h (replace_first (js ".html") (js ".js") p)
    = Some (ExportFunction f) ->
  f (obj_delete (js "name") (obj_delete (js "src") attrs)) = Return v ->
  tryPaths h (p :: others) attrs = v.
Proof. intros Ha Hi Hf. cbn [tryPaths]. now rewrite Ha, Hi, Hf. Qed.

Lemma tryPaths_value (p : str) (others : list str) (v : str) :
  fs_access h p = false ->
  import_module h (replace_first (js ".html") (js ".js") p)
    = Some (ExportValue v) ->
  tryPaths h (p :: others) attrs = Some v.
Proof. intros Ha Hi. cbn [tryPaths]. now rewrite Ha, Hi. Qed.

(** A candidate with neither file leaves the search to the next ones. *)
Lemma tryPaths_next (p : str) (others : list str) :
  fs_access h p = false ->
  import_module h (replace_first (js ".html") (js ".js") p) = None ->
  tryPaths h (p :: others) attrs = tryPaths h others attrs.
Proof. intros Ha Hi. cbn [tryPaths]. now rewrite Ha, Hi. Qed.

(** Three candidates with neither file: not found. *)
Lemma loadComponent_not_found (name root projectRoot : str) :
  (forall p, In p (possiblePaths h (replaceAll backslashRegex (js "/") name)
                     root projectRoot) ->
     fs_access h p = false /\
     import_module h (replace_first (js ".html") (js ".js") p) = None) ->
  loadComponent h name root projectRoot attrs = None.
Proof.
  intros H. unfold loadComponent.
  set (paths := possiblePaths h _ root projectRoot) in *.
  induction paths as [|p ps IH]; [reflexivity|].
  destruct (H p (or_introl eq_refl)) as [Ha Hi].
  rewrite tryPaths_next by assumption.
  apply IH. intros q Hq. apply H. now right.
Qed.
End Resolution.

Lemma strip_prefix_none_app (p : str) : forall u v : str,
  strip_prefix p u = None -> length p <= length u ->
  strip_prefix p (u ++ v) = None.
Proof.
  induction p as [|x p IH]; intros u v H Hl; [discriminate|].
  destruct u as [|a u]; [simpl in Hl; lia|].
  cbn [strip_prefix app] in *.
  destruct (Ascii.eqb x a); [|reflexivity].
  apply IH; [assumption|simpl in Hl; lia].
Qed.

(** The path derived for the module is the markup path with [.js] for
    [.html] when [.html] occurs nowhere before the extension. *)
Lemma replace_first_extension (stem : str) :
  includes (js ".html") (stem ++ js ".htm") = false ->
  replace_first (js ".html") (js ".js") (stem ++ js ".html") = stem ++ js ".js".
Proof.
  unfold replace_first. change (stem ++ js ".js") with ([] ++ stem ++ js ".js").
  generalize (@nil ascii) as before.
  induction stem as [|a stem IH]; intros before H.
  - cbn [app]. rewrite <- (app_nil_r (js ".html")) at 2.
    rewrite replace_first_from_hit. now rewrite app_nil_r.
  - change ((a :: stem) ++ js ".htm") with (a :: (stem ++ js ".htm")) in H.
    apply includes_cons in H as [Hp Hi].
    change ((a :: stem) ++ js ".html") with (a :: (stem ++ js ".html")).
    unfold replace_first_from; fold replace_first_from.
    assert (strip_prefix (js ".html") (a :: stem ++ js ".html") = None) as ->.
    { change (js ".html") with (js ".htm" ++ ["l"%char]) at 2.
      rewrite app_assoc.
      change (a :: (stem ++ js ".htm") ++ ["l"%char])
        with ((a :: stem ++ js ".htm") ++ ["l"%char]).
      apply strip_prefix_none_app; [exact Hp|].
      cbn [length]. rewrite length_app. cbn. lia. }
    rewrite IH by assumption. now rewrite <- app_assoc.
Qed.

(** When [.html] occurs nowhere before the extension of a candidate path
    without markup, the module of the same stem is the one asked. *)
Lemma tryPaths_module_beside (h : host) (attrs : obj) (stem : str)
    (others : list str) (f : obj -> completion) (v : option str) :
  includes (js ".html") (stem ++ js ".htm") = false ->
  fs_access h (stem ++ js ".html") = false ->
  import_module h (stem ++ js ".js") = Some (ExportFunction f) ->
  f (obj_delete (js "name") (obj_delete (js "src") attrs)) = Return v ->
  tryPaths h ((stem ++ js ".html") :: others) attrs = v.
Proof.
  intros Hs Ha Hi Hf. apply (tryPaths_function h attrs _ others f v); auto.
  now rewrite replace_first_extension.
Qed.

(** C4. Fails where a candidate path has [.html] before its extension:
    in a project kept under [/work/demo.html] the module [Widget.js]
    stands beside the missing [Widget.html], but the path imported is
    [/work/demo.js/src/components/Widget.html], and the component is not
    found; the same project under [/work/demo] resolves it. *)
Theorem C4_module_path_replaces_first_html :
  possiblePaths demo_html (js "Widget") (js "/work/demo.html/src") (js "/work/demo.html")
    = [ js "/work/demo.html/src/components/Widget.html";
        js "/work/demo.html/src/components/Widget.html";
        js "/work/demo.html/components/Widget.html" ]
  /\ import_module demo_html (js "/work/demo.html/src/components/Widget.js")
     = Some widget
  /\ replace_first (js ".html") (js ".js")
       (js "/work/demo.html/src/components/Widget.html")
     = js "/work/demo.js/src/components/Widget.html"
  /\ loadComponent demo_html (js "Widget") (js "/work/demo.html/src")
       (js "/work/demo.html") [] = None
  /\ loadComponent demo (js "Widget") (js "/work/demo/src") (js "/work/demo") []
     = Some (js "<b>widget</b>").
Proof. repeat split; vm_compute; reflexivity. Qed.

(** ** Binding *)

(** [{{ key }}], whatever its inner white space, is matched whole by the
    regex built for [key]. *)
Lemma exec_placeholder_key (key w1 w2 post : str) :
  forallb is_space w1 = true -> forallb is_space w2 = true ->
  key <> [] -> stops is_space key = true ->
  exec_at (placeholderRegex key) (placeholder w1 key w2 ++ post) =
  Some (MkMatch (placeholder w1 key w2) [] post).
Proof.
  intros H1 H2 Hne Hk. unfold placeholder, exec_at, placeholderRegex.
  rewrite <- !app_assoc. rewrite run_lit.
  apply run_rep_all; [assumption| |lia|].
  { destruct key; [congruence|exact Hk]. }
  rewrite run_lit.
  apply run_rep_all; [assumption|reflexivity|lia|].
  rewrite run_lit. cbn [run]. now rewrite <- !app_assoc.
Qed.

(** What replacing [{{ key }}] does at its first occurrence: the
    substitution of the value, not the value. *)
Lemma replaceAll_placeholder (key value pre w1 w2 post : str) :
  forallb (is_not "{"%char) pre = true ->
  forallb is_space w1 = true -> forallb is_space w2 = true ->
  key <> [] -> stops is_space key = true ->
  replaceAll (placeholderRegex key) value (pre ++ placeholder w1 key w2 ++ post) =
  pre ++ getSubstitution (placeholder w1 key w2) pre post value
      ++ replace_scan (placeholderRegex key) value 0
           (pre ++ placeholder w1 key w2) post.
Proof.
  intros Hpre H1 H2 Hne Hk. unfold replaceAll.
  unfold placeholderRegex at 1. change (js "{{") with ["{"%char; "{"%char].
  rewrite replace_scan_past by assumption.
  change (Lit ["{"%char; "{"%char] :: _) with (placeholderRegex key).
  cbn [app]. f_equal.
  pose proof (exec_placeholder_key key w1 w2 post H1 H2 Hne Hk) as E.
  remember (placeholder w1 key w2) as ph eqn:Eph.
  assert (Hph : exists u, ph = "{"%char :: u).
  { subst ph. unfold placeholder. cbn [js list_ascii_of_string app]. eauto. }
  destruct Hph as [u ->].
  change (("{"%char :: u) ++ post) with ("{"%char :: u ++ post) in *.
  now rewrite (replace_scan_hit _ _ _ _ _ _ _ E eq_refl eq_refl).
Qed.

(** A value without dollars is spliced as it is. *)
Lemma replaceAll_placeholder_plain (key value pre w1 w2 post : str) :
  forallb (is_not "{"%char) pre = true ->
  forallb is_space w1 = true -> forallb is_space w2 = true ->
  key <> [] -> stops is_space key = true ->
  avoids ["$"%char] value = true ->
  replaceAll (placeholderRegex key) value (pre ++ placeholder w1 key w2 ++ post) =
  pre ++ value ++ replaceAll (placeholderRegex key) value post.
Proof.
  intros Hpre H1 H2 Hne Hk Hv.
  rewrite replaceAll_placeholder by assumption.
  rewrite getSubstitution_plain by assumption.
  unfold replaceAll. do 2 f_equal. now apply replace_scan_before.
Qed.

(** Content without brace has no placeholder. *)
Lemma replaceAll_without_brace (key value s : str) :
  forallb (is_not "{"%char) s = true ->
  replaceAll (placeholderRegex key) value s = s.
Proof.
  intros H. unfold replaceAll, placeholderRegex.
  change (js "{{") with ["{"%char; "{"%char].
  rewrite <- (app_nil_r s) at 1.
  rewrite replace_scan_past by assumption.
  cbn [replace_scan exec_at run strip_prefix]. now rewrite app_nil_r.
Qed.

(** Children without dollars, in a template with one placeholder for them
    and no prop: they stand where the placeholder stood. *)
Lemma bindChildren_plain (pre w1 w2 post children : str) :
  forallb (is_not "{"%char) pre = true -> forallb (is_not "{"%char) post = true ->
  forallb is_space w1 = true -> forallb is_space w2 = true ->
  avoids ["$"%char] children = true ->
  bindChildren (pre ++ placeholder w1 (js "children") w2 ++ post) children [] =
  pre ++ children ++ post.
Proof.
  intros Hpre Hpost H1 H2 Hc. unfold bindChildren. cbn [entries index_entries
    map filter app fold_left].
  rewrite replaceAll_placeholder_plain;
    [|assumption|assumption|assumption|discriminate|reflexivity|assumption].
  now rewrite replaceAll_without_brace.
Qed.

(** The binder of the child-bearing form is the props bound, in the order
    of [Object.entries], in the content in which the children have been
    bound. *)
Lemma bindChildren_order (content children : str) (attrs : obj) :
  bindChildren content children attrs =
  fold_left bindProp (entries attrs)
    (replaceAll (placeholderRegex (js "children")) children content).
Proof. reflexivity. Qed.

(** C5. The example of the specification holds, and the children come
    before the props; but the children are the replacement string of a
    [replace], not text: of [$$$] two dollars are left by the binder, and
    one by the splice of the compiled component into the page. *)
Theorem C5_children_with_dollars_are_rewritten :
  bindChildren (js "<div>{{ title }}{{ children }}</div>") (js "<p>Z</p>")
    [(js "title", js "T")] = js "<div>T<p>Z</p></div>"
  /\ compileHtml card 3 (card_page "<p>Z</p>") fx (Some fx)
     = Some (Ok (js "<div>T<p>Z</p></div>"))
  /\ bindChildren (js "<div>{{ title }}{{ children }}</div>")
       (js "<p>Price range: $$$</p>") [(js "title", js "T")]
     = js "<div>T<p>Price range: $$</p></div>"
  /\ compileHtml card 3 (card_page "<p>Price range: $$$</p>") fx (Some fx)
     = Some (Ok (js "<div>T<p>Price range: $</p></div>")).
Proof. repeat split; vm_compute; reflexivity. Qed.

(** C6. The example of the specification holds: the class of the selected
    variant, and an empty class without a variant or with an unknown one;
    but a prop value is the replacement string of a [replace]: the text
    [$$$] comes out as one dollar. *)
Theorem C6_prop_values_with_dollars_are_rewritten :
  compileHtml link 3
    (js "<Component " ++ attr "src" "Link" ++ js " " ++ attr "variant" "primary"
        ++ js " " ++ attr "text" "Go" ++ js " />") fx (Some fx)
    = Some (Ok (link_markup "btn-primary" "Go"))
  /\ compileHtml link 3
       (js "<Component " ++ attr "src" "Link" ++ js " " ++ attr "text" "Go"
           ++ js " />") fx (Some fx)
     = Some (Ok (link_markup "" "Go"))
  /\ compileHtml link 3
       (js "<Component " ++ attr "src" "Link" ++ js " " ++ attr "variant" "huge"
           ++ js " " ++ attr "text" "Go" ++ js " />") fx (Some fx)
     = Some (Ok (link_markup "" "Go"))
  /\ bindSelfClosing (js "<a>{{ text }}</a>")
       [(js "src", js "Link"); (js "text", js "$$$")] = Ok (js "<a>$$</a>")
  /\ compileHtml link 3
       (js "<Component " ++ attr "src" "Link" ++ js " " ++ attr "variant" "primary"
           ++ js " " ++ attr "text" "$$$" ++ js " />") fx (Some fx)
     = Some (Ok (link_markup "btn-primary" "$")).
Proof. repeat split; vm_compute; reflexivity. Qed.

(** ** Variants *)

Lemma search_absent (l : str) (r : regex) (s : str) :
  includes l s = false -> search (Lit l :: r) s = None.
Proof.
  induction s as [|a s IH]; intros H.
  - simpl in *. unfold exec_at. simpl.
    destruct (strip_prefix l []); [discriminate|reflexivity].
  - apply includes_cons in H as [Hp Hs].
    cbn [search]. unfold exec_at. cbn [run]. rewrite Hp. auto.
Qed.

(** Content without a comment has no variants. *)
Lemma parseVariants_without_directive (html : str) :
  includes (js "<!--") html = false -> parseVariants html = [].
Proof.
  intros H. unfold parseVariants, variantsRegex.
  now rewrite search_absent.
Qed.

Lemma split_on_nonempty (sep : ascii) (s : str) : split_on sep s <> [].
Proof.
  destruct s as [|a s]; cbn [split_on]; [discriminate|].
  destruct (Ascii.eqb a sep); [discriminate|].
  destruct (split_on sep s); discriminate.
Qed.

Lemma join_split_on (sep : ascii) (s : str) : join [sep] (split_on sep s) = s.
Proof.
  induction s as [|a s IH]; [reflexivity|].
  cbn [split_on]. pose proof (split_on_nonempty sep s) as Hne.
  destruct (Ascii.eqb_spec a sep) as [->|_].
  - destruct (split_on sep s) as [|p ps]; [congruence|].
    cbn [join app] in *. now rewrite IH.
  - destruct (split_on sep s) as [|p ps]; [congruence|].
    destruct ps as [|q ps]; cbn [join app] in *; now rewrite <- IH.
Qed.

Lemma split_on_first (sep : ascii) (name classes : str) :
  forallb (is_not sep) name = true ->
  split_on sep (name ++ sep :: classes) = name :: split_on sep classes.
Proof.
  induction name as [|a name IH]; intros H.
  - cbn [app split_on]. now rewrite Ascii.eqb_refl.
  - simpl in H. apply andb_true_iff in H as [Ha Hn].
    unfold is_not in Ha. apply negb_true_iff in Ha.
    cbn [app split_on]. rewrite Ha. now rewrite IH.
Qed.

Lemma split_on_absent (sep : ascii) (s : str) :
  forallb (is_not sep) s = true -> split_on sep s = [s].
Proof.
  induction s as [|a s IH]; intros H; [reflexivity|].
  simpl in H. apply andb_true_iff in H as [Ha Hs].
  unfold is_not in Ha. apply negb_true_iff in Ha.
  cbn [split_on]. rewrite Ha. now rewrite IH.
Qed.

(** A pair is split at its first [=]: what follows it, other [=]
    included, is the class list, and the test is on the two parts as they
    are, before they are trimmed. *)
Lemma addVariant_pair (variants : obj) (name classes : str) :
  forallb (is_not "="%char) name = true ->
  addVariant variants (name ++ "="%char :: classes) =
  if truthy name && truthy classes
  then obj_set (trim name) (trim classes) variants
  else variants.
Proof.
  intros H. unfold addVariant. rewrite split_on_first by assumption.
  change (js "=") with ["="%char]. now rewrite join_split_on.
Qed.

(** A pair without [=] is dropped. *)
Lemma addVariant_without_equals (variants : obj) (pair : str) :
  forallb (is_not "="%char) pair = true -> addVariant variants pair = variants.
Proof.
  intros H. unfold addVariant. rewrite split_on_absent by assumption.
  cbn [join truthy]. now rewrite andb_false_r.
Qed.

(** C7. The first directive only is read, a pair is split at its first
    [=], and a pair without name or without classes is dropped; but a
    name or a class list of white space only is not empty when tested,
    and is kept, trimmed to the empty string. *)
Theorem C7_blank_names_and_classes_are_kept :
  parseVariants (js "<!-- variants: a=x=y --> <!-- variants: b=z -->")
    = [(js "a", js "x=y")]
  /\ parseVariants (js "<!-- variants: a=b,, =,c, d= -->") = [(js "a", js "b")]
  /\ parseVariants (js "<button>Click</button>") = []
  /\ parseVariants (js "<!-- variants: primary=btn-primary, =btn, ghost=btn-ghost -->")
     = [(js "primary", js "btn-primary"); ([], js "btn"); (js "ghost", js "btn-ghost")]
  /\ parseVariants (js "<!-- variants: primary=btn-primary, plain= , ghost=btn-ghost -->")
     = [(js "primary", js "btn-primary"); (js "plain", []); (js "ghost", js "btn-ghost")].
Proof. repeat split; vm_compute; reflexivity. Qed.

(** ** The tests of the repository, on the embedding

    [tests/utils.test.js] and [tests/plugin.test.js]. *)

Example test_parse_multiple_attributes :
  parseSelfClosingComponentTag
    (js "<Component " ++ attr "src" "Button" ++ js " " ++ attr "text" "Click Me"
        ++ js " " ++ attr "variant" "primary" ++ js " />")
  = Some [(js "src", js "Button"); (js "text", js "Click Me");
          (js "variant", js "primary")].
Proof. vm_compute. reflexivity. Qed.

Example test_parse_hyphenated_attributes :
  parseSelfClosingComponentTag
    (js "<Component " ++ attr "src" "a/b" ++ js " " ++ attr "data-test" "x" ++ js " />")
  = Some [(js "src", js "a/b"); (js "data-test", js "x")].
Proof. vm_compute. reflexivity. Qed.

Example test_parse_invalid_tags :
  parseSelfClosingComponentTag (js "<div class=test>content</div>") = None
  /\ parseSelfClosingComponentTag
       (js "<Component " ++ attr "name" "Card" ++ js ">content</Component>") = None
  /\ parseComponentTag (srcTag []) = Some [(js "src", [])].
Proof. repeat split; vm_compute; reflexivity. Qed.

Example test_variants_extra_whitespace :
  parseVariants
    (js "<!--   variants:   primary=btn-primary  ,  secondary=btn-secondary   -->")
  = [(js "primary", js "btn-primary"); (js "secondary", js "btn-secondary")].
Proof. vm_compute. reflexivity. Qed.

Example test_variants_multiple_classes :
  parseVariants (js "<!-- variants: primary=btn btn-primary btn-lg --><button>Click</button>")
  = [(js "primary", js "btn btn-primary btn-lg")].
Proof. vm_compute. reflexivity. Qed.

Example test_clean_various_whitespace :
  cleanUnusedPlaceholders (js "<div>{{one}} {{ two  }} {{   three   }}</div>")
  = js "<div>  </div>".
Proof. vm_compute. reflexivity. Qed.

Example test_normalize_mixed_slashes :
  normalizePath (js "C:\Users/test\project/file.js") = js "C:/Users/test/project/file.js".
Proof. vm_compute. reflexivity. Qed.

Example test_compile_header :
  compileHtml fixtures 2
    (js "<Component " ++ attr "src" "Header" ++ js " " ++ attr "title" "X"
        ++ js " " ++ attr "nav" "Y" ++ js " />") fx (Some fx)
  = Some (Ok (js "<header><h1>X</h1><nav>Y</nav></header>")).
Proof. vm_compute. reflexivity. Qed.

Example test_compile_missing_component :
  compileHtml fixtures 2 (srcTag (js "NonExistent")) fx (Some fx)
  = Some (Ok (notFound (js "NonExistent"))).
Proof. vm_compute. reflexivity. Qed.

Example test_compile_nested_in_children :
  compileHtml fixtures 3
    (js "<Component " ++ attr "name" "Card" ++ js " " ++ attr "title" "Container"
        ++ js "> <Component " ++ attr "src" "main/Button" ++ js " "
        ++ attr "text" "Nested Button" ++ js " " ++ attr "variant" "secondary"
        ++ js " /> </Component>") fx (Some fx)
  = Some (Ok (js "<div class=" ++ quoted (js "card")
                 ++ js "><h3>Container</h3><div class=" ++ quoted (js "card-body")
                 ++ js "><!-- variants: primary=btn-primary, secondary=btn-secondary -->"
                 ++ ["010"%char] ++ js "<button class=" ++ quoted (js "btn-secondary")
                 ++ js ">Nested Button</button></div></div>")).
Proof. vm_compute. reflexivity. Qed.

(** A component that includes itself is compiled within no depth. *)
Example self_reference_does_not_return :
  forall d : nat,
    compileHtml (mem_host [(js "/fx/components/Loop.html", srcTag (js "Loop"))] [])
      d (srcTag (js "Loop")) fx (Some fx) = None.
Proof.
  induction d as [|d IH]; [reflexivity|].
  cbn [compileHtml].
  remember (compileHtml _ d) as c eqn:Ec. clear Ec.
  vm_compute in IH. vm_compute. now rewrite IH.
Qed.

(** The marker of the child-bearing form. *)
Example child_bearing_component_not_found :
  compileHtml bare 1
    (js "<main><Component " ++ attr "name" "Ghost" ++ js "> boo </Component></main>")
    fx None
  = Some (Ok (js "<main>" ++ notFound (js "Ghost") ++ js "</main>")).
Proof. vm_compute. reflexivity. Qed.

(** * Further properties *)

(** ** normalizePath *)

Lemma replace_scan_backslash (s : str) : forall before : str,
  replace_scan backslashRegex (js "/") 0 before s = map to_slash s.
Proof.
  induction s as [|a s IH]; intros before; [reflexivity|].
  unfold replace_scan; fold replace_scan.
  unfold exec_at, backslashRegex. cbn [run strip_prefix js list_ascii_of_string map].
  unfold to_slash. rewrite (eqb_sym a).
  destruct (Ascii.eqb "\" a); cbn [m0 rest app getSubstitution length map].
  - change (Ascii.eqb "/" "$") with false. cbn iota. cbn [app].
    f_equal. exact (IH (before ++ [a])).
  - f_equal. exact (IH (before ++ [a])).
Qed.

Lemma to_slash_idempotent (c : ascii) : to_slash (to_slash c) = to_slash c.
Proof.
  unfold to_slash. destruct (Ascii.eqb c "\") eqn:E; [reflexivity|].
  now rewrite E.
Qed.

Lemma normalizePath_twice (p : str) :
  normalizePath (normalizePath p) = normalizePath p.
Proof.
  unfold normalizePath, replaceAll. rewrite !replace_scan_backslash.
  rewrite map_map. apply map_ext. apply to_slash_idempotent.
Qed.

(** X1. [normalizePath] changes every backslash into a slash and nothing
    else, character by character: lengths and positions are kept. *)
Theorem normalizePath_maps_backslashes (p : str) :
  normalizePath p = map to_slash p.
Proof. apply replace_scan_backslash. Qed.

(** X2. No backslash is left in a normalized path, and normalizing it
    again changes nothing. *)
Theorem normalizePath_idempotent (p : str) :
  forallb (is_not "\"%char) (normalizePath p) = true
  /\ normalizePath (normalizePath p) = normalizePath p.
Proof.
  split; [|apply normalizePath_twice].
  unfold normalizePath, replaceAll. rewrite replace_scan_backslash.
  induction p as [|a p IH]; [reflexivity|].
  cbn [map forallb]. rewrite IH, andb_true_r.
  unfold is_not, to_slash. destruct (Ascii.eqb a "\") eqn:E; [reflexivity|].
  now rewrite E.
Qed.

(** ** loadComponent *)

(** X3. A component name written with backslashes and the same name
    written with slashes resolve alike. *)
Theorem loadComponent_backslash_name (h : host) (name root projectRoot : str)
    (attrs : obj) :
  loadComponent h (normalizePath name) root projectRoot attrs =
  loadComponent h name root projectRoot attrs.
Proof.
  unfold loadComponent.
  change (replaceAll backslashRegex (js "/") (normalizePath name))
    with (normalizePath (normalizePath name)).
  now rewrite normalizePath_twice.
Qed.








(** ** cleanUnusedPlaceholders *)

Lemma subseq_refl (s : str) : subseq s s.
Proof. induction s; constructor; assumption. Qed.

Lemma replace_scan_empty_subseq (r : regex) (s : str) :
  forall (skip : nat) (before : str), subseq (replace_scan r [] skip before s) s.
Proof.
  induction s as [|a s IH]; intros skip before.
  - destruct skip; cbn [replace_scan]; [|constructor].
    destruct (exec_at r []); cbn [getSubstitution app]; constructor.
  - destruct skip as [|n]; cbn [replace_scan].
    + destruct (exec_at r (a :: s)) as [m|]; cbn [getSubstitution app].
      * destruct (m0 m); [apply subseq_keep|apply subseq_drop]; apply IH.
      * apply subseq_keep, IH.
    + apply subseq_drop, IH.
Qed.

(** X5. Cleaning only leaves characters out: the cleaned document is the
    document with some characters removed, none added, moved or changed. *)
Theorem cleanUnusedPlaceholders_only_removes (html : str) :
  subseq (cleanUnusedPlaceholders html) html.
Proof. apply replace_scan_empty_subseq. Qed.

Lemma replace_scan_absent (l : str) (r : regex) (t : str) (s : str) :
  includes l s = false ->
  forall before : str, replace_scan (Lit l :: r) t 0 before s = s.
Proof.
  induction s as [|a s IH]; intros H before.
  - cbn [replace_scan]. unfold exec_at. cbn [run].
    cbn [includes] in H. destruct (strip_prefix l []); [discriminate|reflexivity].
  - apply includes_cons in H. destruct H as [H1 H2].
    rewrite replace_scan_miss.
    + f_equal. now apply IH.
    + unfold exec_at. cbn [run]. now rewrite H1.
Qed.

(** X6. A document in which [{{] does not occur is left as it is. *)
Theorem cleanUnusedPlaceholders_without_braces (html : str) :
  includes (js "{{") html = false -> cleanUnusedPlaceholders html = html.
Proof. intros H. now apply replace_scan_absent. Qed.

Lemma cleanUnusedPlaceholders_without_braces_witness :
  includes (js "{{") (js "<p>{ a } ${b}</p>") = false
  /\ cleanUnusedPlaceholders (js "<p>{ a } ${b}</p>") = js "<p>{ a } ${b}</p>".
Proof.
  split; [reflexivity|].
  apply (cleanUnusedPlaceholders_without_braces (js "<p>{ a } ${b}</p>")).
  reflexivity.
Defined.

Lemma word_not_brace (name : str) :
  forallb is_word name = true -> forallb (is_not "{"%char) name = true.
Proof.
  apply forallb_impl. intros a Ha. apply name_char_not_brace.
  unfold is_word_or_hyphen. now rewrite Ha.
Qed.

(** X7. One cleaning pass is not a fixed point: the text around a removed
    placeholder can close up into a placeholder, which a second pass
    removes. *)
Theorem cleanUnusedPlaceholders_can_leave_placeholder (name : str) :
  name <> [] -> forallb is_word name = true ->
  cleanUnusedPlaceholders (js "{{" ++ placeholder [] name [] ++ name ++ js "}}")
    = placeholder [] name []
  /\ cleanUnusedPlaceholders (placeholder [] name []) = [].
Proof.
  intros Hne Hw.
  assert (Hwh : forallb is_word_or_hyphen name = true).
  { revert Hw. apply forallb_impl. intros a Ha. unfold is_word_or_hyphen.
    now rewrite Ha. }
  assert (Hpost : cleanUnusedPlaceholders (name ++ js "}}") = name ++ js "}}").
  { apply replace_scan_absent.
    change (js "{{") with ["{"%char; "{"%char].
    rewrite includes_past; [reflexivity|now apply word_not_brace]. }
  split.
  - unfold cleanUnusedPlaceholders, replaceAll.
    change (js "{{" ++ placeholder [] name [] ++ name ++ js "}}")
      with (js "{{" ++ js "{{" ++ (name ++ js "}}") ++ name ++ js "}}").
    rewrite (cleanup_before_placeholder _ (js "{{") 0 [] []) by apply Nat.le_0_l.
    change (replace_scan anyPlaceholderRegex [] 0 [] (js "{{")) with (js "{{").
    change (replace_scan anyPlaceholderRegex [] 0 []
              (js "{{" ++ (name ++ js "}}") ++ name ++ js "}}"))
      with (cleanUnusedPlaceholders ([] ++ placeholder [] name [] ++ name ++ js "}}")).
    rewrite cleanup_after_plain_text; try reflexivity; try assumption.
    rewrite Hw, Hpost. reflexivity.
  - rewrite <- (app_nil_r (placeholder [] name [])).
    change (placeholder [] name [] ++ [])
      with ([] ++ placeholder [] name [] ++ []).
    rewrite cleanup_after_plain_text; try reflexivity; try assumption.
    rewrite Hw. reflexivity.
Qed.

Lemma cleanUnusedPlaceholders_can_leave_placeholder_witness :
  js "title" <> []
  /\ forallb is_word (js "title") = true
  /\ cleanUnusedPlaceholders (js "{{{{title}}title}}") = js "{{title}}"
  /\ cleanUnusedPlaceholders (js "{{title}}") = [].
Proof.
  assert (H1 : js "title" <> []) by discriminate.
  assert (H2 : forallb is_word (js "title") = true) by reflexivity.
  split; [exact H1|]. split; [exact H2|].
  exact (cleanUnusedPlaceholders_can_leave_placeholder (js "title") H1 H2).
Defined.

(** ** compileHtml *)

Lemma effectiveProjectRoot_twice (h : host) (root : str) (projectRoot : option str) :
  effectiveProjectRoot h root (Some (effectiveProjectRoot h root projectRoot)) =
  effectiveProjectRoot h root projectRoot.
Proof.
  unfold effectiveProjectRoot.
  destruct projectRoot as [p|].
  - destruct (truthy p) eqn:E; [now rewrite E|].
    now destruct (truthy (path_dirname h root)).
  - now destruct (truthy (path_dirname h root)).
Qed.

Lemma bindSelfClosing_srcTag (name : str) :
  forallb (is_not "{"%char) name = true ->
  bindSelfClosing (srcTag name) [(js "src", name)] = Ok (srcTag name).
Proof.
  intros H. unfold bindSelfClosing.
  change (entries [(js "src", name)]) with [(js "src", name)].
  cbn [fold_left]. unfold bindSelfClosingProp.
  change (str_eqb (js "src") (js "variant")) with false.
  change (str_eqb (js "src") (js "src")) with true.
  cbn [andb negb]. f_equal. apply replaceAll_without_brace.
  unfold srcTag, quoted. rewrite !forallb_app. cbn [forallb].
  rewrite forallb_app, H. reflexivity.
Qed.

(** X8. A component whose markup is a reference to itself: compiling a page
    that includes it does not return, whatever depth of recursion is
    allowed; the compiler has no guard against cycles. *)
Theorem self_including_component_never_returns :
  forall (h : host) (root : str) (name pre post : str),
    name <> [] ->
    avoids [dq; "<"%char; ">"%char; "{"%char] name = true ->
    includes (js "<C") pre = false ->
    includes (js "<C") post = false ->
    forall (depth : nat) (projectRoot : option str),
      loadComponent h name root (effectiveProjectRoot h root projectRoot)
        [(js "src", name)] = Some (srcTag name) ->
      compileHtml h depth (pre ++ srcTag name ++ post) root projectRoot = None.
Proof.
  intros h root name pre0 post0 Hne Hn Hpre0 Hpost0 depth.
  assert (Hlt : forallb (is_not "<"%char) name = true)
    by (apply (avoids_in [dq; "<"%char; ">"%char; "{"%char]); simpl; auto).
  assert (Hbr : forallb (is_not "{"%char) name = true)
    by (apply (avoids_in [dq; "<"%char; ">"%char; "{"%char]); simpl; auto).
  assert (Hltgt : avoids ["<"%char; ">"%char] name = true).
  { revert Hn. apply avoids_incl. intros c Hc. simpl in *. intuition. }
  assert (Hdqgt : avoids [dq; ">"%char] name = true).
  { revert Hn. apply avoids_incl. intros c Hc. simpl in *. intuition. }
  revert pre0 post0 Hpre0 Hpost0.
  induction depth as [|d IH]; intros pre post Hpre Hpost projectRoot Hload;
    [reflexivity|].
  cbn [compileHtml]. unfold processComponentsWithChildren.
  rewrite matchAll_children_srcTag by assumption. cbn [fold_left].
  unfold processSelfClosingComponents.
  rewrite matchAll_selfClosing_srcTag by assumption.
  cbn [fold_left]. unfold selfClosingStep. cbn [m0].
  rewrite parseSelfClosingComponentTag_srcTag by assumption.
  change (obj_get (js "src") [(js "src", name)]) with (Some name).
  destruct name as [|i I]; [congruence|]. cbn [truthy negb].
  rewrite Hload, bindSelfClosing_srcTag by assumption.
  rewrite <- (app_nil_r (srcTag (i :: I))).
  change (srcTag (i :: I) ++ []) with ([] ++ srcTag (i :: I) ++ []).
  rewrite IH; try reflexivity.
  now rewrite effectiveProjectRoot_twice.
Qed.

Lemma self_including_component_never_returns_witness :
  js "Loop" <> []
  /\ avoids [dq; "<"%char; ">"%char; "{"%char] (js "Loop") = true
  /\ includes (js "<C") (js "<main>") = false
  /\ includes (js "<C") (js "</main>") = false
  /\ loadComponent (mem_host [(js "/fx/components/Loop.html", srcTag (js "Loop"))] [])
       (js "Loop") fx
       (effectiveProjectRoot
          (mem_host [(js "/fx/components/Loop.html", srcTag (js "Loop"))] [])
          fx None)
       [(js "src", js "Loop")] = Some (srcTag (js "Loop"))
  /\ compileHtml (mem_host [(js "/fx/components/Loop.html", srcTag (js "Loop"))] [])
       1000 (js "<main>" ++ srcTag (js "Loop") ++ js "</main>") fx None = None.
Proof.
  assert (H1 : js "Loop" <> []) by discriminate.
  assert (H2 : avoids [dq; "<"%char; ">"%char; "{"%char] (js "Loop") = true)
    by reflexivity.
  assert (H3 : includes (js "<C") (js "<main>") = false) by reflexivity.
  assert (H4 : includes (js "<C") (js "</main>") = false) by reflexivity.
  assert (H5 : loadComponent
                 (mem_host [(js "/fx/components/Loop.html", srcTag (js "Loop"))] [])
                 (js "Loop") fx
                 (effectiveProjectRoot
                    (mem_host [(js "/fx/components/Loop.html", srcTag (js "Loop"))] [])
                    fx None)
                 [(js "src", js "Loop")] = Some (srcTag (js "Loop")))
    by (vm_compute; reflexivity).
  repeat (split; [assumption|]).
  exact (self_including_component_never_returns _ fx (js "Loop") _ _
           H1 H2 H3 H4 1000 None H5).
Defined.

(** X9. A document in which [<Component] does not occur is compiled to
    itself, on every host and whatever the files of the project. *)
Theorem compileHtml_plain_document (h : host) (d : nat) (html root : str)
    (projectRoot : option str) :
  includes (js "<Component") html = false ->
  compileHtml h (S d) html root projectRoot = Some (Ok html).
Proof. apply compileHtml_resolved. Qed.

Lemma compileHtml_plain_document_witness :
  includes (js "<Component") (js "<main><p>{{ a }}</p></main>") = false
  /\ compileHtml bare 1 (js "<main><p>{{ a }}</p></main>") fx None
     = Some (Ok (js "<main><p>{{ a }}</p></main>")).
Proof.
  split; [reflexivity|].
  apply (compileHtml_plain_document bare 0 (js "<main><p>{{ a }}</p></main>") fx None).
  reflexivity.
Defined.

(** ** The attribute parsers *)

Lemma exec_attrRegex_attr (cls : ascii -> bool) (k v tail : str) :
  cls "="%char = false -> k <> [] -> forallb cls k = true ->
  forallb (is_not dq) v = true ->
  exec_at (attrRegex cls) (k ++ (js "=" ++ [dq]) ++ v ++ [dq] ++ tail) =
  Some (MkMatch (k ++ (js "=" ++ [dq]) ++ v ++ [dq]) [k; v] tail).
Proof.
  intros Heq Hne Hk Hv. unfold exec_at, attrRegex.
  apply run_rep_all; [assumption | cbn [stops app js list_ascii_of_string]; now rewrite Heq | | ].
  { destruct k; [congruence|cbn; lia]. }
  rewrite run_lit.
  apply run_rep_all; [assumption | reflexivity | apply Nat.le_0_l | ].
  rewrite run_lit. cbn [run app]. now rewrite <- !app_assoc.
Qed.

Lemma exec_attrRegex_stop (cls : ascii -> bool) (a : ascii) (s : str) :
  cls a = false -> exec_at (attrRegex cls) (a :: s) = None.
Proof.
  intros H. unfold exec_at, attrRegex. cbn [run rep rep_greedy]. now rewrite H.
Qed.

Lemma exec_attrRegex_end (cls : ascii -> bool) : exec_at (attrRegex cls) [] = None.
Proof. reflexivity. Qed.

Lemma scan_rendered (cls : ascii -> bool) (l : list (str * str)) :
  cls "="%char = false -> cls " "%char = false ->
  forallb (fun e => truthy (fst e) && forallb cls (fst e)
                    && forallb (is_not dq) (snd e)) l = true ->
  map (fun m => (cap 1 m, cap 2 m))
      (scan (attrRegex cls) 0 (concat (map (fun e => renderAttr e ++ js " ") l)))
  = l.
Proof.
  intros Heq Hsp. induction l as [|[k v] l IH]; intros Hl.
  - reflexivity.
  - cbn [forallb fst snd] in Hl.
    apply andb_true_iff in Hl as [Hkv Hl].
    apply andb_true_iff in Hkv as [Hk Hv].
    apply andb_true_iff in Hk as [Hne Hk].
    cbn [map concat]. unfold renderAttr at 1. cbn [fst snd]. unfold quoted.
    set (R := concat (map (fun e => renderAttr e ++ js " ") l)) in *.
    destruct k as [|a k]; [discriminate|].
    assert (E : exec_at (attrRegex cls)
                  ((a :: k) ++ (js "=" ++ [dq]) ++ v ++ [dq] ++ js " " ++ R) =
                Some (MkMatch ((a :: k) ++ (js "=" ++ [dq]) ++ v ++ [dq])
                              [a :: k; v] (js " " ++ R)))
      by (apply exec_attrRegex_attr; [assumption|discriminate|assumption|assumption]).
    assert (Es : (((a :: k) ++ js "=" ++ dq :: v ++ [dq]) ++ js " ") ++ R =
                 a :: (k ++ (js "=" ++ [dq]) ++ v ++ [dq]) ++ js " " ++ R).
    { cbn [app js list_ascii_of_string]. rewrite <- !app_assoc.
      cbn [app]. rewrite <- !app_assoc. reflexivity. }
    rewrite Es.
    assert (Es' : (a :: k) ++ (js "=" ++ [dq]) ++ v ++ [dq] ++ js " " ++ R =
                  a :: (k ++ (js "=" ++ [dq]) ++ v ++ [dq]) ++ js " " ++ R).
    { cbn [app js list_ascii_of_string]. rewrite <- !app_assoc.
      cbn [app]. rewrite <- !app_assoc. reflexivity. }
    rewrite Es' in E.
    rewrite (scan_hit _ _ _ _ (k ++ (js "=" ++ [dq]) ++ v ++ [dq]) E eq_refl).
    rewrite scan_skip.
    change (js " " ++ R) with (" "%char :: R).
    rewrite scan_miss by (now apply exec_attrRegex_stop).
    cbn [map]. unfold cap at 1 2. cbn [caps nth Nat.sub].
    f_equal. now apply IH.
Qed.

Lemma collectAttrs_rendered (cls : ascii -> bool) (l : list (str * str)) :
  cls "="%char = false -> cls " "%char = false ->
  forallb (fun e => truthy (fst e) && forallb cls (fst e)
                    && forallb (is_not dq) (snd e)) l = true ->
  collectAttrs cls (concat (map (fun e => renderAttr e ++ js " ") l)) = assignAll l.
Proof.
  intros Heq Hsp Hl. unfold collectAttrs, matchAll, assignAll.
  rewrite <- (scan_rendered cls l Heq Hsp Hl) at 2.
  generalize (scan (attrRegex cls) 0 (concat (map (fun e => renderAttr e ++ js " ") l))).
  generalize (@nil (str * str)).
  intros o ms. revert o. induction ms as [|m ms IH]; intros o; [reflexivity|].
  cbn [fold_left map fst snd]. apply IH.
Qed.

Lemma name_char_not_space (a : ascii) :
  is_word_or_hyphen a = true -> is_space a = false.
Proof. ascii_cases a. Qed.

Lemma name_char_not_gt (a : ascii) :
  is_word_or_hyphen a = true -> is_not ">"%char a = true.
Proof. ascii_cases a. Qed.

Lemma rendered_no_gt (l : list (str * str)) :
  forallb wellFormedAttr l = true ->
  forallb (is_not ">"%char) (concat (map (fun e => renderAttr e ++ js " ") l)) = true.
Proof.
  induction l as [|[k v] l IH]; intros Hl; [reflexivity|].
  cbn [forallb] in Hl. apply andb_true_iff in Hl as [He Hl].
  unfold wellFormedAttr in He. cbn [fst snd] in He.
  apply andb_true_iff in He as [Hk Hv]. apply andb_true_iff in Hk as [_ Hk].
  cbn [map concat]. rewrite forallb_app, IH by assumption.
  rewrite andb_true_r. unfold renderAttr, quoted. cbn [fst snd].
  rewrite !forallb_app. cbn [forallb]. rewrite forallb_app. cbn [forallb].
  rewrite (forallb_impl _ _ _ name_char_not_gt Hk).
  rewrite (avoids_in [dq; ">"%char] ">"%char v) by (simpl; auto).
  reflexivity.
Qed.

Lemma exec_tagRegex_body (a : ascii) (body : str) :
  is_space a = false -> forallb (is_not ">"%char) (a :: body) = true ->
  exec_at tagRegex (js "<Component " ++ (a :: body) ++ js "/>") =
  Some (MkMatch (js "<Component " ++ (a :: body) ++ js "/>") [a :: body] []).
Proof.
  intros Ha Hb. unfold exec_at, tagRegex.
  change (js "<Component " ++ (a :: body) ++ js "/>")
    with (js "<Component" ++ [" "%char] ++ (a :: body) ++ "/"%char :: [">"%char]).
  rewrite run_lit.
  apply run_rep_all;
    [reflexivity | cbn [stops app]; now rewrite Ha | cbn; lia | ].
  apply run_rep_back;
    [assumption | reflexivity | reflexivity | cbn; lia | reflexivity | ].
  change ("/"%char :: [">"%char]) with ([] ++ js "/>" ++ []).
  apply run_rep_all; [reflexivity | reflexivity | cbn; lia | ].
  rewrite run_lit. cbn [run]. do 2 f_equal.
  rewrite <- !app_assoc. reflexivity.
Qed.

Lemma parse_rendered (l : list (str * str)) :
  l <> [] -> forallb wellFormedAttr l = true ->
  parseSelfClosingComponentTag (renderTag l) = Some (assignAll l).
Proof.
  intros Hne Hl. unfold parseSelfClosingComponentTag, renderTag.
  pose proof (rendered_no_gt l Hl) as Hgt.
  assert (Hl' : forallb (fun e => truthy (fst e) && forallb is_word_or_hyphen (fst e)
                                  && forallb (is_not dq) (snd e)) l = true).
  { clear Hne Hgt. induction l as [|e l IH]; [reflexivity|].
    cbn [forallb] in *. apply andb_true_iff in Hl as [He Hl].
    rewrite (IH Hl), andb_true_r. unfold wellFormedAttr in He.
    apply andb_true_iff in He as [He Hv].
    apply andb_true_iff. split; [exact He|].
    apply (avoids_in [dq; ">"%char]); simpl; auto. }
  pose proof (collectAttrs_rendered is_word_or_hyphen l eq_refl eq_refl Hl') as Hc.
  destruct l as [|[k v] l]; [congruence|].
  cbn [forallb] in Hl. apply andb_true_iff in Hl as [He _].
  unfold wellFormedAttr in He. cbn [fst snd] in He.
  apply andb_true_iff in He as [Hk _]. apply andb_true_iff in Hk as [Hk1 Hk2].
  destruct k as [|a k]; [discriminate|].
  cbn [forallb] in Hk2. apply andb_true_iff in Hk2 as [Ha _].
  cbn [map concat] in Hgt, Hc |- *.
  set (R := concat (map (fun e => renderAttr e ++ js " ") l)) in *.
  unfold renderAttr in Hgt, Hc |- *. cbn [fst snd app] in Hgt, Hc |- *.
  change (a :: (?x ++ R) ++ js "/>") with ((a :: x ++ R) ++ js "/>").
  rewrite (search_hit _ _ _ (exec_tagRegex_body a _ (name_char_not_space a Ha) Hgt)).
  unfold cap. cbn [caps nth Nat.sub]. now rewrite Hc.
Qed.

Lemma obj_get_absent (k : str) (o : obj) :
  ~ In k (map fst o) -> obj_get k o = None.
Proof.
  induction o as [|[k' v'] o IH]; intros H; [reflexivity|].
  cbn [obj_get]. cbn [map fst In] in H.
  destruct (str_eqb k k') eqn:E.
  - apply str_eqb_eq in E. subst. tauto.
  - apply IH. tauto.
Qed.

Lemma obj_define_fresh (k v : str) (o : obj) :
  ~ In k (map fst o) -> obj_define k v o = o ++ [(k, v)].
Proof.
  induction o as [|[k' v'] o IH]; intros H; [reflexivity|].
  cbn [obj_define app]. cbn [map fst In] in H.
  destruct (str_eqb k k') eqn:E.
  - apply str_eqb_eq in E. subst. tauto.
  - f_equal. apply IH. tauto.
Qed.

Lemma obj_set_fresh (k v : str) (o : obj) :
  ~ In k (map fst o) ->
  obj_set k v o = o ++ filter assignable [(k, v)].
Proof.
  intros H. unfold obj_set. rewrite obj_get_absent by assumption.
  cbn [filter]. unfold assignable. cbn [fst].
  destruct (str_eqb k (js "__proto__")); cbn [negb].
  - now rewrite app_nil_r.
  - now apply obj_define_fresh.
Qed.

Lemma assign_distinct (l : list (str * str)) : forall o : obj,
  NoDup (map fst o ++ map fst l) ->
  fold_left (fun o e => obj_set (fst e) (snd e) o) l o = o ++ filter assignable l.
Proof.
  induction l as [|[k v] l IH]; intros o H; [now rewrite app_nil_r|].
  cbn [fold_left fst snd]. cbn [map fst] in H.
  rewrite obj_set_fresh.
  - cbn [filter]. destruct (assignable (k, v)).
    + rewrite IH; [now rewrite <- app_assoc|].
      rewrite map_app. cbn [map fst]. now rewrite <- app_assoc.
    + rewrite app_nil_r. apply IH. now apply NoDup_remove_1 in H.
  - apply NoDup_remove_2 in H. intros Hin. apply H, in_or_app. now left.
Qed.

(** X10. Round trip of the self-closing form: parsing a tag written from a
    list of attributes gives the object built by assigning them in order
    (a repeated name keeps its first place and takes its last value): when
    the names are distinct, the list itself without the attribute
    [__proto__], which no assignment makes a property. *)
Theorem parseSelfClosingComponentTag_round_trip (l : list (str * str)) :
  l <> [] -> forallb wellFormedAttr l = true ->
  parseSelfClosingComponentTag (renderTag l) = Some (assignAll l)
  /\ (NoDup (map fst l) ->
      parseSelfClosingComponentTag (renderTag l) = Some (filter assignable l)).
Proof.
  intros Hne Hl. split; [now apply parse_rendered|].
  intros Hd. rewrite parse_rendered by assumption.
  unfold assignAll. now rewrite assign_distinct.
Qed.

Lemma parseSelfClosingComponentTag_round_trip_witness :
  [(js "src", js "main/Button"); (js "data-id", js "7"); (js "src", js "Card")] <> []
  /\ forallb wellFormedAttr
       [(js "src", js "main/Button"); (js "data-id", js "7"); (js "src", js "Card")]
     = true
  /\ parseSelfClosingComponentTag
       (js "<Component " ++ attr "src" "main/Button" ++ js " " ++ attr "data-id" "7"
           ++ js " " ++ attr "src" "Card" ++ js " />")
     = Some [(js "src", js "Card"); (js "data-id", js "7")].
Proof.
  assert (H1 : [(js "src", js "main/Button"); (js "data-id", js "7");
                (js "src", js "Card")] <> []) by discriminate.
  assert (H2 : forallb wellFormedAttr
                 [(js "src", js "main/Button"); (js "data-id", js "7");
                  (js "src", js "Card")] = true) by reflexivity.
  split; [exact H1|]. split; [exact H2|].
  exact (proj1 (parseSelfClosingComponentTag_round_trip _ H1 H2)).
Defined.

(** An attribute named [__proto__] is not a prop. *)
Example proto_attribute_is_dropped :
  parseSelfClosingComponentTag
    (js "<Component " ++ attr "src" "Card" ++ js " " ++ attr "__proto__" "x"
        ++ js " " ++ attr "title" "T" ++ js " />")
  = Some [(js "src", js "Card"); (js "title", js "T")]
  /\ parseAttributes (js " " ++ attr "__proto__" "x" ++ js " " ++ attr "title" "T")
     = [(js "title", js "T")].
Proof. split; vm_compute; reflexivity. Qed.

Lemma word_not_equals (a : ascii) :
  is_word a = true -> Ascii.eqb a "="%char = false.
Proof. ascii_cases a. Qed.

Lemma word_run_before_hyphen (x rest : str) :
  forallb is_word_or_hyphen x = true ->
  exists w t, x ++ "-"%char :: rest = w ++ "-"%char :: t
              /\ forallb is_word w = true.
Proof.
  intros Hx. destruct (forallb is_word x) eqn:E.
  - now exists x, rest.
  - destruct (first_hyphen x Hx E) as (n1 & n2 & -> & Hn1).
    exists n1, (n2 ++ "-"%char :: rest). split; [|assumption].
    now rewrite <- app_assoc.
Qed.

Lemma exec_attrRegex_word_hyphen (x rest : str) :
  forallb is_word_or_hyphen x = true ->
  exec_at (attrRegex is_word) (x ++ "-"%char :: rest) = None.
Proof.
  intros Hx. unfold exec_at, attrRegex.
  destruct (word_run_before_hyphen x rest Hx) as (w & t & -> & Hw).
  apply run_rep_none. intros u s' Hs Hu Hmin.
  symmetry in Hs.
  destruct (run_within is_word u s' w "-"%char t Hs Hu eq_refl) as (p' & -> & ->).
  cbn [run]. rewrite forallb_app in Hw. apply andb_true_iff in Hw as [_ Hp].
  destruct p' as [|c p']; cbn [app].
  - reflexivity.
  - cbn [forallb] in Hp. apply andb_true_iff in Hp as [Hc _].
    change (js "=" ++ [dq]) with ("="%char :: [dq]).
    rewrite strip_prefix_head; [reflexivity|now apply word_not_equals].
Qed.

Lemma scan_attrRegex_word_hyphen (rest : str) (x : str) :
  forallb is_word_or_hyphen x = true ->
  scan (attrRegex is_word) 0 (x ++ "-"%char :: rest) =
  scan (attrRegex is_word) 0 rest.
Proof.
  induction x as [|a x IH]; intros Hx.
  - cbn [app]. apply scan_miss. now apply (exec_attrRegex_word_hyphen []).
  - cbn [app]. rewrite scan_miss.
    + apply IH. cbn [forallb] in Hx. now apply andb_true_iff in Hx as [_ Hx].
    + now apply (exec_attrRegex_word_hyphen (a :: x)).
Qed.

(** X11. In the attributes of a child-bearing component a hyphenated name
    is read from its last hyphen on: [data-id="7"] is the prop [id]. *)
Theorem parseAttributes_hyphenated_name (n1 n2 v : str) :
  forallb is_word_or_hyphen n1 = true ->
  n2 <> [] -> forallb is_word n2 = true ->
  forallb (is_not dq) v = true ->
  parseAttributes (js " " ++ renderAttr (n1 ++ "-"%char :: n2, v))
  = filter assignable [(n2, v)].
Proof.
  intros H1 Hne H2 Hv. unfold parseAttributes, collectAttrs, matchAll.
  unfold renderAttr, quoted. cbn [fst snd].
  change (js " " ++ ?x) with (" "%char :: x).
  rewrite scan_miss by (now apply exec_attrRegex_stop).
  rewrite <- app_assoc. cbn [app].
  rewrite scan_attrRegex_word_hyphen by assumption.
  destruct n2 as [|a n2]; [congruence|].
  assert (E : exec_at (attrRegex is_word)
                ((a :: n2) ++ (js "=" ++ [dq]) ++ v ++ [dq] ++ []) =
              Some (MkMatch ((a :: n2) ++ (js "=" ++ [dq]) ++ v ++ [dq])
                            [a :: n2; v] []))
    by (apply exec_attrRegex_attr; [reflexivity|discriminate|assumption|assumption]).
  assert (Es : (a :: n2) ++ (js "=" ++ [dq]) ++ v ++ [dq] ++ [] =
               a :: (n2 ++ js "=" ++ dq :: v ++ [dq]) ++ []).
  { cbn [app js list_ascii_of_string]. now rewrite !app_nil_r. }
  rewrite Es in E.
  assert (Eg : (a :: n2) ++ js "=" ++ dq :: v ++ [dq] =
               a :: (n2 ++ js "=" ++ dq :: v ++ [dq]) ++ []).
  { cbn [app]. now rewrite app_nil_r. }
  rewrite Eg.
  rewrite (scan_hit _ _ _ _ (n2 ++ js "=" ++ dq :: v ++ [dq]) E).
  2:{ cbn [m0 app js list_ascii_of_string]. reflexivity. }
  rewrite scan_skip. cbn [scan app fold_left]. unfold cap.
  cbn [caps nth Nat.sub]. now rewrite (obj_set_fresh (a :: n2) v []).
Qed.

Lemma parseAttributes_hyphenated_name_witness :
  forallb is_word_or_hyphen (js "data-item") = true
  /\ js "id" <> []
  /\ forallb is_word (js "id") = true
  /\ forallb (is_not dq) (js "7") = true
  /\ parseAttributes (js " " ++ attr "data-item-id" "7") = [(js "id", js "7")].
Proof.
  assert (H1 : forallb is_word_or_hyphen (js "data-item") = true) by reflexivity.
  assert (H2 : js "id" <> []) by discriminate.
  assert (H3 : forallb is_word (js "id") = true) by reflexivity.
  assert (H4 : forallb (is_not dq) (js "7") = true) by reflexivity.
  repeat (split; [assumption|]).
  exact (parseAttributes_hyphenated_name (js "data-item") (js "id") (js "7")
           H1 H2 H3 H4).
Defined.

(** ** The inliners *)

Lemma same_char_refl (i : bool) (x : ascii) : same_char i x x = true.
Proof.
  unfold same_char. destruct i; [apply Nat.eqb_refl|apply Ascii.eqb_refl].
Qed.

Lemma strip_literal_exact (i : bool) (l s : str) :
  strip_literal i l (l ++ s) = Some (l, s).
Proof.
  induction l as [|x l IH]; [reflexivity|].
  cbn [strip_literal app]. now rewrite same_char_refl, IH.
Qed.

Lemma xrun_lit (i : bool) (l : str) (r : list xnode) (taken : str)
    (cs : list str) (s : str) :
  xrun i (XLit l :: r) taken cs (l ++ s) = xrun i r (taken ++ l) cs s.
Proof. cbn [xrun]. now rewrite strip_literal_exact. Qed.

Lemma xrun_one (i : bool) (cls : ascii -> bool) (r : list xnode) (taken : str)
    (cs : list str) (a : ascii) (s : str) :
  cls a = true ->
  xrun i (XOne cls :: r) taken cs (a :: s) = xrun i r (taken ++ [a]) cs s.
Proof. intros H. cbn [xrun]. now rewrite H. Qed.

Lemma xrun_rep_all (i capture : bool) (min : nat) (cls : ascii -> bool)
    (r : list xnode) (taken : str) (cs : list str) (u s : str) (m : match_result) :
  forallb cls u = true -> stops cls s = true -> min <= length u ->
  xrun i r (taken ++ u) (if capture then cs ++ [u] else cs) s = Some m ->
  xrun i (XRep capture true min cls :: r) taken cs (u ++ s) = Some m.
Proof.
  intros Hu Hs Hmin Hk. cbn [xrun rep].
  apply rep_greedy_all; auto.
Qed.

Lemma proper_suffixes_split (v : str) : forall v1 v2 : str,
  v = v1 ++ v2 -> v1 <> [] -> In v2 (proper_suffixes v).
Proof.
  induction v as [|a v IH]; intros v1 v2 E Hne.
  - destruct v1; [congruence|discriminate].
  - destruct v1 as [|b v1]; [congruence|]. injection E as _ E.
    cbn [proper_suffixes]. destruct v1 as [|c v1].
    + left. now subst.
    + right. apply (IH (c :: v1)); [assumption|discriminate].
Qed.

Lemma proper_suffixes_app (x y : str) :
  x <> [] ->
  proper_suffixes (x ++ y) =
  map (fun t => t ++ y) (proper_suffixes x) ++ proper_suffixes y.
Proof.
  induction x as [|a x IH]; intros Hne; [congruence|].
  cbn [app proper_suffixes map]. destruct x as [|b x].
  - reflexivity.
  - rewrite IH by discriminate. reflexivity.
Qed.

Lemma rep_greedy_backs {R} (cls : ascii -> bool) (k : str -> str -> option R)
    (s : str) (v : str) : forall taken : str,
  forallb cls v = true -> stops cls s = true ->
  (forall v1 v2, v = v1 ++ v2 -> v1 <> [] -> k (taken ++ v1) (v2 ++ s) = None) ->
  rep_greedy cls 0 taken (v ++ s) k = k taken (v ++ s).
Proof.
  induction v as [|b v IH]; intros taken Hv Hs Hk.
  - cbn [app]. now rewrite rep_greedy_stops.
  - cbn [forallb] in Hv. apply andb_true_iff in Hv as [Hb Hv].
    cbn [app rep_greedy]. rewrite Hb. cbn [pred].
    rewrite IH; [| assumption | assumption |].
    + now rewrite (Hk [b] v eq_refl) by discriminate.
    + intros v1 v2 E Hne. rewrite <- app_assoc.
      apply (Hk (b :: v1) v2); [now rewrite E|discriminate].
Qed.

Lemma rep_greedy_split {R} (cls : ascii -> bool) (k : str -> str -> option R)
    (v s : str) (u : str) : forall (min : nat) (taken : str) (r : R),
  forallb cls u = true -> forallb cls v = true -> stops cls s = true ->
  min <= length u ->
  (forall v1 v2, v = v1 ++ v2 -> v1 <> [] ->
     k (taken ++ u ++ v1) (v2 ++ s) = None) ->
  k (taken ++ u) (v ++ s) = Some r ->
  rep_greedy cls min taken (u ++ v ++ s) k = Some r.
Proof.
  induction u as [|a u IH]; intros min taken r Hu Hv Hs Hmin Hnone Hk.
  - cbn [length] in Hmin. assert (min = 0) by lia. subst min.
    cbn [app]. rewrite rep_greedy_backs; [ | assumption | assumption | ].
    + now rewrite app_nil_r in Hk.
    + intros v1 v2 E Hne. apply (Hnone v1 v2 E Hne).
  - cbn [forallb] in Hu. apply andb_true_iff in Hu as [Ha Hu].
    cbn [app rep_greedy]. rewrite Ha.
    rewrite (IH (pred min) (taken ++ [a]) r); try assumption.
    + reflexivity.
    + cbn [length] in Hmin. lia.
    + intros v1 v2 E Hne. rewrite <- app_assoc. now apply Hnone.
    + now rewrite <- app_assoc.
Qed.

Lemma xrun_rep_split (i capture : bool) (min : nat) (cls : ascii -> bool)
    (r : list xnode) (taken : str) (cs : list str) (u v s : str)
    (m : match_result) :
  forallb cls u = true -> forallb cls v = true -> stops cls s = true ->
  min <= length u ->
  Forall (fun t => xfails i r (t ++ s)) (proper_suffixes v) ->
  xrun i r (taken ++ u) (if capture then cs ++ [u] else cs) (v ++ s) = Some m ->
  xrun i (XRep capture true min cls :: r) taken cs (u ++ v ++ s) = Some m.
Proof.
  intros Hu Hv Hs Hmin Hf Hk. cbn [xrun rep].
  apply rep_greedy_split; try assumption.
  intros v1 v2 E Hne. rewrite Forall_forall in Hf.
  apply (Hf v2). now apply (proper_suffixes_split v v1).
Qed.

Lemma strip_literal_fails (i : bool) (e q : ascii) (rest : str) (p : str) :
  forall S2 : str,
    forallb (fun x => negb (same_char i e x)) S2 = true ->
    forallb (fun c => negb (same_char i c q)) (p ++ [e]) = true ->
    strip_literal i (p ++ [e]) (S2 ++ q :: rest) = None.
Proof.
  induction p as [|a p IH]; intros S2 HS Hq.
  - cbn [app strip_literal]. destruct S2 as [|x S2]; cbn [app].
    + cbn [forallb app] in Hq. apply andb_true_iff in Hq as [Hq _].
      apply negb_true_iff in Hq. now rewrite Hq.
    + cbn [forallb] in HS. apply andb_true_iff in HS as [Hx _].
      apply negb_true_iff in Hx. now rewrite Hx.
  - cbn [app forallb] in Hq. apply andb_true_iff in Hq as [Ha Hq].
    cbn [app strip_literal]. destruct S2 as [|x S2]; cbn [app].
    + apply negb_true_iff in Ha. now rewrite Ha.
    + cbn [forallb] in HS. apply andb_true_iff in HS as [_ HS].
      rewrite (IH S2 HS Hq). now destruct (same_char i a x).
Qed.

Lemma same_char_lt (i : bool) (a : ascii) :
  is_not "<"%char a = true -> same_char i "<"%char a = false.
Proof. destruct i; ascii_cases a. Qed.

Lemma same_char_equals (i : bool) (a : ascii) :
  is_not "="%char a = true -> same_char i "="%char a = false.
Proof. destruct i; ascii_cases a. Qed.

Lemma xexec_at_head (i : bool) (a : ascii) (l : str) (r : list xnode) (s : str) :
  is_not "<"%char a = true ->
  xexec_at (MkRegex i (XLit ("<"%char :: l) :: r)) (a :: s) = None.
Proof.
  intros H. unfold xexec_at. cbn [ignoreCase nodes xrun strip_literal].
  now rewrite same_char_lt.
Qed.

Lemma xscan_miss (r : xregex) (a : ascii) (s : str) :
  xexec_at r (a :: s) = None -> xscan r 0 (a :: s) = xscan r 0 s.
Proof. intros H. cbn [xscan]. now rewrite H. Qed.

Lemma xscan_skip (r : xregex) (u s : str) :
  xscan r (length u) (u ++ s) = xscan r 0 s.
Proof. induction u as [|a u IH]; [reflexivity|exact IH]. Qed.

Lemma xscan_hit (r : xregex) (a : ascii) (s : str) (m : match_result) (w : str) :
  xexec_at r (a :: s) = Some m -> m0 m = a :: w ->
  xscan r 0 (a :: s) = m :: xscan r (length w) s.
Proof. intros H E. cbn [xscan]. now rewrite H, E. Qed.

Lemma xscan_past (i : bool) (l : str) (r : list xnode) (pre s : str) :
  forallb (is_not "<"%char) pre = true ->
  xscan (MkRegex i (XLit ("<"%char :: l) :: r)) 0 (pre ++ s) =
  xscan (MkRegex i (XLit ("<"%char :: l) :: r)) 0 s.
Proof.
  induction pre as [|a pre IH]; intros H; [reflexivity|].
  cbn [forallb] in H. apply andb_true_iff in H as [Ha H].
  cbn [app]. rewrite xscan_miss by (now apply xexec_at_head). now apply IH.
Qed.

Lemma xscan_without (i : bool) (l : str) (r : list xnode) (s : str) :
  forallb (is_not "<"%char) s = true ->
  xscan (MkRegex i (XLit ("<"%char :: l) :: r)) 0 s = [].
Proof.
  intros H. rewrite <- (app_nil_r s). now rewrite xscan_past.
Qed.

Lemma xsearch_miss (r : xregex) (a : ascii) (s : str) :
  xexec_at r (a :: s) = None -> xsearch r (a :: s) = xsearch r s.
Proof. intros H. cbn [xsearch]. now rewrite H. Qed.

Lemma xsearch_hit (r : xregex) (s : str) (m : match_result) :
  xexec_at r s = Some m -> xsearch r s = Some m.
Proof. intros H. destruct s; cbn [xsearch]; now rewrite H. Qed.

(** Text in which neither [<x] nor [<X] occurs starts no element [x] under
    the [i] flag, whatever follows it, unless what follows starts with the
    letter. *)
Section ElementName.
Variables lo up : ascii.
Variable l : str.
Hypothesis letter : forall b, same_char true lo b = true -> b = lo \/ b = up.

Lemma strip_literal_two (a : ascii) (pre s : str) :
  lacks [["<"%char; lo]; ["<"%char; up]] (a :: pre) = true ->
  starts_with lo s = false -> starts_with up s = false ->
  strip_literal true ("<"%char :: lo :: l) (a :: pre ++ s) = None.
Proof.
  intros H Hlo Hup. cbn [lacks forallb] in H.
  apply andb_true_iff in H as [H1 H2]. apply andb_true_iff in H2 as [H2 _].
  apply negb_true_iff in H1, H2.
  apply includes_cons in H1 as [H1 _]. apply includes_cons in H2 as [H2 _].
  cbn [strip_literal strip_prefix] in *.
  destruct (same_char true "<"%char a) eqn:Ea; [|reflexivity].
  assert (a = "<"%char) by (revert Ea; clear; ascii_cases a). subst a.
  change (Ascii.eqb "<" "<") with true in H1, H2. cbn iota in H1, H2.
  destruct pre as [|b pre]; cbn [app].
  - destruct s as [|b s]; [reflexivity|]. cbn [starts_with] in Hlo, Hup.
    destruct (same_char true lo b) eqn:Eb; [|reflexivity].
    destruct (letter b Eb) as [-> | ->].
    + now rewrite Ascii.eqb_refl in Hlo.
    + now rewrite Ascii.eqb_refl in Hup.
  - destruct (same_char true lo b) eqn:Eb; [|reflexivity].
    destruct (letter b Eb) as [-> | ->].
    + now rewrite Ascii.eqb_refl in H1.
    + now rewrite Ascii.eqb_refl in H2.
Qed.

Lemma lacks_tail (ps : list str) (a : ascii) (s : str) :
  lacks ps (a :: s) = true -> lacks ps s = true.
Proof.
  unfold lacks. induction ps as [|p ps IH]; [reflexivity|].
  cbn [forallb]. intros H. apply andb_true_iff in H as [Hp H].
  apply negb_true_iff in Hp. apply includes_cons in Hp as [_ Hp].
  now rewrite Hp, IH.
Qed.

Lemma xscan_past_two (r : list xnode) (pre s : str) :
  lacks [["<"%char; lo]; ["<"%char; up]] pre = true ->
  starts_with lo s = false -> starts_with up s = false ->
  xscan (MkRegex true (XLit ("<"%char :: lo :: l) :: r)) 0 (pre ++ s) =
  xscan (MkRegex true (XLit ("<"%char :: lo :: l) :: r)) 0 s.
Proof.
  induction pre as [|a pre IH]; intros H Hlo Hup; [reflexivity|].
  change ((a :: pre) ++ s) with (a :: (pre ++ s)).
  rewrite xscan_miss.
  - apply IH; [|assumption|assumption]. now apply lacks_tail in H.
  - unfold xexec_at. cbn [ignoreCase nodes xrun].
    now rewrite strip_literal_two.
Qed.

Lemma xscan_without_two (r : list xnode) (s : str) :
  lacks [["<"%char; lo]; ["<"%char; up]] s = true ->
  xscan (MkRegex true (XLit ("<"%char :: lo :: l) :: r)) 0 s = [].
Proof.
  intros H. rewrite <- (app_nil_r s). now rewrite xscan_past_two.
Qed.

End ElementName.

Lemma letter_l (b : ascii) :
  same_char true "l"%char b = true -> b = "l"%char \/ b = "L"%char.
Proof.
  destruct b as [[] [] [] [] [] [] [] []]; vm_compute; intros H;
    first [discriminate H | now left | now right].
Qed.

Lemma letter_s (b : ascii) :
  same_char true "s"%char b = true -> b = "s"%char \/ b = "S"%char.
Proof.
  destruct b as [[] [] [] [] [] [] [] []]; vm_compute; intros H;
    first [discriminate H | now left | now right].
Qed.

Lemma suffixes_of_value (P : str -> Prop) (v : str) :
  (forall v2, forallb (is_not "="%char) v2 = true -> P (v2 ++ [dq])) -> P [] ->
  forallb (is_not "="%char) v = true ->
  Forall P (proper_suffixes (v ++ [dq])).
Proof.
  intros H1 H2. induction v as [|a v IH]; intros Hv.
  - repeat constructor. exact H2.
  - cbn [forallb] in Hv. apply andb_true_iff in Hv as [_ Hv].
    cbn [app proper_suffixes]. constructor; [now apply H1|now apply IH].
Qed.

Lemma value_chars (v : str) :
  avoids [dq; "'"%char; ">"%char; "="%char] v = true ->
  forallb is_not_quote v = true /\ forallb (is_not ">"%char) v = true
  /\ forallb (is_not "="%char) v = true.
Proof.
  intros H. repeat split.
  - revert H. unfold avoids. apply forallb_impl. intros a Ha.
    cbn [existsb] in Ha. unfold is_not_quote, is_quote.
    apply negb_true_iff in Ha. apply negb_true_iff.
    destruct (Ascii.eqb a dq), (Ascii.eqb a "'"); try discriminate; reflexivity.
  - apply (avoids_in [dq; "'"%char; ">"%char; "="%char]); simpl; auto.
  - apply (avoids_in [dq; "'"%char; ">"%char; "="%char]); simpl; auto.
Qed.

Lemma xexec_linkRegex (href post : str) :
  avoids [dq; "'"%char; ">"%char; "="%char] href = true ->
  xexec_at linkRegex (stylesheetLink href ++ post) =
  Some (MkMatch (stylesheetLink href) [] post).
Proof.
  intros H. destruct (value_chars href H) as (Hq & Hgt & Heq).
  unfold xexec_at, linkRegex. cbn [ignoreCase nodes].
  assert (E : stylesheetLink href ++ post =
              js "<link" ++ [" "%char]
                 ++ ((js "rel=" ++ dq :: js "stylesheet" ++ dq :: js " href=" ++ [dq])
                     ++ href ++ [dq])
                 ++ ">"%char :: post).
  { unfold stylesheetLink, quoted. cbn [js list_ascii_of_string app].
    rewrite <- !app_assoc. reflexivity. }
  rewrite E. rewrite xrun_lit.
  apply xrun_rep_split.
  - reflexivity.
  - rewrite forallb_app. cbn [forallb js list_ascii_of_string app].
    rewrite forallb_app, Hgt. reflexivity.
  - reflexivity.
  - cbn; lia.
  - rewrite proper_suffixes_app by discriminate.
    apply Forall_app. split.
    + cbn [proper_suffixes js list_ascii_of_string app map].
      repeat (constructor; [intros t c; reflexivity|]).
      constructor; [|constructor].
      intros t c. cbn [xrun app].
      rewrite <- app_assoc. cbn [app].
      change (strip_literal true _ ?x)
        with (strip_literal true (js "rel" ++ ["="%char]) x) at 1.
      rewrite strip_literal_fails; [reflexivity| |reflexivity].
      revert Heq. apply forallb_impl. intros a Ha.
      now rewrite same_char_equals.
    + apply suffixes_of_value; [| |assumption].
      * intros v2 Hv2 t c. cbn [xrun]. rewrite <- app_assoc. cbn [app].
        change (strip_literal true _ ?x)
          with (strip_literal true (js "rel" ++ ["="%char]) x) at 1.
        rewrite strip_literal_fails; [reflexivity| |reflexivity].
        revert Hv2. apply forallb_impl. intros a Ha.
        now rewrite same_char_equals.
      * intros t c. reflexivity.
  - assert (E2 : (js "rel=" ++ dq :: js "stylesheet" ++ dq :: js " href=" ++ [dq])
                   ++ (href ++ [dq]) ++ ">"%char :: post =
                 js "rel=" ++ dq :: js "stylesheet"
                    ++ dq :: (js " href=" ++ dq :: href ++ [dq]) ++ js ">" ++ post).
    { cbn [js list_ascii_of_string app]. rewrite <- !app_assoc. reflexivity. }
    rewrite <- (app_assoc _ (href ++ [dq])), E2.
    rewrite xrun_lit, xrun_one, xrun_lit, xrun_one by reflexivity.
    apply xrun_rep_all.
    + cbn [js list_ascii_of_string app forallb]. rewrite forallb_app, Hgt. reflexivity.
    + reflexivity.
    + apply Nat.le_0_l.
    + rewrite xrun_lit. reflexivity.
Qed.

Lemma xmatchAll_linkRegex (href pre post : str) :
  avoids [dq; "'"%char; ">"%char; "="%char] href = true ->
  lacks [js "<l"; js "<L"] pre = true -> lacks [js "<l"; js "<L"] post = true ->
  xmatchAll linkRegex (pre ++ stylesheetLink href ++ post) =
  [MkMatch (stylesheetLink href) [] post].
Proof.
  intros H Hpre Hpost. unfold xmatchAll, linkRegex.
  change (js "<link") with ("<"%char :: "l"%char :: js "ink").
  rewrite (xscan_past_two "l" "L" _ letter_l) by (assumption || reflexivity).
  pose proof (xexec_linkRegex href post H) as E. unfold linkRegex in E.
  change (js "<link") with ("<"%char :: "l"%char :: js "ink") in E.
  change (stylesheetLink href)
    with ("<"%char :: (js "link rel=" ++ quoted (js "stylesheet") ++ js " href="
                          ++ quoted href ++ js ">")) in E |- * at 1.
  cbn [app] in E |- *.
  rewrite (xscan_hit _ _ _ _ _ E eq_refl), xscan_skip.
  now rewrite (xscan_without_two "l" "L" _ letter_l).
Qed.

Lemma xexec_hrefRegex (href tail : str) :
  href <> [] -> forallb is_not_quote href = true ->
  xexec_at hrefRegex (js "href=" ++ dq :: href ++ dq :: tail) =
  Some (MkMatch (js "href=" ++ dq :: href ++ [dq]) [href] tail).
Proof.
  intros Hne Hq. unfold xexec_at, hrefRegex. cbn [ignoreCase nodes].
  rewrite xrun_lit, xrun_one by reflexivity.
  apply xrun_rep_all; [assumption | reflexivity | | ].
  { destruct href; [congruence|cbn; lia]. }
  rewrite xrun_one by reflexivity. cbn [xrun app]. f_equal.
Qed.

Lemma xsearch_hrefRegex (href : str) :
  href <> [] -> forallb is_not_quote href = true ->
  option_map (cap 1) (xsearch hrefRegex (stylesheetLink href)) = Some href.
Proof.
  intros Hne Hq. unfold stylesheetLink, quoted.
  cbn [js list_ascii_of_string app].
  do 23 (rewrite xsearch_miss by reflexivity).
  rewrite <- app_assoc. cbn [app].
  change ("h"%char :: "r"%char :: "e"%char :: "f"%char :: "="%char :: dq
            :: href ++ [dq; ">"%char])
    with (js "href=" ++ dq :: href ++ dq :: [">"%char]).
  now rewrite (xsearch_hit _ _ _ (xexec_hrefRegex href _ Hne Hq)).
Qed.

Lemma replace_first_in_text (c : ascii) (tag t pre post : str) (ps : list str) :
  Ascii.eqb "<"%char c = false -> lacks (["<"%char; c] :: ps) pre = true ->
  replace_first ("<"%char :: c :: tag) t (pre ++ ("<"%char :: c :: tag) ++ post) =
  pre ++ getSubstitution ("<"%char :: c :: tag) pre post t ++ post.
Proof.
  intros Hc Hpre. cbn [lacks forallb] in Hpre.
  apply andb_true_iff in Hpre as [Hpre _]. apply negb_true_iff in Hpre.
  unfold replace_first. rewrite replace_first_from_skip_two.
  - now rewrite replace_first_from_hit.
  - assumption.
  - cbn [app starts_with]. assumption.
Qed.

Lemma inlineCss_one_link (h : host) (root projectRoot href pre post : str) :
  href <> [] ->
  avoids [dq; "'"%char; ">"%char; "="%char] href = true ->
  lacks [js "<l"; js "<L"] pre = true -> lacks [js "<l"; js "<L"] post = true ->
  inlineCss h (pre ++ stylesheetLink href ++ post) root projectRoot =
  if external href then pre ++ stylesheetLink href ++ post else
  match find (fileExists h) (pathsToTry h root projectRoot href) with
  | Some cssPath =>
      if truthy cssPath then
        match fs_readFile h cssPath with
        | Some cssContent =>
            pre ++ getSubstitution (stylesheetLink href) pre post (styleTag cssContent)
                ++ post
        | None => pre ++ stylesheetLink href ++ post
        end
      else pre ++ stylesheetLink href ++ post
  | None => pre ++ stylesheetLink href ++ post
  end.
Proof.
  intros Hne H Hpre Hpost. unfold inlineCss.
  rewrite xmatchAll_linkRegex by assumption.
  cbn [fold_left]. unfold inlineCssStep. cbn [m0].
  destruct (value_chars href H) as (Hq & _ & _).
  pose proof (xsearch_hrefRegex href Hne Hq) as E.
  destruct (xsearch hrefRegex (stylesheetLink href)) as [m|]; [|discriminate].
  cbn [option_map] in E. injection E as ->.
  destruct (external href); [reflexivity|].
  destruct (find (fileExists h) (pathsToTry h root projectRoot href)) as [p|];
    [|reflexivity].
  destruct (truthy p); [|reflexivity].
  destruct (fs_readFile h p) as [css|]; [|reflexivity].
  now apply (replace_first_in_text "l" _ _ _ _ [js "<L"]).
Qed.

Lemma xexec_scriptRegex (src post : str) :
  src <> [] ->
  avoids [dq; "'"%char; ">"%char; "="%char] src = true ->
  xexec_at scriptRegex (scriptElement src ++ post) =
  Some (MkMatch (scriptElement src) [src] post).
Proof.
  intros Hne H. destruct (value_chars src H) as (Hq & Hgt & Heq).
  unfold xexec_at, scriptRegex. cbn [ignoreCase nodes].
  assert (E : scriptElement src ++ post =
              js "<script" ++ [" "%char]
                 ++ ((js "src=" ++ [dq]) ++ src ++ [dq])
                 ++ js "></script>" ++ post).
  { unfold scriptElement, quoted. cbn [js list_ascii_of_string app].
    rewrite <- !app_assoc. reflexivity. }
  rewrite E. rewrite xrun_lit.
  apply xrun_rep_split.
  - reflexivity.
  - rewrite forallb_app. cbn [forallb js list_ascii_of_string app].
    rewrite forallb_app, Hgt. reflexivity.
  - reflexivity.
  - cbn; lia.
  - rewrite proper_suffixes_app by discriminate.
    apply Forall_app. split.
    + cbn [proper_suffixes js list_ascii_of_string app map].
      repeat (constructor; [intros t c; reflexivity|]).
      constructor; [|constructor].
      intros t c. cbn [xrun app].
      rewrite <- app_assoc. cbn [app].
      change (strip_literal true _ ?x)
        with (strip_literal true (js "src" ++ ["="%char]) x) at 1.
      rewrite strip_literal_fails; [reflexivity| |reflexivity].
      revert Heq. apply forallb_impl. intros a Ha.
      now rewrite same_char_equals.
    + apply suffixes_of_value; [| |assumption].
      * intros v2 Hv2 t c. cbn [xrun]. rewrite <- app_assoc. cbn [app].
        change (strip_literal true _ ?x)
          with (strip_literal true (js "src" ++ ["="%char]) x) at 1.
        rewrite strip_literal_fails; [reflexivity| |reflexivity].
        revert Hv2. apply forallb_impl. intros a Ha.
        now rewrite same_char_equals.
      * intros t c. reflexivity.
  - assert (E2 : ((js "src=" ++ [dq]) ++ src ++ [dq]) ++ js "></script>" ++ post =
                 js "src=" ++ dq :: src ++ dq :: [] ++ js "></script>" ++ post).
    { cbn [js list_ascii_of_string app]. rewrite <- !app_assoc. reflexivity. }
    rewrite E2.
    rewrite xrun_lit, xrun_one by reflexivity.
    apply xrun_rep_all; [assumption | reflexivity | | ].
    { destruct src; [congruence|cbn; lia]. }
    rewrite xrun_one by reflexivity.
    apply xrun_rep_all; [reflexivity | reflexivity | apply Nat.le_0_l | ].
    rewrite xrun_lit. cbn [xrun app]. f_equal.
    unfold scriptElement, quoted. cbn [js list_ascii_of_string app].
    rewrite <- !app_assoc. reflexivity.
Qed.

Lemma xmatchAll_scriptRegex (src pre post : str) :
  src <> [] ->
  avoids [dq; "'"%char; ">"%char; "="%char] src = true ->
  lacks [js "<s"; js "<S"] pre = true -> lacks [js "<s"; js "<S"] post = true ->
  xmatchAll scriptRegex (pre ++ scriptElement src ++ post) =
  [MkMatch (scriptElement src) [src] post].
Proof.
  intros Hne H Hpre Hpost. unfold xmatchAll, scriptRegex.
  change (js "<script") with ("<"%char :: "s"%char :: js "cript").
  rewrite (xscan_past_two "s" "S" _ letter_s) by (assumption || reflexivity).
  pose proof (xexec_scriptRegex src post Hne H) as E. unfold scriptRegex in E.
  change (js "<script") with ("<"%char :: "s"%char :: js "cript") in E.
  change (scriptElement src)
    with ("<"%char :: (js "script src=" ++ quoted src ++ js "></script>"))
    in E |- * at 1.
  cbn [app] in E |- *.
  rewrite (xscan_hit _ _ _ _ _ E eq_refl), xscan_skip.
  now rewrite (xscan_without_two "s" "S" _ letter_s).
Qed.

Lemma inlineJs_one_script (h : host) (root projectRoot src pre post : str) :
  src <> [] ->
  avoids [dq; "'"%char; ">"%char; "="%char] src = true ->
  lacks [js "<s"; js "<S"] pre = true -> lacks [js "<s"; js "<S"] post = true ->
  inlineJs h (pre ++ scriptElement src ++ post) root projectRoot =
  if external src || includes (js "@vite") src
  then pre ++ scriptElement src ++ post else
  match fs_readFile h (scriptPath h root projectRoot src) with
  | Some jsContent =>
      pre ++ getSubstitution (scriptElement src) pre post (inlineScriptTag jsContent)
          ++ post
  | None => pre ++ scriptElement src ++ post
  end.
Proof.
  intros Hne H Hpre Hpost. unfold inlineJs.
  rewrite xmatchAll_scriptRegex by assumption.
  cbn [fold_left]. unfold inlineJsStep, cap. cbn [m0 caps nth Nat.sub].
  destruct (external src || includes (js "@vite") src); [reflexivity|].
  destruct (fs_readFile h (scriptPath h root projectRoot src)) as [c|];
    [|reflexivity].
  now apply (replace_first_in_text "s" _ _ _ _ [js "<S"]).
Qed.

Lemma getSubstitution_app_plain (matched before after x t : str) :
  avoids ["$"%char] x = true ->
  getSubstitution matched before after (x ++ t) =
  x ++ getSubstitution matched before after t.
Proof.
  induction x as [|a x IH]; intros H; [reflexivity|].
  rewrite avoids_cons in H. apply andb_true_iff in H as [Ha H].
  cbn [existsb] in Ha. rewrite orb_false_r in Ha. apply negb_true_iff in Ha.
  cbn [app getSubstitution]. rewrite Ha. f_equal. now apply IH.
Qed.

(** X12. A stylesheet link is inlined: the first of the candidate paths
    that exists is read, and the link is replaced, where it stands, by a
    [style] element holding the file's text. *)
Theorem inlineCss_inlines_stylesheet :
  forall (h : host) (root projectRoot href cssPath cssContent pre post : str),
    href <> [] ->
    avoids [dq; "'"%char; ">"%char; "="%char] href = true ->
    external href = false ->
    lacks [js "<l"; js "<L"] pre = true -> lacks [js "<l"; js "<L"] post = true ->
    find (fileExists h) (pathsToTry h root projectRoot href) = Some cssPath ->
    truthy cssPath = true ->
    fs_readFile h cssPath = Some cssContent ->
    avoids ["$"%char] cssContent = true ->
    inlineCss h (pre ++ stylesheetLink href ++ post) root projectRoot =
    pre ++ styleTag cssContent ++ post.
Proof.
  intros h root projectRoot href cssPath css pre post Hne H Hext Hpre Hpost
         Hfind Htr Hread Hcss.
  rewrite inlineCss_one_link by assumption.
  rewrite Hext, Hfind, Htr, Hread. f_equal. f_equal.
  apply getSubstitution_plain. unfold styleTag.
  rewrite !avoids_app, Hcss. reflexivity.
Qed.

Lemma inlineCss_inlines_stylesheet_witness :
  inlineCss
    (mem_host [(js "/site/src/styles/main.css", js "body{margin:0}");
               (js "/site/src/assets/styles/main.css", js "a{color:red}")] [])
    (js "<head><title>t</title>" ++ stylesheetLink (js "/styles/main.css")
        ++ js "</head>")
    (js "/site/src") (js "/site")
  = js "<head><title>t</title>" ++ styleTag (js "a{color:red}") ++ js "</head>".
Proof.
  apply (inlineCss_inlines_stylesheet
           (mem_host [(js "/site/src/styles/main.css", js "body{margin:0}");
                      (js "/site/src/assets/styles/main.css", js "a{color:red}")] [])
           (js "/site/src") (js "/site") (js "/styles/main.css")
           (js "/site/src/assets/styles/main.css") (js "a{color:red}")
           (js "<head><title>t</title>") (js "</head>"));
    first [discriminate | vm_compute; reflexivity].
Defined.

(** X13. A stylesheet link to an [http://] or [https://] address is left
    as it is, whatever files exist. *)
Theorem inlineCss_keeps_external_stylesheet :
  forall (h : host) (root projectRoot href pre post : str),
    avoids [dq; "'"%char; ">"%char; "="%char] href = true ->
    external href = true ->
    lacks [js "<l"; js "<L"] pre = true -> lacks [js "<l"; js "<L"] post = true ->
    inlineCss h (pre ++ stylesheetLink href ++ post) root projectRoot =
    pre ++ stylesheetLink href ++ post.
Proof.
  intros h root projectRoot href pre post H Hext Hpre Hpost.
  rewrite inlineCss_one_link; try assumption.
  - now rewrite Hext.
  - intros ->. discriminate.
Qed.

Lemma inlineCss_keeps_external_stylesheet_witness :
  inlineCss (mem_host [(js "/site/src/https:/cdn.example/x.css", js "a{}")] [])
    (js "<head>" ++ stylesheetLink (js "https://cdn.example/x.css") ++ js "</head>")
    (js "/site/src") (js "/site")
  = js "<head>" ++ stylesheetLink (js "https://cdn.example/x.css") ++ js "</head>".
Proof.
  apply (inlineCss_keeps_external_stylesheet
           (mem_host [(js "/site/src/https:/cdn.example/x.css", js "a{}")] [])
           (js "/site/src") (js "/site") (js "https://cdn.example/x.css")
           (js "<head>") (js "</head>"));
    vm_compute; reflexivity.
Defined.

(** X14. A script element with a local [src] is inlined: the file is read
    and the element is replaced, where it stands, by a [script] element
    holding the file's text. *)
Theorem inlineJs_inlines_script :
  forall (h : host) (root projectRoot src jsContent pre post : str),
    src <> [] ->
    avoids [dq; "'"%char; ">"%char; "="%char] src = true ->
    external src = false -> includes (js "@vite") src = false ->
    lacks [js "<s"; js "<S"] pre = true -> lacks [js "<s"; js "<S"] post = true ->
    fs_readFile h (scriptPath h root projectRoot src) = Some jsContent ->
    avoids ["$"%char] jsContent = true ->
    inlineJs h (pre ++ scriptElement src ++ post) root projectRoot =
    pre ++ inlineScriptTag jsContent ++ post.
Proof.
  intros h root projectRoot src content pre post Hne H Hext Hvite Hpre Hpost
         Hread Hc.
  rewrite inlineJs_one_script by assumption.
  rewrite Hext, Hvite, Hread. cbn [orb]. f_equal. f_equal.
  apply getSubstitution_plain. unfold inlineScriptTag.
  rewrite !avoids_app, Hc. reflexivity.
Qed.

Lemma inlineJs_inlines_script_witness :
  inlineJs
    (mem_host [(js "/site/src/js/app.js", js "init()");
               (js "/site/src/assets/js/app.js", js "start()")] [])
    (js "<body><p>x</p>" ++ scriptElement (js "/js/app.js") ++ js "</body>")
    (js "/site/src") (js "/site")
  = js "<body><p>x</p>" ++ inlineScriptTag (js "start()") ++ js "</body>".
Proof.
  apply (inlineJs_inlines_script
           (mem_host [(js "/site/src/js/app.js", js "init()");
                      (js "/site/src/assets/js/app.js", js "start()")] [])
           (js "/site/src") (js "/site") (js "/js/app.js") (js "start()")
           (js "<body><p>x</p>") (js "</body>"));
    first [discriminate | vm_compute; reflexivity].
Defined.

(** X15. The text of the file is used as a replacement pattern: where the
    script holds [$&], the inlined element holds the text of the script
    element that was replaced. *)
Theorem inlineJs_expands_dollar_patterns :
  forall (h : host) (root projectRoot src c1 c2 pre post : str),
    src <> [] ->
    avoids [dq; "'"%char; ">"%char; "="%char] src = true ->
    external src = false -> includes (js "@vite") src = false ->
    lacks [js "<s"; js "<S"] pre = true -> lacks [js "<s"; js "<S"] post = true ->
    fs_readFile h (scriptPath h root projectRoot src) = Some (c1 ++ js "$&" ++ c2) ->
    avoids ["$"%char] c1 = true -> avoids ["$"%char] c2 = true ->
    inlineJs h (pre ++ scriptElement src ++ post) root projectRoot =
    pre ++ inlineScriptTag (c1 ++ scriptElement src ++ c2) ++ post.
Proof.
  intros h root projectRoot src c1 c2 pre post Hne H Hext Hvite Hpre Hpost
         Hread H1 H2.
  rewrite inlineJs_one_script by assumption.
  rewrite Hext, Hvite, Hread. cbn [orb]. f_equal. f_equal.
  unfold inlineScriptTag.
  rewrite (getSubstitution_app_plain _ _ _ (js "<script>")) by reflexivity.
  rewrite (getSubstitution_app_plain _ _ _ newline) by reflexivity.
  rewrite <- app_assoc.
  rewrite (getSubstitution_app_plain _ _ _ c1) by assumption.
  cbn [app getSubstitution js list_ascii_of_string].
  change (Ascii.eqb "$" "$") with true. change (Ascii.eqb "&" "$") with false.
  change (Ascii.eqb "&" "&") with true. cbn iota.
  rewrite getSubstitution_app_plain by assumption.
  rewrite getSubstitution_plain by reflexivity.
  rewrite <- !app_assoc. reflexivity.
Qed.

Lemma inlineJs_expands_dollar_patterns_witness :
  inlineJs
    (mem_host [(js "/site/src/app.js", js "s.replace(/x/g, '[$&]')")] [])
    (js "<body>" ++ scriptElement (js "app.js") ++ js "</body>")
    (js "/site/src") (js "/site")
  = js "<body>"
      ++ inlineScriptTag (js "s.replace(/x/g, '[" ++ scriptElement (js "app.js")
                             ++ js "]')")
      ++ js "</body>".
Proof.
  apply (inlineJs_expands_dollar_patterns
           (mem_host [(js "/site/src/app.js", js "s.replace(/x/g, '[$&]')")] [])
           (js "/site/src") (js "/site") (js "app.js")
           (js "s.replace(/x/g, '[") (js "]')") (js "<body>") (js "</body>"));
    first [discriminate | vm_compute; reflexivity].
Defined.

(** X16. A script element whose [src] is an [http://] or [https://]
    address, or contains [@vite], is left as it is, whatever files exist. *)
Theorem inlineJs_keeps_external_script :
  forall (h : host) (root projectRoot src pre post : str),
    src <> [] ->
    avoids [dq; "'"%char; ">"%char; "="%char] src = true ->
    external src || includes (js "@vite") src = true ->
    lacks [js "<s"; js "<S"] pre = true -> lacks [js "<s"; js "<S"] post = true ->
    inlineJs h (pre ++ scriptElement src ++ post) root projectRoot =
    pre ++ scriptElement src ++ post.
Proof.
  intros h root projectRoot src pre post Hne H Hext Hpre Hpost.
  rewrite inlineJs_one_script by assumption. now rewrite Hext.
Qed.

Lemma inlineJs_keeps_external_script_witness :
  inlineJs (mem_host [(js "/site/src/@vite/client", js "hmr()")] [])
    (js "<body>" ++ scriptElement (js "/@vite/client") ++ js "</body>")
    (js "/site/src") (js "/site")
  = js "<body>" ++ scriptElement (js "/@vite/client") ++ js "</body>".
Proof.
  apply (inlineJs_keeps_external_script
           (mem_host [(js "/site/src/@vite/client", js "hmr()")] [])
           (js "/site/src") (js "/site") (js "/@vite/client")
           (js "<body>") (js "</body>"));
    first [discriminate | vm_compute; reflexivity].
Defined.

Lemma inlineCssStep_missing (h : host) (root projectRoot result : str)
    (m : match_result) :
  (forall p, fs_access h p = false) ->
  inlineCssStep h root projectRoot result m = result.
Proof.
  intros H. unfold inlineCssStep.
  destruct (xsearch hrefRegex (m0 m)) as [hm|]; [|reflexivity].
  destruct (external (cap 1 hm)); [reflexivity|].
  destruct (find (fileExists h) (pathsToTry h root projectRoot (cap 1 hm)))
    as [p|] eqn:E; [|reflexivity].
  apply find_some in E as [_ E]. unfold fileExists in E. now rewrite H in E.
Qed.

Lemma inlineJsStep_missing (h : host) (root projectRoot result : str)
    (m : match_result) :
  (forall p, fs_readFile h p = None) ->
  inlineJsStep h root projectRoot result m = result.
Proof.
  intros H. unfold inlineJsStep. rewrite H.
  now destruct (external (cap 1 m) || includes (js "@vite") (cap 1 m)).
Qed.

(** X17. Without files nothing is inlined: a page is returned as it is by
    [inlineCss] when no path exists and by [inlineJs] when no file can be
    read; neither raises an error. *)
Theorem inliners_without_files (h : host) (html root projectRoot : str) :
  ((forall p, fs_access h p = false) -> inlineCss h html root projectRoot = html)
  /\ ((forall p, fs_readFile h p = None) -> inlineJs h html root projectRoot = html).
Proof.
  split; intros H.
  - unfold inlineCss. generalize (xmatchAll linkRegex html).
    intros ms. generalize html. induction ms as [|m ms IH]; intros r; [reflexivity|].
    cbn [fold_left]. rewrite inlineCssStep_missing by assumption. apply IH.
  - unfold inlineJs. generalize (xmatchAll scriptRegex html).
    intros ms. generalize html. induction ms as [|m ms IH]; intros r; [reflexivity|].
    cbn [fold_left]. rewrite inlineJsStep_missing by assumption. apply IH.
Qed.

Lemma inliners_without_files_witness :
  inlineCss bare (js "<head>" ++ stylesheetLink (js "a.css") ++ js "</head>")
    fx fx
  = js "<head>" ++ stylesheetLink (js "a.css") ++ js "</head>"
  /\ inlineJs bare (js "<body>" ++ scriptElement (js "a.js") ++ js "</body>") fx fx
     = js "<body>" ++ scriptElement (js "a.js") ++ js "</body>".
Proof.
  split.
  - apply (proj1 (inliners_without_files bare _ fx fx)). intros p. reflexivity.
  - apply (proj2 (inliners_without_files bare _ fx fx)). intros p. reflexivity.
Defined.

(** ** The files of a build *)

Lemma dirent_induction (P : dirent -> Prop) :
  (forall name, P (File name)) ->
  (forall name, P (Dir name None)) ->
  (forall name entries, Forall P entries -> P (Dir name (Some entries))) ->
  forall entry, P entry.
Proof.
  intros HF HN HD. fix IH 1. intros [name | name [entries|]].
  - apply HF.
  - apply HD. induction entries as [|e entries IHl]; constructor;
      [apply IH | exact IHl].
  - apply HN.
Qed.

Lemma flat_map_flat_map {A B C} (f : A -> list B) (g : B -> list C) (l : list A) :
  flat_map g (flat_map f l) = flat_map (fun a => flat_map g (f a)) l.
Proof.
  induction l as [|a l IH]; [reflexivity|].
  cbn [flat_map]. now rewrite flat_map_app, IH.
Qed.

Lemma flat_map_ext_Forall {A B} (f g : A -> list B) (l : list A) :
  Forall (fun a => f a = g a) l -> flat_map f l = flat_map g l.
Proof.
  induction 1 as [|a l Ha _ IH]; [reflexivity|].
  cbn [flat_map]. now rewrite Ha, IH.
Qed.

Lemma allFilesExcludingOf_prune (h : host) (excluded : str) (entry : dirent) :
  forall dir : str,
    allFilesExcludingOf h excluded dir entry =
    flat_map (allFilesOf h dir) (prune excluded entry).
Proof.
  induction entry as [name | name | name entries IH] using dirent_induction;
    intros dir.
  - reflexivity.
  - cbn [allFilesExcludingOf prune]. now destruct (str_eqb name excluded).
  - cbn [allFilesExcludingOf prune]. destruct (str_eqb name excluded); [reflexivity|].
    cbn [flat_map option_map allFilesOf]. rewrite app_nil_r.
    rewrite flat_map_flat_map. apply flat_map_ext_Forall.
    revert IH. apply Forall_impl. intros e He. apply He.
Qed.

(** X18. [getAllFilesExcludingDir] returns the files [getAllFiles] finds
    once every directory with the excluded name, at any depth, is taken out
    of the tree; a directory that cannot be read contributes no file and
    no error. *)
Theorem getAllFilesExcludingDir_prunes (h : host) (dir excludedDirName : str)
    (listing : option (list dirent)) :
  getAllFilesExcludingDir h dir excludedDirName listing =
  getAllFiles h dir (option_map (flat_map (prune excludedDirName)) listing).
Proof.
  destruct listing as [entries|]; [|reflexivity].
  cbn [getAllFilesExcludingDir getAllFiles option_map].
  rewrite flat_map_flat_map. apply flat_map_ext_Forall.
  apply Forall_forall. intros e _. apply allFilesExcludingOf_prune.
Qed.

Lemma htmlFilesOf_prune (h : host) (componentsDir : str) (entry : dirent) :
  forall dir base : str,
    htmlFilesOf h componentsDir dir base entry =
    flat_map (htmlFilesOf h componentsDir dir base) (prune componentsDir entry).
Proof.
  induction entry as [name | name | name entries IH] using dirent_induction;
    intros dir base.
  - cbn [prune flat_map]. now rewrite app_nil_r.
  - cbn [htmlFilesOf prune]. destruct (str_eqb name componentsDir) eqn:E;
      [reflexivity|].
    cbn [flat_map option_map htmlFilesOf]. now rewrite E.
  - cbn [htmlFilesOf prune]. destruct (str_eqb name componentsDir) eqn:E;
      [reflexivity|].
    cbn [flat_map option_map htmlFilesOf negb]. rewrite E. cbn [negb].
    rewrite app_nil_r.
    rewrite flat_map_flat_map. apply flat_map_ext_Forall.
    revert IH. apply Forall_impl. intros e He. apply He.
Qed.

(** X19. [getHtmlFiles] never looks into a directory named like the
    components directory, wherever it lies in the tree: the pages found
    are those of the tree without these directories. *)
Theorem getHtmlFiles_skips_components (h : host) (dir base componentsDir : str)
    (listing : option (list dirent)) :
  getHtmlFiles h dir base componentsDir listing =
  getHtmlFiles h dir base componentsDir
    (option_map (flat_map (prune componentsDir)) listing).
Proof.
  destruct listing as [entries|]; [|reflexivity].
  cbn [getHtmlFiles option_map].
  rewrite flat_map_flat_map. apply flat_map_ext_Forall.
  apply Forall_forall. intros e _. apply htmlFilesOf_prune.
Qed.

Lemma htmlFilesOf_html (h : host) (componentsDir : str) (entry : dirent) :
  (forall b n, endsWith (js ".html") n = true ->
               endsWith (js ".html") (path_join h [b; n]) = true) ->
  forall dir base : str,
    Forall (fun p => endsWith (js ".html") p = true)
           (htmlFilesOf h componentsDir dir base entry).
Proof.
  intros Hjoin.
  induction entry as [name | name | name entries IH] using dirent_induction;
    intros dir base.
  - cbn [htmlFilesOf]. destruct (endsWith (js ".html") name) eqn:E; [|constructor].
    constructor; [|constructor]. destruct (truthy base); [now apply Hjoin|exact E].
  - cbn [htmlFilesOf]. destruct (negb (str_eqb name componentsDir)); constructor.
  - cbn [htmlFilesOf]. destruct (negb (str_eqb name componentsDir)); [|constructor].
    apply Forall_flat_map. revert IH. apply Forall_impl. intros e He. apply He.
Qed.

(** X20. Every path [getHtmlFiles] returns ends with [.html], provided
    joining a directory to a name that ends with [.html] gives a path that
    does. *)
Theorem getHtmlFiles_only_html (h : host) (dir base componentsDir : str)
    (listing : option (list dirent)) :
  (forall b n, endsWith (js ".html") n = true ->
               endsWith (js ".html") (path_join h [b; n]) = true) ->
  Forall (fun p => endsWith (js ".html") p = true)
         (getHtmlFiles h dir base componentsDir listing).
Proof.
  intros Hjoin. destruct listing as [entries|]; [|constructor].
  cbn [getHtmlFiles]. apply Forall_flat_map. apply Forall_forall.
  intros e _. now apply htmlFilesOf_html.
Qed.

Lemma endsWith_suffix (p s : str) :
  endsWith p s = true <-> exists pre, s = pre ++ p.
Proof.
  unfold endsWith, startsWith. split.
  - destruct (strip_prefix (rev p) (rev s)) as [r|] eqn:E; [|discriminate].
    intros _. apply strip_prefix_Some in E. exists (rev r).
    rewrite <- (rev_involutive s), E, rev_app_distr. now rewrite rev_involutive.
  - intros [pre ->]. now rewrite rev_app_distr, strip_prefix_app.
Qed.

Lemma split_on_last (c : ascii) (p : str) :
  exists init s,
    split_on c p = init ++ [s]
    /\ forall t, forallb (is_not c) t = true -> split_on c (p ++ t) = init ++ [s ++ t].
Proof.
  induction p as [|a p (init & s & E & H)].
  - exists [], []. split; [reflexivity|]. intros t Ht. now apply split_on_absent.
  - cbn [split_on app]. destruct (Ascii.eqb a c).
    + exists ([] :: init), s. split; [now rewrite E|].
      intros t Ht. now rewrite (H t Ht).
    + destruct init as [|i init].
      * exists [], (a :: s). split; [now rewrite E|].
        intros t Ht. now rewrite (H t Ht).
      * exists ((a :: i) :: init), s. split; [now rewrite E|].
        intros t Ht. now rewrite (H t Ht).
Qed.

Lemma join_last (sep : str) (l : list str) (a : str) :
  exists x, join sep (l ++ [a]) = x ++ a.
Proof.
  induction l as [|b l (x & E)]; [now exists []|].
  cbn [app join]. destruct (l ++ [a]) as [|c l'] eqn:El.
  - now destruct l.
  - exists (b ++ sep ++ x). rewrite E. now rewrite <- !app_assoc.
Qed.

Lemma str_eqb_length (a b : str) : length a <> length b -> str_eqb a b = false.
Proof.
  intros H. destruct (str_eqb a b) eqn:E; [|reflexivity].
  apply str_eqb_eq in E. now subst.
Qed.

Lemma normalizeSegment_keeps (allowAboveRoot : bool) (kept : list str) (s t : str) :
  3 <= length t ->
  normalizeSegment allowAboveRoot kept (s ++ t) = (s ++ t) :: kept.
Proof.
  intros H. unfold normalizeSegment.
  rewrite !str_eqb_length; [reflexivity| | |];
    rewrite length_app; cbn [length js list_ascii_of_string]; lia.
Qed.

(** Joining keeps the extension of the last part. *)
Lemma posix_join_html (b n : str) :
  endsWith (js ".html") n = true ->
  endsWith (js ".html") (posix_join [b; n]) = true.
Proof.
  intros H. apply endsWith_suffix in H as [pre ->]. unfold posix_join.
  remember (join (js "/")
              (@filter str truthy (@cons str b (@cons str (pre ++ js ".html") nil))))
    as joined eqn:Ej.
  assert (J : exists j, joined = j ++ js ".html").
  { subst joined. cbn [filter]. destruct b as [|x b]; cbn [truthy].
    - exists pre. now destruct pre.
    - exists ((x :: b) ++ js "/" ++ pre).
      destruct pre; cbn [app truthy join]; now rewrite <- ?app_assoc. }
  clear Ej. destruct J as [j ->]. unfold posix_normalize.
  destruct (j ++ js ".html") as [|first others] eqn:Ej; [now destruct j|].
  rewrite <- Ej. clear first others Ej.
  destruct (split_on_last "/"%char j) as (init & s & _ & Hs).
  rewrite (Hs (js ".html") eq_refl). rewrite fold_left_app. cbn [fold_left].
  rewrite normalizeSegment_keeps by (cbn; lia).
  cbn [rev].
  destruct (join_last (js "/")
              (rev (fold_left
                      (normalizeSegment (negb (starts_with "/"%char (j ++ js ".html"))))
                      init [])) (s ++ js ".html")) as [x ->].
  assert (T : starts_with "/"%char (rev (j ++ js ".html")) = false)
    by (now rewrite rev_app_distr).
  rewrite T.
  destruct (x ++ s ++ js ".html") as [|c w] eqn:E.
  { apply (f_equal (@length ascii)) in E. rewrite !length_app in E.
    cbn in E. lia. }
  rewrite <- E. rewrite app_nil_r. apply endsWith_suffix.
  exists ((if starts_with "/"%char (j ++ js ".html") then js "/" else []) ++ x ++ s).
  now rewrite <- !app_assoc.
Qed.

Lemma getHtmlFiles_only_html_witness :
  Forall (fun p => endsWith (js ".html") p = true)
    (getHtmlFiles bare (js "/site/src") [] (js "components")
       (Some [ File (js "index.html"); File (js "notes.txt");
               Dir (js "blog") (Some [File (js "post.html")]);
               Dir (js "components") (Some [File (js "Card.html")]) ])).
Proof.
  apply (getHtmlFiles_only_html bare). exact posix_join_html.
Defined.

(** ** The development server *)

Lemma includes_occurrence (p pre post : str) :
  includes p (pre ++ p ++ post) = true.
Proof.
  induction pre as [|a pre IH].
  - cbn [app]. destruct p as [|x p]; [now destruct post|].
    cbn [app]. unfold includes; fold includes.
    change (x :: p ++ post) with ((x :: p) ++ post).
    now rewrite strip_prefix_app.
  - cbn [app]. unfold includes; fold includes.
    destruct (strip_prefix p (a :: pre ++ p ++ post)); [reflexivity|exact IH].
Qed.

(** X21. The client script is inserted and nothing else is changed: it
    stands before the first [</body>], or at the end of a page that has
    none. The page is [pre ++ post], the answer [pre], the script, [post];
    [post] starts with the first [</body>] of the page, and is empty when
    there is none. *)
Theorem injectClient_inserts_client (html : str) :
  exists pre post : str,
    html = pre ++ post
    /\ injectClient html = pre ++ viteClient ++ post
    /\ startsWith (js "</body>") post = includes (js "</body>") html
    /\ (includes (js "</body>") html = false -> post = [])
    /\ (forall pre' s', pre = pre' ++ s' -> s' <> [] ->
          startsWith (js "</body>") (s' ++ post) = false).
Proof.
  unfold injectClient.
  destruct (replace_first_cases (js "</body>") (viteClient ++ js "</body>") html)
    as [[Hno _] | (pre & post & E & Hfirst & Hr)].
  - rewrite Hno. exists html, []. rewrite app_nil_r. repeat split.
    intros pre' s' E Hne. unfold startsWith. rewrite app_nil_r.
    destruct (strip_prefix (js "</body>") s') as [r|] eqn:Es; [|reflexivity].
    apply strip_prefix_Some in Es. subst s' html.
    now rewrite includes_occurrence in Hno.
  - subst html. rewrite includes_occurrence.
    exists pre, (js "</body>" ++ post). split; [reflexivity|]. split.
    + rewrite Hr. rewrite getSubstitution_plain by reflexivity.
      now rewrite <- !app_assoc.
    + split; [unfold startsWith; now rewrite strip_prefix_app|].
      split; [discriminate|].
      intros pre' s' E Hne. unfold startsWith.
      now rewrite (Hfirst pre' s' E Hne).
Qed.

Lemma starts_with_slash (url : str) :
  startsWith (js "/") url = true -> exists u, url = "/"%char :: u.
Proof.
  unfold startsWith. destruct (strip_prefix (js "/") url) as [r|] eqn:E;
    [|discriminate].
  intros _. apply strip_prefix_Some in E. now exists r.
Qed.

(** ** Binding and splicing *)

Lemma replace_call_past (c : ascii) (l : str) (r : regex)
    (f : str -> option str) (pre s : str) :
  forallb (is_not c) pre = true ->
  replace_call (Lit (c :: l) :: r) f 0 (pre ++ s) =
  match replace_call (Lit (c :: l) :: r) f 0 s with
  | Ok u => Ok (pre ++ u)
  | TypeError => TypeError
  end.
Proof.
  induction pre as [|a pre IH]; intros H.
  - cbn [app]. now destruct (replace_call _ f 0 s).
  - simpl in H. apply andb_true_iff in H as [Ha Hpre].
    unfold is_not in Ha. apply negb_true_iff in Ha.
    cbn [app]. unfold replace_call at 1; fold replace_call.
    rewrite exec_at_head by assumption. rewrite IH by assumption.
    now destruct (replace_call _ f 0 s).
Qed.

Lemma replaceAllBy_without_brace (key : str) (v : value) (s : str) :
  forallb (is_not "{"%char) s = true ->
  replaceAllBy (placeholderRegex key) v s = Ok s.
Proof.
  intros H.
  assert (E : forall f, replace_call (placeholderRegex key) f 0 s = Ok s).
  { intros f. unfold placeholderRegex. change (js "{{") with ["{"%char; "{"%char].
    rewrite <- (app_nil_r s) at 1. rewrite replace_call_past by assumption.
    cbn [replace_call exec_at run strip_prefix]. now rewrite app_nil_r. }
  unfold replaceAllBy.
  destruct v as [|t|[]]; rewrite ?E, ?replaceAll_without_brace by assumption;
    reflexivity.
Qed.

Lemma bindSelfClosingProp_without_brace (variants : obj) (content : str)
    (e : str * str) :
  forallb (is_not "{"%char) content = true ->
  bindSelfClosingProp variants (Ok content) e = Ok content.
Proof.
  intros H. destruct e as [key value]. unfold bindSelfClosingProp.
  destruct (str_eqb key (js "variant")
            && truthy_value (obj_read value variants)).
  - now apply replaceAllBy_without_brace.
  - destruct (negb (str_eqb key (js "src")) && negb (str_eqb key (js "variant")));
      [now rewrite replaceAll_without_brace|reflexivity].
Qed.

(** X22. A component without braces has nothing to bind: its markup is
    kept as it is, whatever props it is given. *)
Theorem bindSelfClosing_without_placeholders (componentContent : str) (attrs : obj) :
  forallb (is_not "{"%char) componentContent = true ->
  bindSelfClosing componentContent attrs = Ok componentContent.
Proof.
  intros H. unfold bindSelfClosing.
  assert (E : fold_left (bindSelfClosingProp (parseVariants componentContent))
                (entries attrs) (Ok componentContent) = Ok componentContent).
  { generalize (entries attrs). intros l.
    induction l as [|e l IH]; [reflexivity|].
    cbn [fold_left]. now rewrite bindSelfClosingProp_without_brace. }
  rewrite E. now rewrite replaceAll_without_brace.
Qed.

Lemma bindSelfClosing_without_placeholders_witness :
  forallb (is_not "{"%char) (js "<hr class=rule>") = true
  /\ bindSelfClosing (js "<hr class=rule>")
       [(js "src", js "Rule"); (js "variant", js "thin"); (js "class", js "x")]
     = Ok (js "<hr class=rule>").
Proof.
  split; [reflexivity|].
  apply (bindSelfClosing_without_placeholders (js "<hr class=rule>")
           [(js "src", js "Rule"); (js "variant", js "thin"); (js "class", js "x")]).
  reflexivity.
Defined.

Lemma word_stops_space (key : str) :
  forallb is_word key = true -> stops is_space key = true.
Proof.
  destruct key as [|a key]; [reflexivity|].
  cbn [forallb stops]. intros H. apply andb_true_iff in H as [H _].
  now rewrite word_not_space.
Qed.

(** X23. One prop bound: in markup with a single placeholder [{{ key }}],
    the placeholder is replaced by the prop's value, which holds neither
    dollar nor brace. *)
Theorem bindSelfClosing_binds_prop :
  forall (name key value m1 w1 w2 m2 : str),
    key <> [] -> forallb is_word key = true -> array_index key = None ->
    str_eqb key (js "src") = false -> str_eqb key (js "variant") = false ->
    forallb (is_not "{"%char) m1 = true -> forallb (is_not "{"%char) m2 = true ->
    forallb is_space w1 = true -> forallb is_space w2 = true ->
    avoids ["$"%char; "{"%char] value = true ->
    bindSelfClosing (m1 ++ placeholder w1 key w2 ++ m2)
      [(js "src", name); (key, value)]
    = Ok (m1 ++ value ++ m2).
Proof.
  intros name key value m1 w1 w2 m2 Hne Hw Hd Hsrc Hvar Hm1 Hm2 Hw1 Hw2 Hv.
  assert (Hdollar : avoids ["$"%char] value = true).
  { revert Hv. apply avoids_incl. intros x Hx. simpl in *. intuition. }
  assert (Hbrace : forallb (is_not "{"%char) value = true)
    by (apply (avoids_in ["$"%char; "{"%char]); simpl; auto).
  unfold bindSelfClosing.
  assert (E : entries [(js "src", name); (key, value)] =
              [(js "src", name); (key, value)]).
  { unfold entries. cbn [index_entries filter fst].
    change (array_index (js "src")) with (@None N).
    rewrite Hd. reflexivity. }
  rewrite E. cbn [fold_left]. unfold bindSelfClosingProp at 2.
  change (str_eqb (js "src") (js "variant")) with false.
  change (str_eqb (js "src") (js "src")) with true. cbn [andb negb].
  unfold bindSelfClosingProp. rewrite Hvar, Hsrc. cbn [andb negb].
  rewrite replaceAll_placeholder_plain; try assumption;
    [|now apply word_stops_space].
  rewrite (replaceAll_without_brace _ _ m2) by assumption.
  f_equal. apply replaceAll_without_brace.
  now rewrite !forallb_app, Hm1, Hbrace, Hm2.
Qed.

Lemma bindSelfClosing_binds_prop_witness :
  bindSelfClosing (js "<h1>{{ title }}</h1>")
    [(js "src", js "Header"); (js "title", js "Hello")]
  = Ok (js "<h1>Hello</h1>").
Proof.
  apply (bindSelfClosing_binds_prop (js "Header") (js "title") (js "Hello")
           (js "<h1>") (js " ") (js " ") (js "</h1>"));
    first [discriminate | reflexivity].
Defined.

Lemma rendered_no_lt (l : list (str * str)) :
  forallb wellFormedAttr l = true ->
  forallb (fun e => forallb (is_not "<"%char) (snd e)) l = true ->
  forallb (is_not "<"%char) (concat (map (fun e => renderAttr e ++ js " ") l)) = true.
Proof.
  induction l as [|[k v] l IH]; intros Hl Hv; [reflexivity|].
  cbn [forallb] in Hl, Hv. apply andb_true_iff in Hl as [He Hl].
  apply andb_true_iff in Hv as [Hv0 Hv]. cbn [snd] in Hv0.
  unfold wellFormedAttr in He. cbn [fst snd] in He.
  apply andb_true_iff in He as [Hk _]. apply andb_true_iff in Hk as [_ Hk].
  cbn [map concat]. rewrite forallb_app, IH by assumption.
  rewrite andb_true_r. unfold renderAttr, quoted. cbn [fst snd].
  rewrite !forallb_app. cbn [forallb]. rewrite forallb_app. cbn [forallb].
  assert (Hk' : forallb (is_not "<"%char) k = true).
  { revert Hk. apply forallb_impl. intros a Ha. revert Ha. ascii_cases a. }
  rewrite Hk', Hv0. reflexivity.
Qed.

Lemma exec_selfClosing_rendered (l : list (str * str)) (post : str) :
  forallb wellFormedAttr l = true ->
  exec_at selfClosingRegex (renderTag l ++ post) =
  Some (MkMatch (renderTag l) [] post).
Proof.
  intros Hl. pose proof (rendered_no_gt l Hl) as Hgt.
  unfold renderTag. set (R := concat (map (fun e => renderAttr e ++ js " ") l)) in *.
  assert (E : (js "<Component " ++ R ++ js "/>") ++ post =
              js "<Component" ++ (" "%char :: R) ++ "/"%char :: ">"%char :: post).
  { cbn [js list_ascii_of_string app]. rewrite <- !app_assoc. reflexivity. }
  rewrite E. unfold exec_at, selfClosingRegex. rewrite run_lit.
  apply run_rep_back;
    [cbn [forallb]; now rewrite Hgt | reflexivity | reflexivity | cbn; lia
    | reflexivity | ].
  change ("/"%char :: ">"%char :: post) with (js "/>" ++ post).
  rewrite run_lit. cbn [run]. f_equal.
Qed.





(** ** The variants directive *)

Lemma rep_lazy_first {R} (cls : ascii -> bool) (k : str -> str -> option R)
    (s : str) (u : str) : forall (min : nat) (taken : str) (r : R),
  forallb cls u = true -> min <= length u ->
  (forall u1 u2, u = u1 ++ u2 -> u2 <> [] -> min <= length u1 ->
     k (taken ++ u1) (u2 ++ s) = None) ->
  k (taken ++ u) s = Some r ->
  rep_lazy cls min taken (u ++ s) k = Some r.
Proof.
  induction u as [|a u IH]; intros min taken r Hu Hmin Hnone Hk.
  - cbn [length] in Hmin. assert (min = 0) by lia. subst min.
    rewrite app_nil_r in Hk. cbn [app].
    destruct s; cbn [rep_lazy]; now rewrite Hk.
  - cbn [forallb] in Hu. apply andb_true_iff in Hu as [Ha Hu].
    cbn [app]. unfold rep_lazy; fold (@rep_lazy R).
    assert (E : match min with 0 => k taken (a :: u ++ s) | S _ => None end = None).
    { destruct min; [|reflexivity].
      rewrite <- (app_nil_r taken).
      apply (Hnone [] (a :: u) eq_refl); [discriminate|apply Nat.le_0_l]. }
    rewrite E, Ha. apply IH; [assumption | cbn [length] in Hmin; lia | | ].
    + intros u1 u2 E' Hne Hl. rewrite <- app_assoc.
      apply (Hnone (a :: u1) u2); [now rewrite E' | assumption | cbn [length]; lia].
    + now rewrite <- app_assoc.
Qed.

Lemma run_rep_lazy_first (capture : bool) (min : nat) (cls : ascii -> bool)
    (r : regex) (taken : str) (cs : list str) (u s : str) (m : match_result) :
  forallb cls u = true -> min <= length u ->
  (forall u1 u2, u = u1 ++ u2 -> u2 <> [] -> min <= length u1 ->
     run r (taken ++ u1) (if capture then cs ++ [u1] else cs) (u2 ++ s) = None) ->
  run r (taken ++ u) (if capture then cs ++ [u] else cs) s = Some m ->
  run (Rep capture false min cls :: r) taken cs (u ++ s) = Some m.
Proof.
  intros Hu Hmin Hnone Hk. cbn [run rep].
  now apply rep_lazy_first.
Qed.

Lemma strip_arrow_fails (x rest : str) :
  x <> [] -> forallb (is_not ">"%char) x = true ->
  strip_prefix (js "-->") (x ++ " "%char :: rest) = None.
Proof.
  intros Hne Hx.
  destruct x as [|a [|b [|c x]]]; [congruence| | |];
    cbn [app strip_prefix js list_ascii_of_string].
  - destruct (Ascii.eqb "-" a); reflexivity.
  - destruct (Ascii.eqb "-" a); [|reflexivity].
    destruct (Ascii.eqb "-" b); reflexivity.
  - cbn [forallb] in Hx. apply andb_true_iff in Hx as [_ Hx].
    apply andb_true_iff in Hx as [_ Hx]. apply andb_true_iff in Hx as [Hc _].
    unfold is_not in Hc. apply negb_true_iff in Hc. rewrite eqb_sym in Hc.
    destruct (Ascii.eqb "-" a); [|reflexivity].
    destruct (Ascii.eqb "-" b); [|reflexivity]. now rewrite Hc.
Qed.

(** The end of the directive is not found before the end of a body that
    ends with something else than white space and holds no [>]. *)
Lemma directive_end_fails (y : str) (z : ascii) (rest taken : str) (cs : list str) :
  is_space z = false -> forallb (is_not ">"%char) (y ++ [z]) = true ->
  run [Rep false true 0 is_space; Lit (js "-->")] taken cs
      ((y ++ [z]) ++ " "%char :: rest) = None.
Proof.
  intros Hz Hgt. apply run_rep_none. intros w s' E Hw _.
  rewrite <- app_assoc in E. cbn [app] in E. symmetry in E.
  destruct (run_within is_space w s' y z _ E Hw Hz) as (p' & -> & ->).
  cbn [run].
  change (p' ++ z :: " "%char :: rest) with (p' ++ [z] ++ " "%char :: rest).
  rewrite app_assoc. rewrite strip_arrow_fails; [reflexivity| |].
  - destruct p'; discriminate.
  - rewrite <- app_assoc, forallb_app in Hgt.
    now apply andb_true_iff in Hgt as [_ Hgt].
Qed.

Lemma suffix_ends_alike (u1 u2 y : str) (z : ascii) :
  u1 ++ u2 = y ++ [z] -> u2 <> [] -> exists y', u2 = y' ++ [z] /\ y = u1 ++ y'.
Proof.
  intros E Hne. destruct (exists_last Hne) as (y' & z' & ->).
  rewrite app_assoc in E. apply app_inj_tail in E as [<- <-]. now exists y'.
Qed.

Lemma exec_variantsRegex (body0 : str) (a z : ascii) (post : str) (body : str) :
  body = a :: body0 -> (exists y, body = y ++ [z]) ->
  is_space a = false -> is_space z = false ->
  forallb is_dot body = true -> forallb (is_not ">"%char) body = true ->
  exec_at variantsRegex (js "<!-- variants: " ++ body ++ js " -->" ++ post) =
  Some (MkMatch (js "<!-- variants: " ++ body ++ js " -->") [body] post).
Proof.
  intros Ea [y Ey] Ha Hz Hdot Hgt. unfold exec_at, variantsRegex.
  assert (E : js "<!-- variants: " ++ body ++ js " -->" ++ post =
              js "<!--" ++ js " " ++ js "variants:" ++ js " " ++ body
                 ++ js " " ++ js "-->" ++ post) by reflexivity.
  rewrite E. rewrite run_lit.
  apply run_rep_all; [reflexivity | reflexivity | apply Nat.le_0_l | ].
  rewrite run_lit.
  apply run_rep_all; [reflexivity | | apply Nat.le_0_l | ].
  { rewrite Ea. cbn [app stops]. now rewrite Ha. }
  apply run_rep_lazy_first.
  - assumption.
  - rewrite Ea. cbn [length]. lia.
  - intros u1 u2 Eu Hne _. rewrite Ey in Eu. symmetry in Eu.
    destruct (suffix_ends_alike u1 u2 y z Eu Hne) as (y' & -> & Ey').
    change (js " " ++ js "-->" ++ post) with (" "%char :: js "-->" ++ post).
    apply directive_end_fails; [assumption|].
    rewrite Ey, Ey', <- app_assoc, forallb_app in Hgt.
    now apply andb_true_iff in Hgt as [_ Hgt].
  - apply run_rep_all; [reflexivity | reflexivity | apply Nat.le_0_l | ].
    rewrite run_lit. cbn [run app]. f_equal. f_equal.
    cbn [js list_ascii_of_string app]. rewrite <- !app_assoc. reflexivity.
Qed.

Lemma tidy_parts (s : str) :
  tidy s = true ->
  (exists a s', s = a :: s' /\ is_space a = false)
  /\ (exists y z, s = y ++ [z] /\ is_space z = false)
  /\ forallb is_dot s = true
  /\ forallb (is_not ","%char) s = true
  /\ forallb (is_not ">"%char) s = true.
Proof.
  unfold tidy. intros H.
  apply andb_true_iff in H as [H Hav]. apply andb_true_iff in H as [H Hdot].
  apply andb_true_iff in H as [Hfirst Hlast].
  repeat split.
  - destruct s as [|a s']; [discriminate|]. exists a, s'.
    now apply negb_true_iff in Hfirst.
  - destruct (rev s) as [|z y] eqn:E; [discriminate|].
    exists (rev y), z. split; [|now apply negb_true_iff in Hlast].
    rewrite <- (rev_involutive s), E. reflexivity.
  - assumption.
  - apply (avoids_in [","%char; ">"%char]); simpl; auto.
  - apply (avoids_in [","%char; ">"%char]); simpl; auto.
Qed.

Lemma trim_tidy (lead s : str) :
  forallb is_space lead = true -> tidy s = true -> trim (lead ++ s) = s.
Proof.
  intros Hl Hs. destruct (tidy_parts s Hs) as ((a & s' & Ea & Ha) & (y & z & Ey & Hz) & _).
  unfold trim.
  assert (E : trimStart (lead ++ s) = s).
  { induction lead as [|b lead IH].
    - rewrite Ea. cbn [app trimStart]. now rewrite Ha.
    - cbn [forallb] in Hl. apply andb_true_iff in Hl as [Hb Hl].
      cbn [app trimStart]. rewrite Hb. now apply IH. }
  rewrite E. unfold trimEnd. rewrite Ey at 1. rewrite rev_app_distr.
  cbn [rev app trimStart]. rewrite Hz.
  change (z :: rev y) with ([z] ++ rev y).
  now rewrite rev_app_distr, rev_involutive, Ey.
Qed.

Lemma addVariant_tidy (variants : obj) (lead : str) (e : str * str) :
  forallb is_space lead = true -> wellFormedVariant e = true ->
  addVariant variants (lead ++ renderPair e) = obj_set (fst e) (snd e) variants.
Proof.
  intros Hl He. destruct e as [n c]. unfold wellFormedVariant in He.
  cbn [fst snd] in *. apply andb_true_iff in He as [He Hc].
  apply andb_true_iff in He as [Hn Heq].
  unfold renderPair. cbn [fst snd]. rewrite app_assoc.
  rewrite addVariant_pair.
  - destruct (tidy_parts n Hn) as ((a & n' & -> & _) & _).
    destruct (tidy_parts c Hc) as ((b & c' & Ec & _) & _).
    assert (T : truthy (lead ++ a :: n') && truthy c = true).
    { rewrite Ec. now destruct lead. }
    rewrite T. rewrite trim_tidy by assumption.
    pose proof (trim_tidy [] c eq_refl Hc) as Tc. cbn [app] in Tc.
    now rewrite Tc.
  - rewrite forallb_app, Heq, andb_true_r.
    revert Hl. apply forallb_impl. intros x. ascii_cases x.
Qed.

Lemma split_on_joined (pairs : list str) (p : str) :
  forallb (forallb (is_not ","%char)) (p :: pairs) = true ->
  split_on ","%char (join (js ", ") (p :: pairs)) =
  p :: map (fun q => " "%char :: q) pairs.
Proof.
  revert p. induction pairs as [|q pairs IH]; intros p H.
  - cbn [join map]. cbn [forallb] in H. apply andb_true_iff in H as [H _].
    now apply split_on_absent.
  - cbn [forallb] in H. apply andb_true_iff in H as [Hp H].
    change (join (js ", ") (p :: q :: pairs))
      with (p ++ ","%char :: " "%char :: join (js ", ") (q :: pairs)).
    rewrite split_on_first by assumption.
    cbn [map]. f_equal.
    cbn [split_on]. change (Ascii.eqb " " ",") with false. cbn iota.
    rewrite IH by assumption. reflexivity.
Qed.

Lemma fold_addVariant (l : list (str * str)) : forall (variants : obj),
  forallb wellFormedVariant l = true ->
  fold_left addVariant (map (fun q => " "%char :: q) (map renderPair l)) variants =
  fold_left (fun o e => obj_set (fst e) (snd e) o) l variants.
Proof.
  induction l as [|e l IH]; intros variants H; [reflexivity|].
  cbn [forallb] in H. apply andb_true_iff in H as [He H].
  cbn [map fold_left].
  change (" "%char :: renderPair e) with (js " " ++ renderPair e).
  rewrite addVariant_tidy by (assumption || reflexivity). now apply IH.
Qed.

Lemma ends_alike_app (x s : str) :
  (exists y z, s = y ++ [z] /\ is_space z = false) ->
  exists y z, x ++ s = y ++ [z] /\ is_space z = false.
Proof.
  intros (y & z & -> & Hz). exists (x ++ y), z. now rewrite app_assoc.
Qed.

Lemma pair_parts (e : str * str) :
  wellFormedVariant e = true ->
  (exists a s', renderPair e = a :: s' /\ is_space a = false)
  /\ (exists y z, renderPair e = y ++ [z] /\ is_space z = false)
  /\ forallb is_dot (renderPair e) = true
  /\ forallb (is_not ","%char) (renderPair e) = true
  /\ forallb (is_not ">"%char) (renderPair e) = true.
Proof.
  destruct e as [n c]. unfold wellFormedVariant, renderPair. cbn [fst snd].
  intros H. apply andb_true_iff in H as [H Hc]. apply andb_true_iff in H as [Hn _].
  destruct (tidy_parts n Hn) as ((a & n' & -> & Ha) & _ & Hd & Hco & Hg).
  destruct (tidy_parts c Hc) as (_ & Hlast & Hd' & Hco' & Hg').
  repeat split.
  - now exists a, (n' ++ "="%char :: c).
  - change ((a :: n') ++ "="%char :: c) with ((a :: n') ++ ["="%char] ++ c).
    rewrite app_assoc. now apply ends_alike_app.
  - rewrite forallb_app, Hd. cbn [forallb]. now rewrite Hd'.
  - rewrite forallb_app, Hco. cbn [forallb]. now rewrite Hco'.
  - rewrite forallb_app, Hg. cbn [forallb]. now rewrite Hg'.
Qed.

Lemma joined_parts (l : list (str * str)) (e : str * str) :
  forallb wellFormedVariant (e :: l) = true ->
  (exists a s', join (js ", ") (map renderPair (e :: l)) = a :: s'
                /\ is_space a = false)
  /\ (exists y z, join (js ", ") (map renderPair (e :: l)) = y ++ [z]
                  /\ is_space z = false)
  /\ forallb is_dot (join (js ", ") (map renderPair (e :: l))) = true
  /\ forallb (is_not ">"%char) (join (js ", ") (map renderPair (e :: l))) = true
  /\ forallb (forallb (is_not ","%char)) (map renderPair (e :: l)) = true.
Proof.
  revert e. induction l as [|e' l IH]; intros e H.
  - cbn [forallb] in H. apply andb_true_iff in H as [He _].
    destruct (pair_parts e He) as (H1 & H2 & H3 & H4 & H5).
    cbn [map join forallb]. rewrite H4. now repeat split.
  - cbn [forallb] in H. apply andb_true_iff in H as [He H].
    destruct (pair_parts e He) as ((a & s' & Ea & Ha) & _ & H3 & H4 & H5).
    destruct (IH e' H) as (_ & I2 & I3 & I4 & I5).
    change (join (js ", ") (map renderPair (e :: e' :: l)))
      with (renderPair e ++ js ", " ++ join (js ", ") (map renderPair (e' :: l))).
    repeat split.
    + rewrite Ea. now exists a, (s' ++ js ", " ++ join (js ", ") (map renderPair (e' :: l))).
    + rewrite app_assoc. now apply ends_alike_app.
    + rewrite !forallb_app, H3, I3. reflexivity.
    + rewrite !forallb_app, H5, I4. reflexivity.
    + change (map renderPair (e :: e' :: l))
        with (renderPair e :: map renderPair (e' :: l)).
      cbn [forallb] in *. now rewrite H4, I5.
Qed.

Section FirstDirective.
Variables c1 c2 : ascii.
Variable l : str.

Lemma search_past_two (r : regex) (pre s : str) :
  includes [c1; c2] pre = false -> starts_with c2 s = false ->
  search (Lit (c1 :: c2 :: l) :: r) (pre ++ s) = search (Lit (c1 :: c2 :: l) :: r) s.
Proof.
  induction pre as [|a pre IH]; intros H Hs; [reflexivity|].
  change ((a :: pre) ++ s) with (a :: (pre ++ s)).
  cbn [search]. unfold exec_at at 1. cbn [run].
  rewrite strip_prefix_two by assumption.
  apply IH; [|assumption]. now apply includes_cons in H.
Qed.

End FirstDirective.

Lemma parseVariants_rendered (l : list (str * str)) (pre post : str) :
  l <> [] -> forallb wellFormedVariant l = true ->
  includes (js "<!") pre = false ->
  parseVariants (pre ++ renderVariants l ++ post) = assignAll l.
Proof.
  intros Hne Hl Hpre. destruct l as [|e l]; [congruence|].
  destruct (joined_parts l e Hl) as ((a & s' & Ea & Ha) & (y & z & Ey & Hz) & Hd & Hg & Hc).
  unfold parseVariants, variantsRegex.
  change (js "<!--") with ("<"%char :: "!"%char :: js "--").
  rewrite search_past_two by (assumption || reflexivity).
  unfold renderVariants. rewrite <- !app_assoc.
  pose proof (exec_variantsRegex s' a z post _ Ea (ex_intro _ y Ey) Ha Hz Hd Hg) as E.
  unfold variantsRegex in E.
  change (js "<!--") with ("<"%char :: "!"%char :: js "--") in E.
  rewrite (search_hit _ _ _ E).
  unfold cap. cbn [caps nth Nat.sub].
  cbn [map] in Hc |- *.
  rewrite split_on_joined by assumption.
  cbn [map fold_left]. change (renderPair e) with ([] ++ renderPair e) at 1.
  cbn [forallb] in Hl. apply andb_true_iff in Hl as [He Hl].
  rewrite addVariant_tidy by (assumption || reflexivity).
  unfold assignAll. cbn [fold_left]. now apply fold_addVariant.
Qed.


(** X25. Round trip of the variants directive: the first directive of a
    component, written from a list of variants whose names and class lists
    are tidy, is read back as the table built by assigning them in order;
    what follows the directive is not looked at. When the names are
    distinct the table is the list, without the variant [__proto__], which
    no assignment makes a property. *)
Theorem parseVariants_round_trip (l : list (str * str)) (pre post : str) :
  l <> [] -> forallb wellFormedVariant l = true ->
  includes (js "<!") pre = false ->
  parseVariants (pre ++ renderVariants l ++ post) = assignAll l
  /\ (NoDup (map fst l) ->
      parseVariants (pre ++ renderVariants l ++ post) = filter assignable l).
Proof.
  intros Hne Hl Hpre. split; [now apply parseVariants_rendered|].
  intros Hd. rewrite parseVariants_rendered by assumption.
  unfold assignAll. now rewrite assign_distinct.
Qed.

Lemma parseVariants_round_trip_witness :
  parseVariants
    (js "<!-- variants: primary=btn btn-primary, ghost=btn-ghost, primary=btn-lg -->"
        ++ js "<button>{{ text }}</button><!-- variants: x=y -->")
  = [(js "primary", js "btn-lg"); (js "ghost", js "btn-ghost")]
  /\ parseVariants (js "<!-- variants: __proto__=a, ghost=btn-ghost -->")
     = [(js "ghost", js "btn-ghost")].
Proof.
  split.
  - apply (parseVariants_round_trip
             [(js "primary", js "btn btn-primary"); (js "ghost", js "btn-ghost");
              (js "primary", js "btn-lg")]
             [] (js "<button>{{ text }}</button><!-- variants: x=y -->"));
      first [discriminate | reflexivity].
  - apply (proj2 (parseVariants_round_trip
                    [(js "__proto__", js "a"); (js "ghost", js "btn-ghost")] [] []
                    ltac:(discriminate) eq_refl eq_refl)).
    repeat constructor; cbn; intuition discriminate.
Defined.

Lemma obj_get_define (k k' v : str) (o : obj) :
  obj_get k (obj_define k' v o) = if str_eqb k k' then Some v else obj_get k o.
Proof.
  induction o as [|[k0 v0] o IH]; cbn [obj_define obj_get].
  - reflexivity.
  - destruct (str_eqb k' k0) eqn:E0; cbn [obj_get].
    + apply str_eqb_eq in E0. subst k0. now destruct (str_eqb k k').
    + destruct (str_eqb k k0) eqn:E1.
      * destruct (str_eqb k k') eqn:E2; [|reflexivity].
        apply str_eqb_eq in E1, E2. subst. now rewrite str_eqb_refl in E0.
      * exact IH.
Qed.

Lemma obj_get_set (k k' v c : str) (o : obj) :
  obj_get k (obj_set k' v o) = Some c -> c = v \/ obj_get k o = Some c.
Proof.
  unfold obj_set.
  assert (D : obj_get k (obj_define k' v o) = Some c ->
              c = v \/ obj_get k o = Some c).
  { rewrite obj_get_define. destruct (str_eqb k k'); [|now right].
    intros H. injection H as <-. now left. }
  destruct (obj_get k' o); [exact D|].
  destruct (str_eqb k' (js "__proto__")); [now right|exact D].
Qed.

Lemma obj_get_assigned (k c : str) (l : list (str * str)) : forall o : obj,
  obj_get k (fold_left (fun o e => obj_set (fst e) (snd e) o) l o) = Some c ->
  (exists e, In e l /\ snd e = c) \/ obj_get k o = Some c.
Proof.
  induction l as [|e l IH]; intros o H; [now right|].
  cbn [fold_left] in H. destruct (IH _ H) as [(e' & Hin & He') | H'].
  - left. exists e'. split; [now right|assumption].
  - apply obj_get_set in H' as [-> | H']; [|now right].
    left. exists e. split; [now left|reflexivity].
Qed.

Lemma renderVariants_no_brace (l : list (str * str)) :
  forallb (fun e => forallb (is_not "{"%char) (fst e)
                    && forallb (is_not "{"%char) (snd e)) l = true ->
  forallb (is_not "{"%char) (renderVariants l) = true.
Proof.
  intros H. unfold renderVariants. rewrite !forallb_app.
  assert (E : forallb (is_not "{"%char) (join (js ", ") (map renderPair l)) = true).
  { induction l as [|e l IH]; [reflexivity|].
    cbn [forallb] in H. apply andb_true_iff in H as [He H].
    apply andb_true_iff in He as [Hn Hc].
    assert (Hp : forallb (is_not "{"%char) (renderPair e) = true).
    { destruct e as [n c]. unfold renderPair. cbn [fst snd] in *.
      rewrite forallb_app, Hn. cbn [forallb]. now rewrite Hc. }
    destruct l as [|e' l]; [exact Hp|].
    change (join (js ", ") (map renderPair (e :: e' :: l)))
      with (renderPair e ++ js ", " ++ join (js ", ") (map renderPair (e' :: l))).
    rewrite !forallb_app, Hp, (IH H). reflexivity. }
  rewrite E. reflexivity.
Qed.

Lemma replace_call_skip (r : regex) (f : str -> option str) (u s : str) :
  replace_call r f (length u) (u ++ s) = replace_call r f 0 s.
Proof. induction u as [|a u IH]; [reflexivity|exact IH]. Qed.

(** A function called for the one placeholder of a text. *)
Lemma replace_call_placeholder (key : str) (f : str -> option str)
    (pre w1 w2 post : str) :
  forallb (is_not "{"%char) pre = true ->
  forallb is_space w1 = true -> forallb is_space w2 = true ->
  key <> [] -> stops is_space key = true ->
  forallb (is_not "{"%char) post = true ->
  replace_call (placeholderRegex key) f 0 (pre ++ placeholder w1 key w2 ++ post) =
  match f (placeholder w1 key w2) with
  | Some t => Ok (pre ++ t ++ post)
  | None => TypeError
  end.
Proof.
  intros Hpre H1 H2 Hne Hk Hpost.
  assert (Epost : replace_call (placeholderRegex key) f 0 post = Ok post).
  { unfold placeholderRegex. change (js "{{") with ["{"%char; "{"%char].
    rewrite <- (app_nil_r post) at 1. rewrite replace_call_past by assumption.
    cbn [replace_call exec_at run strip_prefix]. now rewrite app_nil_r. }
  unfold placeholderRegex at 1. change (js "{{") with ["{"%char; "{"%char].
  rewrite replace_call_past by assumption.
  change (Lit ["{"%char; "{"%char] :: _) with (placeholderRegex key).
  pose proof (exec_placeholder_key key w1 w2 post H1 H2 Hne Hk) as E.
  remember (placeholder w1 key w2) as ph eqn:Eph.
  assert (Hph : exists u, ph = "{"%char :: u).
  { subst ph. unfold placeholder. cbn [js list_ascii_of_string app]. eauto. }
  destruct Hph as [u ->].
  change (("{"%char :: u) ++ post) with ("{"%char :: u ++ post) in *.
  unfold replace_call at 1; fold replace_call. rewrite E. cbn [m0].
  destruct (f ("{"%char :: u)) as [t|]; [|reflexivity].
  now rewrite replace_call_skip, Epost.
Qed.

(** X26. A variant bound: in a component that starts with its variants
    directive and holds one [{{ variantClasses }}], the placeholder is
    replaced by the class list of the variant asked for, and by nothing
    when no property of the table has that name; the directive stays in
    the markup. The table is read through [Object.prototype]: asked for
    the variant [toString], [isPrototypeOf] or [__proto__] the class is
    [[object Undefined]], [false] or [[object Object]]; asked for
    [constructor] it is empty; asked for another member, [valueOf] for
    one, the binding throws. *)
Theorem bindSelfClosing_binds_variant :
  forall (l : list (str * str)) (name variant m1 w1 w2 m2 : str),
    l <> [] -> forallb wellFormedVariant l = true ->
    forallb (fun e => forallb (is_not "{"%char) (fst e)
                      && forallb (is_not "{"%char) (snd e)) l = true ->
    forallb (fun e => avoids ["$"%char] (snd e)) l = true ->
    forallb (is_not "{"%char) m1 = true -> forallb (is_not "{"%char) m2 = true ->
    forallb is_space w1 = true -> forallb is_space w2 = true ->
    bindSelfClosing
      (renderVariants l ++ m1 ++ placeholder w1 (js "variantClasses") w2 ++ m2)
      [(js "src", name); (js "variant", variant)]
    = match obj_get variant (assignAll l) with
      | Some c => Ok (renderVariants l ++ m1 ++ c ++ m2)
      | None =>
          match lookup variant members with
          | None | Some Constructor => Ok (renderVariants l ++ m1 ++ m2)
          | Some ToString =>
              Ok (renderVariants l ++ m1 ++ js "[object Undefined]" ++ m2)
          | Some IsPrototypeOf => Ok (renderVariants l ++ m1 ++ js "false" ++ m2)
          | Some Proto => Ok (renderVariants l ++ m1 ++ js "[object Object]" ++ m2)
          | Some _ => TypeError
          end
      end.
Proof.
  intros l name variant m1 w1 w2 m2 Hne Hl Hbr Hdol Hm1 Hm2 Hw1 Hw2.
  pose proof (renderVariants_no_brace l Hbr) as Hdir.
  assert (Hpre : forallb (is_not "{"%char) (renderVariants l ++ m1) = true)
    by (now rewrite forallb_app, Hdir, Hm1).
  unfold bindSelfClosing.
  assert (Ev : parseVariants
                 (renderVariants l ++ m1
                    ++ placeholder w1 (js "variantClasses") w2 ++ m2)
               = assignAll l)
    by (apply (parseVariants_rendered l [] _); assumption || reflexivity).
  rewrite Ev.
  change (entries [(js "src", name); (js "variant", variant)])
    with [(js "src", name); (js "variant", variant)].
  cbn [fold_left]. unfold bindSelfClosingProp at 2.
  change (str_eqb (js "src") (js "variant")) with false.
  change (str_eqb (js "src") (js "src")) with true. cbn [andb negb].
  unfold bindSelfClosingProp.
  change (str_eqb (js "variant") (js "variant")) with true.
  change (str_eqb (js "variant") (js "src")) with false. cbn [andb negb].
  assert (Hleft : replaceAll (placeholderRegex (js "variantClasses")) []
                    (renderVariants l ++ m1
                       ++ placeholder w1 (js "variantClasses") w2 ++ m2)
                  = renderVariants l ++ m1 ++ m2).
  { rewrite (app_assoc (renderVariants l) m1).
    rewrite replaceAll_placeholder_plain;
      [| assumption | assumption | assumption | discriminate | reflexivity
       | reflexivity].
    rewrite (replaceAll_without_brace _ _ m2) by assumption.
    now rewrite <- app_assoc. }
  assert (Hplain : forall c, avoids ["$"%char] c = true ->
            forallb (is_not "{"%char) c = true -> c <> [] ->
            match replaceAllBy (placeholderRegex (js "variantClasses")) (Own c)
                    (renderVariants l ++ m1
                       ++ placeholder w1 (js "variantClasses") w2 ++ m2) with
            | Ok content =>
                Ok (replaceAll (placeholderRegex (js "variantClasses")) [] content)
            | TypeError => TypeError
            end = Ok (renderVariants l ++ m1 ++ c ++ m2)).
  { intros c Hc1 Hc2 Hc3. cbn [replaceAllBy].
    rewrite (app_assoc (renderVariants l) m1).
    rewrite replaceAll_placeholder_plain;
      [| assumption | assumption | assumption | discriminate | reflexivity
       | assumption].
    rewrite (replaceAll_without_brace _ _ m2) by assumption.
    rewrite <- app_assoc. f_equal. apply replaceAll_without_brace.
    now rewrite forallb_app, Hdir, forallb_app, Hm1, forallb_app, Hc2, Hm2. }
  assert (Hcall : forall f,
            replace_call (placeholderRegex (js "variantClasses")) f 0
              (renderVariants l ++ m1
                 ++ placeholder w1 (js "variantClasses") w2 ++ m2)
            = match f (placeholder w1 (js "variantClasses") w2) with
              | Some t => Ok (renderVariants l ++ m1 ++ t ++ m2)
              | None => TypeError
              end).
  { intros f. rewrite (app_assoc (renderVariants l) m1).
    rewrite replace_call_placeholder;
      try (assumption || discriminate || reflexivity).
    destruct (f _); [now rewrite <- app_assoc|reflexivity]. }
  unfold obj_read.
  destruct (obj_get variant (assignAll l)) as [c|] eqn:Ec.
  - assert (Hc : avoids ["$"%char] c = true /\ forallb (is_not "{"%char) c = true).
    { unfold assignAll in Ec. apply obj_get_assigned in Ec as [(e & Hin & <-) | Ec];
        [|discriminate].
      rewrite forallb_forall in Hdol, Hbr. split; [now apply Hdol|].
      specialize (Hbr e Hin). now apply andb_true_iff in Hbr as [_ Hbr]. }
    destruct Hc as [Hc1 Hc2]. cbn [truthy_value].
    destruct c as [|x c]; cbn [truthy andb].
    + now rewrite Hleft.
    + now apply Hplain.
  - destruct (lookup variant members) as [m|]; cbn [truthy_value andb];
      [|now rewrite Hleft].
    destruct m; cbn [replaceAllBy]; rewrite ?Hcall; cbn [call_member];
      try reflexivity.
    + now rewrite Hleft.
    + f_equal. apply replaceAll_without_brace.
      rewrite forallb_app, Hdir, forallb_app, Hm1, forallb_app, Hm2. reflexivity.
    + f_equal. apply replaceAll_without_brace.
      rewrite forallb_app, Hdir, forallb_app, Hm1, forallb_app, Hm2. reflexivity.
    + apply (Hplain (js "[object Object]")); reflexivity || discriminate.
Qed.

Lemma bindSelfClosing_binds_variant_witness :
  bindSelfClosing
    (js "<!-- variants: primary=btn-primary, ghost=btn-ghost --><a class="
        ++ quoted (js "{{ variantClasses }}") ++ js ">x</a>")
    [(js "src", js "Link"); (js "variant", js "ghost")]
  = Ok (js "<!-- variants: primary=btn-primary, ghost=btn-ghost --><a class="
           ++ quoted (js "btn-ghost") ++ js ">x</a>")
  /\ bindSelfClosing
       (js "<!-- variants: primary=btn-primary, ghost=btn-ghost --><a class="
           ++ quoted (js "{{ variantClasses }}") ++ js ">x</a>")
       [(js "src", js "Link"); (js "variant", js "toString")]
     = Ok (js "<!-- variants: primary=btn-primary, ghost=btn-ghost --><a class="
              ++ quoted (js "[object Undefined]") ++ js ">x</a>")
  /\ bindSelfClosing
       (js "<!-- variants: primary=btn-primary, ghost=btn-ghost --><a class="
           ++ quoted (js "{{ variantClasses }}") ++ js ">x</a>")
       [(js "src", js "Link"); (js "variant", js "valueOf")]
     = TypeError.
Proof.
  split; [|split];
    [ apply (bindSelfClosing_binds_variant
               [(js "primary", js "btn-primary"); (js "ghost", js "btn-ghost")]
               (js "Link") (js "ghost") (js "<a class=" ++ [dq]) (js " ") (js " ")
               (dq :: js ">x</a>"))
    | apply (bindSelfClosing_binds_variant
               [(js "primary", js "btn-primary"); (js "ghost", js "btn-ghost")]
               (js "Link") (js "toString") (js "<a class=" ++ [dq]) (js " ") (js " ")
               (dq :: js ">x</a>"))
    | apply (bindSelfClosing_binds_variant
               [(js "primary", js "btn-primary"); (js "ghost", js "btn-ghost")]
               (js "Link") (js "valueOf") (js "<a class=" ++ [dq]) (js " ") (js " ")
               (dq :: js ">x</a>")) ];
    first [discriminate | reflexivity].
Defined.

(** ** The child-bearing form *)

Lemma scan_props (l : list (str * str)) :
  forallb wellFormedProp l = true ->
  map (fun m => (cap 1 m, cap 2 m)) (scan (attrRegex is_word) 0 (renderProps l)) = l.
Proof.
  induction l as [|[k v] l IH]; intros Hl; [reflexivity|].
  cbn [forallb] in Hl. apply andb_true_iff in Hl as [He Hl].
  unfold wellFormedProp in He. cbn [fst snd] in He.
  apply andb_true_iff in He as [Hk Hv]. apply andb_true_iff in Hk as [Hne Hk].
  assert (Hdq : forallb (is_not dq) v = true)
    by (apply (avoids_in [dq; ">"%char]); simpl; auto).
  unfold renderProps in *. cbn [map concat].
  set (R := concat (map (fun e => js " " ++ renderAttr e) l)) in *.
  unfold renderAttr. cbn [fst snd]. unfold quoted.
  destruct k as [|a k]; [discriminate|].
  assert (E : exec_at (attrRegex is_word)
                ((a :: k) ++ (js "=" ++ [dq]) ++ v ++ [dq] ++ R) =
              Some (MkMatch ((a :: k) ++ (js "=" ++ [dq]) ++ v ++ [dq]) [a :: k; v] R))
    by (apply exec_attrRegex_attr; [reflexivity|discriminate|assumption|assumption]).
  assert (Es : (js " " ++ (a :: k) ++ js "=" ++ dq :: v ++ [dq]) ++ R =
               " "%char :: a :: (k ++ (js "=" ++ [dq]) ++ v ++ [dq]) ++ R).
  { cbn [app js list_ascii_of_string]. rewrite <- !app_assoc.
    cbn [app]. rewrite <- !app_assoc. reflexivity. }
  rewrite Es.
  assert (Es' : (a :: k) ++ (js "=" ++ [dq]) ++ v ++ [dq] ++ R =
                a :: (k ++ (js "=" ++ [dq]) ++ v ++ [dq]) ++ R).
  { cbn [app js list_ascii_of_string]. rewrite <- !app_assoc.
    cbn [app]. rewrite <- !app_assoc. reflexivity. }
  rewrite Es' in E.
  rewrite scan_miss by (now apply exec_attrRegex_stop).
  rewrite (scan_hit _ _ _ _ (k ++ (js "=" ++ [dq]) ++ v ++ [dq]) E eq_refl).
  rewrite scan_skip.
  cbn [map]. unfold cap at 1 2. cbn [caps nth Nat.sub].
  f_equal. now apply IH.
Qed.

Lemma parseAttributes_props (l : list (str * str)) :
  forallb wellFormedProp l = true -> parseAttributes (renderProps l) = assignAll l.
Proof.
  intros Hl. unfold parseAttributes, collectAttrs, matchAll, assignAll.
  rewrite <- (scan_props l Hl) at 2.
  generalize (scan (attrRegex is_word) 0 (renderProps l)).
  generalize (@nil (str * str)).
  intros o ms. revert o. induction ms as [|m ms IH]; intros o; [reflexivity|].
  cbn [fold_left map fst snd]. apply IH.
Qed.

Lemma renderProps_no_gt (l : list (str * str)) :
  forallb wellFormedProp l = true ->
  forallb (is_not ">"%char) (renderProps l) = true.
Proof.
  induction l as [|[k v] l IH]; intros Hl; [reflexivity|].
  cbn [forallb] in Hl. apply andb_true_iff in Hl as [He Hl].
  unfold wellFormedProp in He. cbn [fst snd] in He.
  apply andb_true_iff in He as [Hk Hv]. apply andb_true_iff in Hk as [_ Hk].
  unfold renderProps in *. cbn [map concat].
  rewrite forallb_app, IH by assumption.
  rewrite andb_true_r. unfold renderAttr, quoted. cbn [fst snd].
  rewrite !forallb_app. cbn [forallb]. rewrite forallb_app. cbn [forallb].
  assert (Hk' : forallb (is_not ">"%char) k = true).
  { revert Hk. apply forallb_impl. intros a Ha. apply name_char_not_gt.
    unfold is_word_or_hyphen. now rewrite Ha. }
  rewrite Hk'.
  rewrite (avoids_in [dq; ">"%char] ">"%char v) by (simpl; auto).
  reflexivity.
Qed.

Section ThreeCharacters.
Variables c1 c2 c3 : ascii.
Variable l : str.

Lemma strip_prefix_three (a : ascii) (pre s : str) :
  includes [c1; c2; c3] (a :: pre) = false ->
  starts_with c2 s = false -> starts_with c3 s = false ->
  strip_prefix (c1 :: c2 :: c3 :: l) (a :: pre ++ s) = None.
Proof.
  intros H H2 H3. apply includes_cons in H as [H _].
  cbn [strip_prefix] in *.
  destruct (Ascii.eqb c1 a); [|reflexivity].
  destruct pre as [|b pre]; cbn [app].
  - destruct s as [|x s]; [reflexivity|]. cbn [starts_with] in H2.
    rewrite eqb_sym. now rewrite H2.
  - destruct (Ascii.eqb c2 b); [|reflexivity].
    destruct pre as [|c pre]; cbn [app].
    + destruct s as [|x s]; [reflexivity|]. cbn [starts_with] in H3.
      rewrite eqb_sym. now rewrite H3.
    + destruct (Ascii.eqb c3 c); [discriminate|reflexivity].
Qed.

End ThreeCharacters.

Lemma includes_suffix (p u1 u2 : str) :
  includes p (u1 ++ u2) = false -> includes p u2 = false.
Proof.
  induction u1 as [|a u1 IH]; intros H; [exact H|].
  cbn [app] in H. apply includes_cons in H as [_ H]. now apply IH.
Qed.

Lemma exec_childrenRegex (name : str) (props : list (str * str))
    (children post : str) :
  name <> [] -> forallb (is_not dq) name = true ->
  forallb wellFormedProp props = true ->
  includes (js "</C") children = false ->
  exec_at childrenRegex (childTag name props children ++ post) =
  Some (MkMatch (childTag name props children)
                [name; renderProps props; children] post).
Proof.
  intros Hne Hn Hp Hc. unfold exec_at, childrenRegex.
  assert (E : childTag name props children ++ post =
              js "<Component" ++ js " " ++ (js "name=" ++ [dq]) ++ name ++ [dq]
                 ++ renderProps props ++ js ">" ++ children
                 ++ js "</Component>" ++ post).
  { unfold childTag, quoted. cbn [js list_ascii_of_string].
    do 3 (cbn [app]; rewrite <- ?app_assoc). reflexivity. }
  rewrite E. rewrite run_lit.
  apply run_rep_all; [reflexivity | reflexivity | cbn; lia | ].
  rewrite run_lit.
  apply run_rep_all; [assumption | reflexivity | | ].
  { destruct name; [congruence|cbn; lia]. }
  rewrite run_lit.
  apply run_rep_all;
    [now apply renderProps_no_gt | reflexivity | apply Nat.le_0_l | ].
  rewrite run_lit.
  apply run_rep_lazy_first.
  - clear. induction children; [reflexivity|assumption].
  - apply Nat.le_0_l.
  - intros u1 u2 Eu Hu2 _. cbn [run].
    destruct u2 as [|a u2]; [congruence|].
    rewrite Eu in Hc. apply includes_suffix in Hc.
    change (js "</Component>")
      with ("<"%char :: "/"%char :: "C"%char :: js "omponent>") at 1.
    cbn [app]. now rewrite strip_prefix_three.
  - rewrite run_lit. cbn [run]. f_equal. f_equal.
    unfold childTag, quoted. cbn [js list_ascii_of_string].
    do 3 (cbn [app]; rewrite <- ?app_assoc). reflexivity.
Qed.





(** X28. Props reach the children: the children are put in place first,
    so a placeholder they hold is bound to the component's prop of that
    name. *)
Theorem bindChildren_binds_props_in_children :
  forall (key value m1 w1 w2 m2 c1 v1 v2 c2 : str),
    key <> [] -> forallb is_word key = true -> array_index key = None ->
    forallb (is_not "{"%char) m1 = true -> forallb (is_not "{"%char) m2 = true ->
    avoids ["$"%char; "{"%char] c1 = true -> avoids ["$"%char; "{"%char] c2 = true ->
    forallb is_space w1 = true -> forallb is_space w2 = true ->
    forallb is_space v1 = true -> forallb is_space v2 = true ->
    avoids ["$"%char] value = true ->
    bindChildren (m1 ++ placeholder w1 (js "children") w2 ++ m2)
      (c1 ++ placeholder v1 key v2 ++ c2) [(key, value)]
    = m1 ++ (c1 ++ value ++ c2) ++ m2.
Proof.
  intros key value m1 w1 w2 m2 c1 v1 v2 c2 Hne Hw Hidx Hm1 Hm2 Hc1 Hc2
         Hw1 Hw2 Hv1 Hv2 Hval.
  assert (Hc1b : forallb (is_not "{"%char) c1 = true)
    by (apply (avoids_in ["$"%char; "{"%char]); simpl; auto).
  assert (Hc2b : forallb (is_not "{"%char) c2 = true)
    by (apply (avoids_in ["$"%char; "{"%char]); simpl; auto).
  assert (Hc1d : avoids ["$"%char] c1 = true).
  { revert Hc1. apply avoids_incl. intros x Hx. simpl in *. intuition. }
  assert (Hc2d : avoids ["$"%char] c2 = true).
  { revert Hc2. apply avoids_incl. intros x Hx. simpl in *. intuition. }
  assert (Hkey : avoids ["$"%char] key = true).
  { unfold avoids. revert Hw. apply forallb_impl. intros a. ascii_cases a. }
  assert (Hsp : forall w, forallb is_space w = true -> avoids ["$"%char] w = true).
  { intros w. unfold avoids. apply forallb_impl. intros a. ascii_cases a. }
  unfold bindChildren.
  rewrite replaceAll_placeholder_plain;
    [| assumption | assumption | assumption | discriminate | reflexivity | ].
  2:{ unfold placeholder. rewrite !avoids_app, Hc1d, Hc2d, Hkey.
      now rewrite (Hsp v1 Hv1), (Hsp v2 Hv2). }
  rewrite (replaceAll_without_brace _ _ m2) by assumption.
  assert (E : entries [(key, value)] = [(key, value)]).
  { unfold entries. cbn [index_entries filter fst]. now rewrite Hidx. }
  rewrite E. cbn [fold_left]. unfold bindProp. cbn [fst snd].
  rewrite <- !app_assoc. rewrite (app_assoc m1 c1).
  rewrite replaceAll_placeholder_plain; try assumption;
    [| now rewrite forallb_app, Hm1, Hc1b | now apply word_stops_space].
  rewrite replaceAll_without_brace by (now rewrite forallb_app, Hc2b, Hm2).
  now rewrite <- !app_assoc.
Qed.

Lemma bindChildren_binds_props_in_children_witness :
  bindChildren (js "<section>{{ children }}</section>") (js "<h2>{{ title }}</h2>")
    [(js "title", js "News")]
  = js "<section><h2>News</h2></section>".
Proof.
  apply (bindChildren_binds_props_in_children (js "title") (js "News")
           (js "<section>") (js " ") (js " ") (js "</section>")
           (js "<h2>") (js " ") (js " ") (js "</h2>"));
    first [discriminate | reflexivity].
Defined.

Lemma requestedPage_is_html (h : host) (srcRoot url page : str) :
  startsWith (js "/") url = true ->
  requestedPage h srcRoot url = Some page ->
  endsWith (js ".html") page = true.
Proof.
  intros Hs. unfold requestedPage.
  destruct (startsWith (js "/@") url || startsWith (js "/__") url); [discriminate|].
  destruct (isAssetRequest url); [discriminate|].
  destruct (str_eqb url (js "/") || str_eqb url (js "/index")
            || str_eqb url (js "/index.html")).
  { intros [= <-]. reflexivity. }
  destruct (endsWith (js ".html") url) eqn:E.
  - intros [= <-]. apply starts_with_slash in Hs as [u ->]. cbn [tl].
    apply endsWith_suffix in E as [pre E]. apply endsWith_suffix.
    destruct pre as [|a pre]; [discriminate|].
    injection E as _ ->. now exists pre.
  - destruct (fs_access h (path_join h [srcRoot; tl url ++ js ".html"]));
      [|discriminate].
    intros [= <-]. apply endsWith_suffix. now exists (tl url).
Qed.

Lemma injectClient_includes (html : str) :
  includes viteClient (injectClient html) = true.
Proof.
  unfold injectClient.
  destruct (replace_first_cases (js "</body>") (viteClient ++ js "</body>") html)
    as [[Hno _] | (pre & post & E & _ & Hr)].
  - rewrite Hno. rewrite <- (app_nil_r viteClient) at 2. apply includes_occurrence.
  - subst html. rewrite includes_occurrence, Hr.
    rewrite getSubstitution_plain by reflexivity.
    rewrite <- app_assoc. apply includes_occurrence.
Qed.

(** X29. What the development server sends: for a request whose target
    starts with a slash, a page read from a path that ends with [.html],
    compiled, cleaned, and holding the client script. *)
Theorem middleware_sends_compiled_page :
  forall (h : host) (depth : nat) (srcRoot projectRoot url out : str),
    startsWith (js "/") url = true ->
    middleware h depth srcRoot projectRoot url = Some (Sent out) ->
    exists page source compiled : str,
      endsWith (js ".html") page = true
      /\ fs_readFile h (path_join h [srcRoot; page]) = Some source
      /\ compileHtml h depth source srcRoot (Some projectRoot) = Some (Ok compiled)
      /\ out = injectClient (cleanUnusedPlaceholders compiled)
      /\ includes viteClient out = true.
Proof.
  intros h depth srcRoot projectRoot url out Hs. unfold middleware.
  destruct (requestedPage h srcRoot url) as [page|] eqn:Ep; [|discriminate].
  destruct (fs_readFile h (path_join h [srcRoot; page])) as [source|] eqn:Er;
    [|discriminate].
  destruct (compileHtml h depth source srcRoot (Some projectRoot))
    as [[compiled|]|] eqn:Ec; [|discriminate..].
  intros [= <-]. exists page, source, compiled.
  repeat split; try assumption; try reflexivity.
  - now apply (requestedPage_is_html h srcRoot url).
  - apply injectClient_includes.
Qed.

Lemma middleware_sends_compiled_page_witness :
  middleware
    (mem_host [(js "/site/src/about.html",
                js "<body>" ++ srcTag (js "Nav") ++ js "{{ x }}</body>");
               (js "/site/src/components/Nav.html", js "<nav></nav>")] [])
    2 (js "/site/src") (js "/site") (js "/about")
  = Some (Sent (js "<body><nav></nav>" ++ viteClient ++ js "</body>"))
  /\ exists page source compiled : str,
       endsWith (js ".html") page = true
       /\ fs_readFile
            (mem_host [(js "/site/src/about.html",
                        js "<body>" ++ srcTag (js "Nav") ++ js "{{ x }}</body>");
                       (js "/site/src/components/Nav.html", js "<nav></nav>")] [])
            (posix_join [js "/site/src"; page]) = Some source
       /\ compileHtml
            (mem_host [(js "/site/src/about.html",
                        js "<body>" ++ srcTag (js "Nav") ++ js "{{ x }}</body>");
                       (js "/site/src/components/Nav.html", js "<nav></nav>")] [])
            2 source (js "/site/src") (Some (js "/site")) = Some (Ok compiled)
       /\ js "<body><nav></nav>" ++ viteClient ++ js "</body>"
          = injectClient (cleanUnusedPlaceholders compiled)
       /\ includes viteClient (js "<body><nav></nav>" ++ viteClient ++ js "</body>")
          = true.
Proof.
  assert (H1 : startsWith (js "/") (js "/about") = true) by reflexivity.
  assert (H2 : middleware
                 (mem_host [(js "/site/src/about.html",
                             js "<body>" ++ srcTag (js "Nav") ++ js "{{ x }}</body>");
                            (js "/site/src/components/Nav.html", js "<nav></nav>")] [])
                 2 (js "/site/src") (js "/site") (js "/about")
               = Some (Sent (js "<body><nav></nav>" ++ viteClient ++ js "</body>")))
    by (vm_compute; reflexivity).
  split; [exact H2|].
  exact (middleware_sends_compiled_page _ _ _ _ _ _ H1 H2).
Defined.

(** ** The inliners and the plugin on concrete inputs *)

(** The [i] flag covers the tag and [rel], not the [href] inside the tag. *)
Example inlineCss_letter_case :
  inlineCss (mem_host [(js "/site/src/a.css", js "a{}")] [])
    (js "<LINK REL=" ++ quoted (js "StyleSheet") ++ js " href=" ++ quoted (js "a.css")
        ++ js "><link rel=" ++ quoted (js "stylesheet") ++ js " HREF="
        ++ quoted (js "a.css") ++ js ">")
    (js "/site/src") (js "/site")
  = styleTag (js "a{}") ++ js "<link rel=" ++ quoted (js "stylesheet") ++ js " HREF="
      ++ quoted (js "a.css") ++ js ">".
Proof. vm_compute. reflexivity. Qed.

(** A script element with text between its tags is not inlined. *)
Example inlineJs_needs_empty_element :
  inlineJs (mem_host [(js "/site/src/a.js", js "f()")] [])
    (js "<script src=" ++ quoted (js "a.js") ++ js "> </script>")
    (js "/site/src") (js "/site")
  = js "<script src=" ++ quoted (js "a.js") ++ js "> </script>".
Proof. vm_compute. reflexivity. Qed.

Example getHtmlFiles_of_a_site :
  getHtmlFiles bare (js "/site/src") [] (js "components")
    (Some [ File (js "index.html"); File (js "README.md"); File (js "OLD.HTML");
            Dir (js "blog") (Some [ File (js "post.html");
                                    Dir (js "components") (Some [File (js "x.html")]) ]);
            Dir (js "drafts") None;
            Dir (js "components") (Some [File (js "Card.html")]) ])
  = [js "index.html"; js "blog/post.html"].
Proof. vm_compute. reflexivity. Qed.

Example getAllFilesExcludingDir_of_a_site :
  getAllFilesExcludingDir bare (js "/site/src") (js "components")
    (Some [ File (js "index.html");
            Dir (js "assets") (Some [File (js "a.css")]);
            Dir (js "components") (Some [File (js "Card.html")]) ])
  = [js "/site/src/index.html"; js "/site/src/assets/a.css"].
Proof. vm_compute. reflexivity. Qed.

Example requestedPage_routes :
  requestedPage bare (js "/site/src") (js "/") = Some (js "index.html")
  /\ requestedPage bare (js "/site/src") (js "/docs/intro.html")
     = Some (js "docs/intro.html")
  /\ requestedPage bare (js "/site/src") (js "/@vite/client") = None
  /\ requestedPage bare (js "/site/src") (js "/styles/Main.CSS") = None
  /\ requestedPage bare (js "/site/src") (js "/about") = None
  /\ requestedPage (mem_host [(js "/site/src/about.html", [])] [])
       (js "/site/src") (js "/about") = Some (js "about.html").
Proof. vm_compute. repeat split; reflexivity. Qed.

Example injectClient_without_body :
  injectClient (js "<p>x</p>") = js "<p>x</p>" ++ viteClient.
Proof. vm_compute. reflexivity. Qed.

(** A target with dot segments is answered from outside the source root. *)
Example middleware_dot_segments :
  middleware (mem_host [(js "/site/notes.html", js "<p>notes</p>")] [])
    1 (js "/site/src") (js "/site") (js "/../notes.html")
  = Some (Sent (js "<p>notes</p>" ++ viteClient)).
Proof. vm_compute. reflexivity. Qed.

(** A variant named like a member of [Object.prototype] that throws when
    it is called: the compilation throws, and the server passes the
    request on. *)
Example variant_named_like_a_member :
  compileHtml link 3
    (js "<Component " ++ attr "src" "Link" ++ js " " ++ attr "variant" "valueOf"
        ++ js " />") fx (Some fx)
  = Some TypeError
  /\ compileHtml link 3
       (js "<Component " ++ attr "src" "Link" ++ js " " ++ attr "variant" "toString"
           ++ js " " ++ attr "text" "Go" ++ js " />") fx (Some fx)
     = Some (Ok (link_markup "[object Undefined]" "Go"))
  /\ middleware
       (mem_host [ (js "/fx/index.html",
                    js "<Component " ++ attr "src" "Link" ++ js " "
                       ++ attr "variant" "valueOf" ++ js " />");
                   (js "/fx/components/Link.html",
                    js "<a class=" ++ quoted (js "{{ variantClasses }}") ++ js "></a>") ]
                 [])
       3 fx fx (js "/")
     = Some Next.
Proof. repeat split; vm_compute; reflexivity. Qed.

(** * Pages of components *)

(** ** A pass over a sequence of items *)

Section Pass.
Variable r : regex.
Variable step : option result -> match_result -> option result.
Hypothesis never_empty : exec_at r [] = None.

Lemma scan_items (outs : list str) (items : list item) :
  Forall (item_ok r step outs) items ->
  scan r 0 (concat (map fst items)) = matches_of items.
Proof.
  induction 1 as [|[x k] items Hx _ IH];
    [cbn [map concat scan matches_of]; now rewrite never_empty|].
  cbn [map concat fst matches_of]. unfold item_ok in Hx. cbn [fst snd] in Hx.
  assert (Hhit : forall cs, hit r x cs ->
            scan r 0 (x ++ concat (map fst items)) =
            MkMatch x cs (concat (map fst items)) :: matches_of items).
  { intros cs [Hne Hexec]. destruct x as [|a x]; [congruence|].
    specialize (Hexec (concat (map fst items))). cbn [app] in *.
    rewrite (scan_hit _ _ _ _ x Hexec eq_refl). now rewrite scan_skip, IH. }
  destruct k as [|cs|cs e].
  - now rewrite Hx.
  - now apply Hhit.
  - now apply Hhit.
Qed.

Lemma apart_concat (u : str) (zs : list str) :
  Forall (apart u) zs -> apart u (concat zs).
Proof.
  induction 1 as [|z zs Hz _ IH]; intros t before y.
  - cbn [concat app]. now rewrite app_nil_r.
  - cbn [concat]. rewrite <- app_assoc, Hz, IH. now rewrite app_assoc.
Qed.

Lemma replace_first_apart (u e p y : str) :
  apart u p -> avoids ["$"%char] e = true ->
  replace_first u e (p ++ u ++ y) = p ++ e ++ y.
Proof.
  intros Hp He. unfold replace_first. rewrite Hp. cbn [app].
  rewrite replace_first_from_hit. now rewrite getSubstitution_plain.
Qed.

Lemma fold_items (outs : list str) (todo : list item) : forall done : list str,
  Forall (item_ok r step outs) todo ->
  incl done outs -> incl (map out_of todo) outs ->
  fold_left step (matches_of todo)
    (Some (Ok (concat done ++ concat (map fst todo)))) =
  Some (Ok (concat done ++ concat (map out_of todo))).
Proof.
  induction todo as [|[x k] todo IH]; intros done Hok Hdone Htodo;
    [reflexivity|].
  apply Forall_cons_iff in Hok as [Hx Hok].
  cbn [map] in Htodo. apply incl_cons_inv in Htodo as [Hin Htodo].
  assert (Hnext : forall z, In z outs ->
            fold_left step (matches_of todo)
              (Some (Ok (concat done ++ z ++ concat (map fst todo)))) =
            Some (Ok (concat done ++ z ++ concat (map out_of todo)))).
  { intros z Hz.
    assert (E : forall s, concat done ++ z ++ s = concat (done ++ [z]) ++ s).
    { intros s. rewrite concat_app. cbn [concat]. rewrite app_nil_r.
      now rewrite <- app_assoc. }
    rewrite !E. apply IH; [assumption| |assumption].
    apply incl_app; [assumption|]. intros w [<-|[]]. exact Hz. }
  unfold item_ok in Hx. cbn [fst snd] in Hx.
  cbn [map concat fst matches_of]. unfold out_of at 1. cbn [fst snd].
  destruct k as [|cs|cs e].
  - now apply Hnext.
  - destruct Hx as [_ Hstep]. cbn [fold_left]. rewrite Hstep. now apply Hnext.
  - destruct Hx as (_ & Hstep & He & Hapart). cbn [fold_left]. rewrite Hstep.
    rewrite replace_first_apart; [now apply Hnext| |assumption].
    apply apart_concat. rewrite Forall_forall in *. auto.
Qed.

(** A pass replaces its matches where they stand. *)
Lemma pass_items (items : list item) :
  Forall (item_ok r step (map out_of items)) items ->
  fold_left step (scan r 0 (concat (map fst items)))
    (Some (Ok (concat (map fst items)))) =
  Some (Ok (concat (map out_of items))).
Proof.
  intros H. rewrite (scan_items _ _ H).
  apply (fold_items (map out_of items) items [] H);
    [intros x []|apply incl_refl].
Qed.

End Pass.

(** ** Plain text *)

Lemma plain_cons (a : ascii) (t : str) :
  plain (a :: t) = true ->
  plain t = true
  /\ forall l y, strip_prefix ("<"%char :: "C"%char :: l) (a :: t ++ y) = None.
Proof.
  unfold plain. intros H. apply negb_true_iff in H.
  change (js "<C") with ["<"%char; "C"%char] in *.
  change (js "C") with ["C"%char] in *.
  cbn [app] in H. apply includes_cons in H as [H1 H2].
  split; [now rewrite H2|].
  intros l y. cbn [strip_prefix] in *.
  destruct (Ascii.eqb "<" a); [|reflexivity].
  destruct t as [|b t]; cbn [app] in *.
  - now rewrite Ascii.eqb_refl in H1.
  - destruct (Ascii.eqb "C" b); [discriminate|reflexivity].
Qed.

Lemma quiet_plain (l : str) (r : regex) (t : str) :
  plain t = true -> quiet (Lit ("<"%char :: "C"%char :: l) :: r) t.
Proof.
  induction t as [|a t IH]; intros H y; [reflexivity|].
  destruct (plain_cons a t H) as [Ht Hs]. cbn [app].
  rewrite scan_miss; [now apply IH|].
  unfold exec_at. cbn [run]. now rewrite Hs.
Qed.

Lemma apart_plain (u z : str) :
  plain z = true -> apart ("<"%char :: "C"%char :: u) z.
Proof.
  induction z as [|a z IH]; intros H t before y.
  - cbn [app]. now rewrite app_nil_r.
  - destruct (plain_cons a z H) as [Hz Hs]. cbn [app].
    unfold replace_first_from at 1; fold replace_first_from.
    rewrite Hs. rewrite IH by assumption. now rewrite <- app_assoc.
Qed.




(** ** Tags with another first attribute *)

Lemma name_char_not_equals (a : ascii) :
  is_word_or_hyphen a = true -> is_not "="%char a = true.
Proof. ascii_cases a. Qed.

Lemma name_char_not_slash (a : ascii) :
  is_word_or_hyphen a = true -> Ascii.eqb a "/"%char = false.
Proof. ascii_cases a. Qed.

Lemma strip_prefix_other_key (key : str) : forall (k u rest : str),
  str_eqb key k = false ->
  forallb (is_not "="%char) key = true -> forallb (is_not "="%char) k = true ->
  strip_prefix (key ++ "="%char :: u) (k ++ "="%char :: rest) = None.
Proof.
  induction key as [|a key IH]; intros [|b k] u rest E Hkey Hk;
    cbn [app strip_prefix str_eqb forallb] in *.
  - discriminate.
  - apply andb_true_iff in Hk as [Hb _]. unfold is_not in Hb.
    apply negb_true_iff in Hb. rewrite eqb_sym. now rewrite Hb.
  - apply andb_true_iff in Hkey as [Ha _]. unfold is_not in Ha.
    apply negb_true_iff in Ha. now rewrite Ha.
  - apply andb_true_iff in Hkey as [_ Hkey]. apply andb_true_iff in Hk as [_ Hk].
    destruct (Ascii.eqb a b); [|reflexivity].
    cbn [andb] in E. now apply IH.
Qed.

Lemma tag_body_other_key (key u : str) (attrs : list (str * str)) (y : str) :
  forallb is_word_or_hyphen key = true ->
  forallb wellFormedAttr attrs = true -> leads key attrs = false ->
  strip_prefix (key ++ "="%char :: u)
    (concat (map (fun e => renderAttr e ++ js " ") attrs) ++ js "/>" ++ y) = None.
Proof.
  intros Hkey Hl Hm. destruct attrs as [|[k v] attrs].
  - cbn [map concat app]. destruct key as [|a key]; [reflexivity|].
    cbn [forallb] in Hkey. apply andb_true_iff in Hkey as [Ha _].
    change (js "/>" ++ y) with ("/"%char :: ">"%char :: y).
    cbn [app strip_prefix]. now rewrite (name_char_not_slash a Ha).
  - cbn [leads fst] in Hm. cbn [forallb] in Hl. apply andb_true_iff in Hl as [He _].
    unfold wellFormedAttr in He. cbn [fst snd] in He.
    apply andb_true_iff in He as [He _]. apply andb_true_iff in He as [_ Hk].
    cbn [map concat]. unfold renderAttr at 1. cbn [fst snd].
    rewrite <- !app_assoc. change (js "=" ++ ?x) with ("="%char :: x).
    apply strip_prefix_other_key; [assumption| |].
    + revert Hkey. apply forallb_impl, name_char_not_equals.
    + revert Hk. apply forallb_impl, name_char_not_equals.
Qed.

Lemma tag_body_starts (attrs : list (str * str)) (y : str) :
  forallb wellFormedAttr attrs = true ->
  exists c t,
    concat (map (fun e => renderAttr e ++ js " ") attrs) ++ js "/>" ++ y = c :: t
    /\ is_space c = false.
Proof.
  intros Hl. destruct attrs as [|[k v] attrs].
  - exists "/"%char, (">"%char :: y). split; reflexivity.
  - cbn [forallb] in Hl. apply andb_true_iff in Hl as [He _].
    unfold wellFormedAttr in He. cbn [fst snd] in He.
    apply andb_true_iff in He as [He _]. apply andb_true_iff in He as [Hne Hk].
    destruct k as [|a k]; [discriminate|].
    cbn [forallb] in Hk. apply andb_true_iff in Hk as [Ha _].
    cbn [map concat]. unfold renderAttr at 1. cbn [fst snd].
    rewrite <- !app_assoc. cbn [app]. eexists _, _. split; [reflexivity|].
    now apply name_char_not_space.
Qed.

Lemma strip_prefix_same (p k s : str) :
  strip_prefix (p ++ k) (p ++ s) = strip_prefix k s.
Proof.
  induction p as [|a p IH]; [reflexivity|].
  cbn [app strip_prefix]. now rewrite Ascii.eqb_refl.
Qed.

Lemma tag_tail_no_lt (attrs : list (str * str)) :
  forallb wellFormedAttr attrs = true -> closed attrs = true ->
  forallb (is_not "<"%char)
    (js "Component " ++ concat (map (fun e => renderAttr e ++ js " ") attrs)
        ++ js "/>") = true.
Proof.
  intros Hl Hc. rewrite !forallb_app.
  rewrite (rendered_no_lt attrs Hl Hc). reflexivity.
Qed.

(** The regex of the first pass does not match a self-closing tag whose
    first attribute is not [name]. *)
Lemma exec_childrenRegex_tag (attrs : list (str * str)) (y : str) :
  forallb wellFormedAttr attrs = true -> leads (js "name") attrs = false ->
  exec_at childrenRegex (renderTag attrs ++ y) = None.
Proof.
  intros Hl Hm. unfold exec_at, childrenRegex, renderTag.
  set (B := concat (map (fun e => renderAttr e ++ js " ") attrs)).
  assert (E : (js "<Component " ++ B ++ js "/>") ++ y =
              js "<Component" ++ " "%char :: (B ++ js "/>" ++ y)).
  { cbn [js list_ascii_of_string app]. now rewrite <- !app_assoc. }
  rewrite E. rewrite run_lit. apply run_rep_none. intros u s' Es Hu Hmin.
  destruct (tag_body_starts attrs y Hl) as (c & t & Eb & Hc). fold B in Eb.
  rewrite Eb in Es.
  change (" "%char :: c :: t) with ([" "%char] ++ c :: t) in Es. symmetry in Es.
  destruct (run_within is_space u s' _ c t Es Hu Hc) as (p' & Ep & ->).
  destruct u as [|x u]; [cbn in Hmin; lia|].
  destruct u; [|destruct u; discriminate].
  cbn [app] in Ep. injection Ep as _ Ep. destruct p'; [|discriminate].
  cbn [app run]. rewrite <- Eb.
  change (js "name=" ++ [dq]) with (js "name" ++ "="%char :: [dq]).
  unfold B. now rewrite tag_body_other_key.
Qed.

Lemma quiet_tag (attrs : list (str * str)) :
  forallb wellFormedAttr attrs = true -> closed attrs = true ->
  leads (js "name") attrs = false ->
  quiet childrenRegex (renderTag attrs).
Proof.
  intros Hl Hc Hm y.
  pose proof (exec_childrenRegex_tag attrs y Hl Hm) as E.
  pose proof (tag_tail_no_lt attrs Hl Hc) as Ht.
  unfold renderTag in *.
  set (T := js "Component " ++ concat (map (fun e => renderAttr e ++ js " ") attrs)
               ++ js "/>") in *.
  change ((js "<Component " ++ _ ++ js "/>") ++ y) with ("<"%char :: T ++ y) in *.
  rewrite scan_miss by exact E.
  unfold childrenRegex. change (js "<Component") with ("<"%char :: js "Component").
  now apply scan_past.
Qed.

Lemma apart_tag (key u : str) (attrs : list (str * str)) :
  forallb is_word_or_hyphen key = true ->
  forallb wellFormedAttr attrs = true -> closed attrs = true ->
  leads key attrs = false ->
  apart (js "<Component " ++ key ++ "="%char :: u) (renderTag attrs).
Proof.
  intros Hkey Hl Hc Hm t before y.
  pose proof (tag_tail_no_lt attrs Hl Hc) as Ht.
  pose proof (tag_body_other_key key u attrs y Hkey Hl Hm) as Hb.
  unfold renderTag in *.
  set (B := concat (map (fun e => renderAttr e ++ js " ") attrs)) in *.
  assert (E : strip_prefix (js "<Component " ++ key ++ "="%char :: u)
                ((js "<Component " ++ B ++ js "/>") ++ y) = None).
  { rewrite <- !app_assoc. now rewrite strip_prefix_same. }
  set (T := js "Component " ++ B ++ js "/>") in *.
  change ((js "<Component " ++ B ++ js "/>") ++ y) with ("<"%char :: T ++ y) in *.
  change (js "<Component " ++ B ++ js "/>") with ("<"%char :: T).
  unfold replace_first_from at 1; fold replace_first_from.
  rewrite E.
  change (js "<Component " ++ key ++ "="%char :: u)
    with ("<"%char :: js "Component " ++ key ++ "="%char :: u).
  rewrite replace_first_from_skip by assumption.
  now rewrite <- app_assoc.
Qed.

(** ** What the passes do with a piece *)

Lemma obj_get_set_other (k k' v : str) (o : obj) :
  str_eqb k k' = false -> obj_get k (obj_set k' v o) = obj_get k o.
Proof.
  intros E. unfold obj_set.
  assert (D : obj_get k (obj_define k' v o) = obj_get k o)
    by (now rewrite obj_get_define, E).
  destruct (obj_get k' o); [exact D|].
  destruct (str_eqb k' (js "__proto__")); [reflexivity|exact D].
Qed.

Lemma obj_get_assigned_other (k : str) (l : list (str * str)) : forall o : obj,
  mentions k l = false ->
  obj_get k (fold_left (fun o e => obj_set (fst e) (snd e) o) l o) = obj_get k o.
Proof.
  induction l as [|e l IH]; intros o H; [reflexivity|].
  cbn [mentions existsb] in H. apply orb_false_iff in H as [He H].
  cbn [fold_left]. rewrite IH by exact H. now apply obj_get_set_other.
Qed.

Lemma malformed_skipped (attrs : list (str * str)) :
  forallb wellFormedAttr attrs = true -> mentions (js "src") attrs = false ->
  malformed (renderTag attrs) = true.
Proof.
  intros Hl Hm. destruct attrs as [|e attrs]; [reflexivity|].
  unfold malformed. rewrite parse_rendered by (assumption || discriminate).
  unfold assignAll. now rewrite obj_get_assigned_other.
Qed.

Lemma src_of_reference (name : str) (props : list (str * str)) :
  mentions (js "src") props = false ->
  obj_get (js "src") (assignAll ((js "src", name) :: props)) = Some name.
Proof.
  intros H. unfold assignAll. cbn [fold_left fst snd].
  rewrite obj_get_assigned_other by exact H. reflexivity.
Qed.

Lemma childrenStep_element (h : host) (compile : compiler) (root projectRoot : str)
    (name : str) (props : list (str * str)) (children out res y : str) :
  forallb wellFormedProp props = true ->
  expansion h compile root projectRoot (Element name props children)
    = Some (Ok out) ->
  childrenStep h compile root projectRoot (Some (Ok res))
    (MkMatch (childTag name props children) [name; renderProps props; children] y)
  = Some (Ok (replace_first (childTag name props children) out res)).
Proof.
  intros Hp. unfold childrenStep, expansion, cap. cbn [m0 caps nth Nat.sub].
  rewrite parseAttributes_props by assumption.
  destruct (loadComponent h name root projectRoot (assignAll props)) as [markup|].
  - intros ->. reflexivity.
  - intros [= <-]. reflexivity.
Qed.

Lemma selfClosingStep_reference (h : host) (compile : compiler)
    (root projectRoot : str) (name : str) (props : list (str * str))
    (out res y : str) :
  truthy name = true ->
  forallb wellFormedAttr ((js "src", name) :: props) = true ->
  mentions (js "src") props = false ->
  expansion h compile root projectRoot (Reference name props) = Some (Ok out) ->
  selfClosingStep h compile root projectRoot (Some (Ok res))
    (MkMatch (renderTag ((js "src", name) :: props)) [] y)
  = Some (Ok (replace_first (renderTag ((js "src", name) :: props)) out res)).
Proof.
  intros Hn Hl Hm. unfold selfClosingStep, expansion. cbn [m0].
  rewrite parse_rendered by (assumption || discriminate).
  rewrite src_of_reference by assumption. rewrite Hn. cbn [negb].
  destruct (loadComponent h name root projectRoot
              (assignAll ((js "src", name) :: props))) as [markup|].
  - destruct (bindSelfClosing markup (assignAll ((js "src", name) :: props)))
      as [bound|]; [|discriminate].
    intros ->. reflexivity.
  - intros [= <-]. reflexivity.
Qed.

(** ** The two passes over a page *)

Section Page.
Variable h : host.
Variable compile : compiler.
Variables root projectRoot : str.

Let ok := part_ok h compile root projectRoot.

Lemma mentions_leads (k : str) (attrs : list (str * str)) :
  mentions k attrs = false -> leads k attrs = false.
Proof.
  destruct attrs as [|e attrs]; [reflexivity|].
  cbn [mentions existsb leads]. intros H. now apply orb_false_iff in H as [H _].
Qed.

(** After the first pass a piece is plain text, or a self-closing tag
    whose first attribute is not [name]. *)
Lemma firstPass_out (x : piece * str) :
  ok x ->
  plain (out_of (firstPass x)) = true
  \/ exists attrs,
       out_of (firstPass x) = renderTag attrs
       /\ forallb wellFormedAttr attrs = true /\ closed attrs = true
       /\ leads (js "name") attrs = false.
Proof.
  destruct x as [[t|attrs|name props|name props children] out];
    intros [Hw [He Hs]]; cbn [fst snd] in *; unfold firstPass, out_of;
    cbn [fst snd source].
  - now left.
  - right. exists attrs. cbn [wellFormedPiece] in Hw.
    apply andb_true_iff in Hw as [Hw Hn]. apply andb_true_iff in Hw as [Hw _].
    apply andb_true_iff in Hw as [Hl Hc]. apply negb_true_iff in Hn.
    repeat split; try assumption. now apply mentions_leads.
  - right. exists ((js "src", name) :: props). cbn [wellFormedPiece] in Hw.
    apply andb_true_iff in Hw as [Hw _]. apply andb_true_iff in Hw as [Hw Hc].
    apply andb_true_iff in Hw as [_ Hl]. repeat split; assumption.
  - left. unfold spliceable in Hs. now apply andb_true_iff in Hs as [Hs _].
Qed.

Lemma firstPass_apart (parts : list (piece * str)) (u : str) :
  Forall ok parts ->
  Forall (apart (js "<Component name=" ++ u)) (map out_of (map firstPass parts)).
Proof.
  intros Hparts. rewrite map_map. apply Forall_map.
  revert Hparts. apply Forall_impl. intros z Hz.
  destruct (firstPass_out z Hz) as [Hp|(attrs & E & Hl & Hc & Hm)].
  - now apply (apart_plain (js "omponent name=" ++ u)).
  - rewrite E. apply (apart_tag (js "name") u); assumption || reflexivity.
Qed.

Lemma firstPass_ok (parts : list (piece * str)) (x : piece * str) :
  Forall ok parts -> ok x ->
  item_ok childrenRegex (childrenStep h compile root projectRoot)
    (map out_of (map firstPass parts)) (firstPass x).
Proof.
  intros Hparts Hx. pose proof Hx as [Hw [He Hs]].
  destruct x as [[t|attrs|name props|name props children] out];
    cbn [fst snd] in *; unfold firstPass, item_ok; cbn [fst snd source].
  - apply (quiet_plain (js "omponent")). exact Hw.
  - destruct (firstPass_out _ Hx) as [Hp|(attrs' & E & Hl & Hc & Hm)].
    + apply (quiet_plain (js "omponent")). exact Hp.
    + unfold firstPass, out_of in E. cbn [fst snd source] in E.
      rewrite E. now apply quiet_tag.
  - destruct (firstPass_out _ Hx) as [Hp|(attrs' & E & Hl & Hc & Hm)].
    + apply (quiet_plain (js "omponent")). exact Hp.
    + unfold firstPass, out_of in E. cbn [fst snd source] in E.
      rewrite E. now apply quiet_tag.
  - cbn [wellFormedPiece] in Hw.
    apply andb_true_iff in Hw as [Hw Hch]. apply andb_true_iff in Hw as [Hw Hp].
    apply andb_true_iff in Hw as [Hne Hn]. apply negb_true_iff in Hch.
    unfold spliceable in Hs. apply andb_true_iff in Hs as [_ Hd].
    assert (Hname : name <> []) by (destruct name; [discriminate|congruence]).
    repeat split.
    + unfold childTag. discriminate.
    + intros y. now apply exec_childrenRegex.
    + intros res y. now apply childrenStep_element.
    + exact Hd.
    + now apply (firstPass_apart parts (quoted name ++ renderProps props
                              ++ js ">" ++ children ++ js "</Component>")).
Qed.

(** After the second pass a piece is plain text, or a self-closing tag
    without [src]. *)
Lemma secondPass_out (x : piece * str) :
  ok x ->
  plain (out_of (secondPass x)) = true
  \/ exists attrs,
       out_of (secondPass x) = renderTag attrs
       /\ forallb wellFormedAttr attrs = true /\ closed attrs = true
       /\ leads (js "src") attrs = false.
Proof.
  destruct x as [[t|attrs|name props|name props children] out];
    intros [Hw [He Hs]]; cbn [fst snd] in *; unfold secondPass, out_of;
    cbn [fst snd source].
  - now left.
  - right. exists attrs. cbn [wellFormedPiece] in Hw.
    apply andb_true_iff in Hw as [Hw _]. apply andb_true_iff in Hw as [Hw Hn].
    apply andb_true_iff in Hw as [Hl Hc]. apply negb_true_iff in Hn.
    repeat split; try assumption. now apply mentions_leads.
  - left. unfold spliceable in Hs. now apply andb_true_iff in Hs as [Hs _].
  - left. unfold spliceable in Hs. now apply andb_true_iff in Hs as [Hs _].
Qed.

Lemma reference_shape (name : str) (props : list (str * str)) :
  renderTag ((js "src", name) :: props) =
  js "<Component src="
     ++ (quoted name ++ js " "
           ++ concat (map (fun e => renderAttr e ++ js " ") props) ++ js "/>").
Proof.
  unfold renderTag, renderAttr. cbn [map concat fst snd].
  cbn [js list_ascii_of_string app]. now rewrite <- !app_assoc.
Qed.

Lemma secondPass_apart (parts : list (piece * str)) (u : str) :
  Forall ok parts ->
  Forall (apart (js "<Component src=" ++ u)) (map out_of (map secondPass parts)).
Proof.
  intros Hparts. rewrite map_map. apply Forall_map.
  revert Hparts. apply Forall_impl. intros z Hz.
  destruct (secondPass_out z Hz) as [Hp|(attrs & E & Hl & Hc & Hm)].
  - now apply (apart_plain (js "omponent src=" ++ u)).
  - rewrite E. apply (apart_tag (js "src") u); assumption || reflexivity.
Qed.

Lemma secondPass_ok (parts : list (piece * str)) (x : piece * str) :
  Forall ok parts -> ok x ->
  item_ok selfClosingRegex (selfClosingStep h compile root projectRoot)
    (map out_of (map secondPass parts)) (secondPass x).
Proof.
  intros Hparts Hx. pose proof Hx as [Hw [He Hs]].
  destruct x as [[t|attrs|name props|name props children] out];
    cbn [fst snd] in *; unfold secondPass, item_ok; cbn [fst snd source].
  - apply (quiet_plain (js "omponent")). exact Hw.
  - cbn [wellFormedPiece] in Hw.
    apply andb_true_iff in Hw as [Hw _]. apply andb_true_iff in Hw as [Hw Hn].
    apply andb_true_iff in Hw as [Hl Hc]. apply negb_true_iff in Hn.
    repeat split.
    + unfold renderTag. discriminate.
    + intros y. now apply exec_selfClosing_rendered.
    + intros res y. apply selfClosingStep_malformed. cbn [m0].
      now apply malformed_skipped.
  - cbn [wellFormedPiece] in Hw.
    apply andb_true_iff in Hw as [Hw Hn]. apply andb_true_iff in Hw as [Hw Hc].
    apply andb_true_iff in Hw as [Hne Hl]. apply negb_true_iff in Hn.
    unfold spliceable in Hs. apply andb_true_iff in Hs as [_ Hd].
    repeat split.
    + unfold renderTag. discriminate.
    + intros y. now apply exec_selfClosing_rendered.
    + intros res y. now apply selfClosingStep_reference.
    + exact Hd.
    + rewrite reference_shape. now apply secondPass_apart.
  - unfold spliceable in Hs. apply andb_true_iff in Hs as [Hs _].
    apply (quiet_plain (js "omponent")). exact Hs.
Qed.

Lemma secondPass_reads_firstPass (x : piece * str) :
  fst (secondPass x) = out_of (firstPass x).
Proof. now destruct x as [[] out]. Qed.

Lemma secondPass_writes (x : piece * str) :
  ok x -> out_of (secondPass x) = snd x.
Proof.
  destruct x as [[t|attrs|name props|name props children] out];
    intros [_ [He _]]; cbn in *; congruence.
Qed.

End Page.

(** A page of well-formed pieces is compiled to the expansions of its
    pieces, one after the other. *)
Lemma compileHtml_parts (h : host) (d : nat) (root : str)
    (projectRoot : option str) (parts : list (piece * str)) :
  Forall (part_ok h (compileHtml h d) root (effectiveProjectRoot h root projectRoot))
         parts ->
  compileHtml h (S d) (page (map fst parts)) root projectRoot
  = Some (Ok (concat (map snd parts))).
Proof.
  intros H. cbn [compileHtml].
  set (eff := effectiveProjectRoot h root projectRoot) in *.
  assert (E1 : page (map fst parts) = concat (map fst (map firstPass parts))).
  { unfold page. f_equal. rewrite !map_map. apply map_ext.
    now intros [[] out]. }
  unfold processComponentsWithChildren, matchAll. rewrite E1.
  rewrite pass_items; [|reflexivity|].
  2:{ apply Forall_map. apply Forall_forall. intros x Hx.
      apply firstPass_ok; [assumption|]. rewrite Forall_forall in H. auto. }
  assert (E2 : map out_of (map firstPass parts) = map fst (map secondPass parts)).
  { rewrite !map_map. apply map_ext. intros x. symmetry.
    apply secondPass_reads_firstPass. }
  unfold processSelfClosingComponents, matchAll. rewrite E2.
  rewrite pass_items; [|reflexivity|].
  2:{ apply Forall_map. apply Forall_forall. intros x Hx.
      apply secondPass_ok; [assumption|]. rewrite Forall_forall in H. auto. }
  do 3 f_equal. rewrite map_map. apply map_ext_Forall.
  revert H. apply Forall_impl. intros x. apply secondPass_writes.
Qed.

(** ** The claims on pages *)

Lemma parts_of {A B} (P : A -> Prop) (R : A -> B -> Prop) (l : list A) (l' : list B) :
  Forall P l -> Forall2 R l l' ->
  exists parts : list (A * B),
    map fst parts = l /\ map snd parts = l'
    /\ Forall (fun x => P (fst x) /\ R (fst x) (snd x)) parts.
Proof.
  intros HP HR. induction HR as [|a b l l' Hab _ IH].
  - exists []. repeat split. constructor.
  - apply Forall_cons_iff in HP as [Ha HP].
    destruct (IH HP) as (parts & E1 & E2 & Hparts).
    exists ((a, b) :: parts). cbn [map fst snd]. rewrite E1, E2.
    repeat split. constructor; [now split|assumption].
Qed.











(** ** The default project root *)

(** C9. Without a project root (absent or [null]) [compileHtml] behaves as
    with the parent directory of [root] as project root: the two calls
    end alike; the candidate paths of a component are those under [root]
    and under [path.dirname(root)]; and the references of a page are
    replaced by their expansions under [path.dirname(root)]. *)
Theorem C9_default_project_root :
  forall (h : host) (root : str),
    (forall (depth : nat) (html : str),
       compileHtml h depth html root None =
       compileHtml h depth html root (Some (path_dirname h root)))
    /\ (forall name : str,
          possiblePaths h name root (effectiveProjectRoot h root None) =
          [ path_join h [root; js "components"; name ++ js ".html"];
            path_join h [path_dirname h root; js "src"; js "components";
                         name ++ js ".html"];
            path_join h [path_dirname h root; js "components"; name ++ js ".html"] ])
    /\ (forall (d : nat) (pieces : list piece) (outs : list str),
          Forall (fun p => wellFormedPiece p = true) pieces ->
          Forall2 (expanded h (compileHtml h d) root (path_dirname h root))
                  pieces outs ->
          compileHtml h (S d) (page pieces) root None = Some (Ok (concat outs))).
Proof.
  intros h root. split; [|split].
  - intros depth html.
    assert (E : effectiveProjectRoot h root None =
                effectiveProjectRoot h root (Some (path_dirname h root))).
    { unfold effectiveProjectRoot. now destruct (truthy (path_dirname h root)). }
    destruct depth as [|d]; [reflexivity|].
    cbn [compileHtml]. now rewrite E.
  - reflexivity.
  - intros d pieces outs Hw He.
    destruct (parts_of _ _ _ _ Hw He) as (parts & <- & <- & Hparts).
    now apply compileHtml_parts.
Qed.

Lemma C9_default_project_root_witness :
  compileHtml site 2
    (page [ Text (js "<main>"); Reference (js "Card") []; Text (js "</main>") ])
    (js "/work/site/src") None
  = Some (Ok (concat [ js "<main>"; js "<b>card</b>"; js "</main>" ])).
Proof.
  apply (proj2 (proj2 (C9_default_project_root site (js "/work/site/src")))).
  - repeat constructor.
  - repeat constructor.
Defined.
